(** * battery-backtest: a shallow embedding of the simulation core

    The Go code computes with [float64].  Every operation of the core is
    written here once, generically over the small interface [GoFloat] of the
    float64 operations the code uses (arithmetic, [<], [<=], [math.Abs],
    [math.Min], [math.Max]).  Two instances are provided:
    - [Q_GoFloat]: exact rational arithmetic, used for the general theorems;
    - [F64_GoFloat]: IEEE-754 binary64 (Rocq's primitive floats), with Go's
      comparison semantics on NaN and infinities, used to evaluate the code
      on concrete float64 inputs. *)

From Stdlib Require Import ZArith Lia QArith Qabs Qround Lqa Bool Ascii String List.
From Stdlib Require Import Sorted Permutation.
From Corelib Require Import PrimFloat.
From Stdlib Require SpecFloat FloatOps.
Import ListNotations.
Set Warnings "-inexact-float".

(* ------------------------------------------------------------------ *)
(** ** The float64 operations used by the code *)

Class GoFloat (F : Type) := {
  fzero : F;                 (* 0.0 *)
  fone : F;                  (* 1.0 *)
  fadd : F -> F -> F;        (* x + y *)
  fsub : F -> F -> F;        (* x - y *)
  fmul : F -> F -> F;        (* x * y *)
  fdiv : F -> F -> F;        (* x / y *)
  fopp : F -> F;             (* -x *)
  fabs : F -> F;             (* math.Abs *)
  flt : F -> F -> bool;      (* x < y *)
  fle : F -> F -> bool;      (* x <= y *)
  fmin : F -> F -> F;        (* math.Min *)
  fmax : F -> F -> F         (* math.Max *)
}.

(** Conversions between [int] and [float64] used by the planners:
    [float64(k)], [int(math.Round(x))], [int(math.Floor(x))],
    [int(math.Ceil(x))]. *)
Class GoRound (F : Type) := {
  fof_Z : Z -> F;
  fround_Z : F -> Z;
  ffloor_Z : F -> Z;
  fceil_Z : F -> Z
}.

(** *** Exact rationals *)

Definition Qltb (x y : Q) : bool := negb (Qle_bool y x).

(** [math.Round]: half away from zero. *)
Definition Qround_away (x : Q) : Z :=
  if Qle_bool 0 x then Qfloor (x + (1 # 2)) else (- Qfloor (- x + (1 # 2)))%Z.

#[global] Instance Q_GoFloat : GoFloat Q := {
  fzero := 0;
  fone := 1;
  fadd := Qplus;
  fsub := Qminus;
  fmul := Qmult;
  fdiv := Qdiv;
  fopp := Qopp;
  fabs := Qabs;
  flt := Qltb;
  fle := Qle_bool;
  fmin := fun x y => if Qltb x y then x else y;
  fmax := fun x y => if Qltb y x then x else y
}.

#[global] Instance Q_GoRound : GoRound Q := {
  fof_Z := inject_Z;
  fround_Z := Qround_away;
  ffloor_Z := Qfloor;
  fceil_Z := Qceiling
}.

(** *** IEEE binary64, with Go's [math.Min] and [math.Max] special cases *)

Definition go_min (x y : float) : float :=
  if (x =? neg_infinity)%float || (y =? neg_infinity)%float then neg_infinity
  else if is_nan x || is_nan y then nan
  else if (x =? zero)%float && (x =? y)%float then (if get_sign x then x else y)
  else if (x <? y)%float then x else y.

Definition go_max (x y : float) : float :=
  if (x =? infinity)%float || (y =? infinity)%float then infinity
  else if is_nan x || is_nan y then nan
  else if (x =? zero)%float && (x =? y)%float then (if get_sign x then y else x)
  else if (y <? x)%float then x else y.

#[global] Instance F64_GoFloat : GoFloat float := {
  fzero := zero;
  fone := one;
  fadd := PrimFloat.add;
  fsub := PrimFloat.sub;
  fmul := PrimFloat.mul;
  fdiv := PrimFloat.div;
  fopp := PrimFloat.opp;
  fabs := PrimFloat.abs;
  flt := PrimFloat.ltb;
  fle := PrimFloat.leb;
  fmin := go_min;
  fmax := go_max
}.

(** [int(math.Floor(x))] on a finite float64 [x = (-1)^s * m * 2^e].  Go
    leaves the conversion of a non-finite or out-of-range float to [int]
    implementation-specific; the code converts only finite values in range,
    and 0 is used here for the others. *)
Definition f64_floor_Z (x : float) : Z :=
  match FloatOps.Prim2SF x with
  | SpecFloat.S754_finite s m e =>
      let v := if s then Zneg m else Zpos m in
      if (0 <=? e)%Z then (v * 2 ^ e)%Z else (v / 2 ^ (- e))%Z
  | _ => 0%Z
  end.

(** [int(math.Round(x))]: half away from zero, [floor(|x| + 1/2)] with the
    sign of [x]. *)
Definition f64_round_Z (x : float) : Z :=
  match FloatOps.Prim2SF x with
  | SpecFloat.S754_finite s m e =>
      let a := if (0 <=? e)%Z then (Zpos m * 2 ^ e)%Z
               else ((2 * Zpos m + 2 ^ (- e)) / 2 ^ (1 - e))%Z in
      if s then (- a)%Z else a
  | _ => 0%Z
  end.

(** [float64(k)]: the nearest binary64, ties to even. *)
Definition f64_of_Z (z : Z) : float :=
  FloatOps.SF2Prim (SpecFloat.binary_normalize 53 1024 z 0 false).

#[global] Instance F64_GoRound : GoRound float := {
  fof_Z := f64_of_Z;
  fround_Z := f64_round_Z;
  ffloor_Z := f64_floor_Z;
  fceil_Z := fun x => (- f64_floor_Z (PrimFloat.opp x))%Z
}.

(* ------------------------------------------------------------------ *)
(** ** package model: battery.go *)

Section Battery.
Context {F : Type} `{GoFloat F}.

Record BatteryParams := mkParams {
  EnergyCapacityMWh : F;
  PowerCapacityMW : F;
  ChargeEfficiency : F;
  DischargeEfficiency : F;
  MinSOC : F;
  MaxSOC : F;
  DegradationCostPerMWh : F
}.

Record BatteryState := mkState { SOC : F }.

Record Battery := mkBattery { Params : BatteryParams; State : BatteryState }.

(** [Battery.Validate]: [None] is a nil error. *)
Definition Validate (b : Battery) : option string :=
  let p := Params b in
  if fle (EnergyCapacityMWh p) fzero then Some "EnergyCapacityMWh must be > 0"%string
  else if fle (PowerCapacityMW p) fzero then Some "PowerCapacityMW must be > 0"%string
  else if fle (ChargeEfficiency p) fzero || flt fone (ChargeEfficiency p)
  then Some "ChargeEfficiency must be in (0, 1]"%string
  else if fle (DischargeEfficiency p) fzero || flt fone (DischargeEfficiency p)
  then Some "DischargeEfficiency must be in (0, 1]"%string
  else if flt (MinSOC p) fzero || flt fone (MinSOC p) || flt (MaxSOC p) fzero
          || flt fone (MaxSOC p) || flt (MaxSOC p) (MinSOC p)
  then Some "MinSOC/MaxSOC must satisfy 0<=MinSOC<=MaxSOC<=1"%string
  else if flt (SOC (State b)) (MinSOC p) || flt (MaxSOC p) (SOC (State b))
  then Some "initial SOC must be within [MinSOC, MaxSOC]"%string
  else if flt (DegradationCostPerMWh p) fzero
  then Some "DegradationCostPerMWh must be >= 0"%string
  else None.

(** [NewBattery]. *)
Definition NewBattery (params : BatteryParams) (initialSOC : F) : string + Battery :=
  let b := mkBattery params (mkState initialSOC) in
  match Validate b with
  | Some err => inl err
  | None => inr b
  end.

Record Dispatch := mkDispatch { PowerMW : F }.

(** [IntervalResult]; its Go field [PowerMW] is [RealizedPowerMW] here. *)
Record IntervalResult := mkResult {
  RealizedPowerMW : F;
  EnergyToGridMWh : F;
  EnergyFromGridMWh : F;
  ThroughputMWh : F;
  SOCStart : F;
  SOCEnd : F;
  PNL : F
}.

Definition ClipDispatch (b : Battery) (d : Dispatch) : Dispatch :=
  let cap := PowerCapacityMW (Params b) in
  let p := PowerMW d in
  let p := if flt cap p then cap else p in
  let p := if flt p (fopp cap) then fopp cap else p in
  mkDispatch p.

Definition CalculateIntervalPnL (b : Battery) (lmp energyFromGridMWh energyToGridMWh : F) : F :=
  let revenue := fmul lmp energyToGridMWh in
  let cost := fmul lmp energyFromGridMWh in
  let degradation := fmul (DegradationCostPerMWh (Params b))
                          (fadd energyFromGridMWh energyToGridMWh) in
  fsub (fsub revenue cost) degradation.

Definition maxChargeEnergyFromGridMWh (b : Battery) (durationHours : F) : F :=
  let p := Params b in
  let storableMWh := fmul (fsub (MaxSOC p) (SOC (State b))) (EnergyCapacityMWh p) in
  if fle storableMWh fzero then fzero
  else
    let limitBySOC := fdiv storableMWh (ChargeEfficiency p) in
    let limitByPower := fmul (PowerCapacityMW p) durationHours in
    fmax fzero (fmin limitBySOC limitByPower).

Definition maxDischargeEnergyToGridMWh (b : Battery) (durationHours : F) : F :=
  let p := Params b in
  let withdrawableMWh := fmul (fsub (SOC (State b)) (MinSOC p)) (EnergyCapacityMWh p) in
  if fle withdrawableMWh fzero then fzero
  else
    let limitBySOC := fmul withdrawableMWh (DischargeEfficiency p) in
    let limitByPower := fmul (PowerCapacityMW p) durationHours in
    fmax fzero (fmin limitBySOC limitByPower).

Definition clamp01 (x : F) : F :=
  if flt x fzero then fzero else if flt fone x then fone else x.

Definition setSOC (b : Battery) (soc : F) : Battery :=
  mkBattery (Params b) (mkState soc).

(** [Battery.ApplyDispatch].  The method mutates [b.State.SOC] through its
    receiver pointer: the battery after the call is returned next to the
    [(IntervalResult, error)] pair.  On the error path the receiver is
    returned untouched, as in the Go code. *)
Definition ApplyDispatch (b : Battery) (lmp : F) (d : Dispatch) (durationHours : F)
  : Battery * (string + IntervalResult) :=
  if fle durationHours fzero then (b, inl "durationHours must be > 0"%string)
  else
    let p := PowerMW (ClipDispatch b d) in
    let prm := Params b in
    let socStart := SOC (State b) in
    let maxChargeMWhGrid := maxChargeEnergyFromGridMWh b durationHours in
    let maxDischargeMWhGrid := maxDischargeEnergyToGridMWh b durationHours in
    if flt p fzero then
      let reqFromGridMWh := fmul (fabs p) durationHours in
      let '(reqFromGridMWh, p) :=
        if flt maxChargeMWhGrid reqFromGridMWh
        then (maxChargeMWhGrid, fdiv (fopp maxChargeMWhGrid) durationHours)
        else (reqFromGridMWh, p) in
      let storedMWh := fmul reqFromGridMWh (ChargeEfficiency prm) in
      let soc := clamp01 (fdiv (fadd (fmul socStart (EnergyCapacityMWh prm)) storedMWh)
                               (EnergyCapacityMWh prm)) in
      let b' := setSOC b soc in
      (b', inr (mkResult p fzero reqFromGridMWh reqFromGridMWh socStart soc
                  (CalculateIntervalPnL b' lmp reqFromGridMWh fzero)))
    else if flt fzero p then
      let reqToGridMWh := fmul p durationHours in
      let '(reqToGridMWh, p) :=
        if flt maxDischargeMWhGrid reqToGridMWh
        then (maxDischargeMWhGrid, fdiv maxDischargeMWhGrid durationHours)
        else (reqToGridMWh, p) in
      let withdrawnMWh := fdiv reqToGridMWh (DischargeEfficiency prm) in
      let soc := clamp01 (fdiv (fsub (fmul socStart (EnergyCapacityMWh prm)) withdrawnMWh)
                               (EnergyCapacityMWh prm)) in
      let b' := setSOC b soc in
      (b', inr (mkResult p reqToGridMWh fzero reqToGridMWh socStart soc
                  (CalculateIntervalPnL b' lmp fzero reqToGridMWh)))
    else
      (b, inr (mkResult fzero fzero fzero fzero socStart socStart
                 (CalculateIntervalPnL b lmp fzero fzero))).

End Battery.

Arguments BatteryParams : clear implicits.
Arguments BatteryState : clear implicits.
Arguments Battery : clear implicits.
Arguments Dispatch : clear implicits.
Arguments IntervalResult : clear implicits.

(* ------------------------------------------------------------------ *)
(** ** package strategy, oracle planner: the pure step [simulateInterval] *)

Section Simulate.
Context {F : Type} `{GoFloat F}.

(** [simulateInterval soc desiredPower lmp dtH p] returns
    [(nextSOC, realizedPower, pnl)]. *)
Definition simulateInterval (soc desiredPower lmp dtH : F) (p : BatteryParams F)
  : F * F * F :=
  let power := desiredPower in
  let power := if flt (PowerCapacityMW p) power then PowerCapacityMW p else power in
  let power := if flt power (fopp (PowerCapacityMW p)) then fopp (PowerCapacityMW p) else power in
  let '(nextSOC, power, energyFromGrid, energyToGrid) :=
    if flt power fzero then
      let reqFromGrid := fmul (fabs power) dtH in
      let storableMWh := fmul (fsub (MaxSOC p) soc) (EnergyCapacityMWh p) in
      let storableMWh := if flt storableMWh fzero then fzero else storableMWh in
      let limitBySOC := fdiv storableMWh (ChargeEfficiency p) in
      let limitByPower := fmul (PowerCapacityMW p) dtH in
      let maxFromGrid := fmin limitBySOC limitByPower in
      let '(reqFromGrid, power) :=
        if flt maxFromGrid reqFromGrid && flt fzero dtH
        then (maxFromGrid, fdiv (fopp maxFromGrid) dtH)
        else (reqFromGrid, power) in
      let storedMWh := fmul reqFromGrid (ChargeEfficiency p) in
      (fadd soc (fdiv storedMWh (EnergyCapacityMWh p)), power, reqFromGrid, fzero)
    else if flt fzero power then
      let reqToGrid := fmul power dtH in
      let withdrawableMWh := fmul (fsub soc (MinSOC p)) (EnergyCapacityMWh p) in
      let withdrawableMWh := if flt withdrawableMWh fzero then fzero else withdrawableMWh in
      let limitBySOC := fmul withdrawableMWh (DischargeEfficiency p) in
      let limitByPower := fmul (PowerCapacityMW p) dtH in
      let maxToGrid := fmin limitBySOC limitByPower in
      let '(reqToGrid, power) :=
        if flt maxToGrid reqToGrid && flt fzero dtH
        then (maxToGrid, fdiv maxToGrid dtH)
        else (reqToGrid, power) in
      let withdrawnMWh := fdiv reqToGrid (DischargeEfficiency p) in
      (fsub soc (fdiv withdrawnMWh (EnergyCapacityMWh p)), power, fzero, reqToGrid)
    else (soc, power, fzero, fzero) in
  let nextSOC := if flt nextSOC (MinSOC p) then MinSOC p else nextSOC in
  let nextSOC := if flt (MaxSOC p) nextSOC then MaxSOC p else nextSOC in
  let revenue := fmul lmp energyToGrid in
  let cost := fmul lmp energyFromGrid in
  let deg := fmul (DegradationCostPerMWh p) (fadd energyFromGrid energyToGrid) in
  (nextSOC, power, fsub (fsub revenue cost) deg).

End Simulate.

(* ------------------------------------------------------------------ *)
(** ** Market data, strategies and the engine *)

(** A wall-clock reading of [IntervalStartLocal]: calendar date, clock time
    and the fixed UTC offset (minutes east of UTC) that an RFC3339 timestamp
    carries. *)
Record LocalTime := mkLocalTime {
  Year : Z; Month : Z; Day : Z; Hour : Z; Minute : Z; OffsetMin : Z
}.

(** Days since 1970-01-01 of a proleptic Gregorian date. *)
Definition days_from_civil (y m d : Z) : Z :=
  let y := if (m <=? 2)%Z then (y - 1)%Z else y in
  let era := (y / 400)%Z in
  let yoe := (y - era * 400)%Z in
  let mp := ((m + 9) mod 12)%Z in
  let doy := ((153 * mp + 2) / 5 + d - 1)%Z in
  let doe := (yoe * 365 + yoe / 4 - yoe / 100 + doy)%Z in
  (era * 146097 + doe - 719468)%Z.

(** The instant (minutes since the epoch) of
    [time.Date(t.Year(), t.Month(), t.Day(), 0, 0, 0, 0, t.Location())];
    [time.Time.Equal] compares such instants. *)
Definition DayStart (t : LocalTime) : Z :=
  (days_from_civil (Year t) (Month t) (Day t) * 1440 - OffsetMin t)%Z.

Section Engine.
Context {F : Type} `{GoFloat F}.

(** [model.LMPInterval], restricted to the fields the core reads.
    [DurationHours] is [LMPInterval.DurationHours()], i.e. the UTC (else
    local) end minus start, in hours. *)
Record LMPInterval := mkInterval {
  IntervalStartLocal : LocalTime;
  DurationHours : F;
  LMP : F
}.

Inductive Action := ActionCharging | ActionIdle | ActionDischarging.

Definition ActionFromPowerMW (powerMW : F) : Action :=
  if flt powerMW fzero then ActionCharging
  else if flt fzero powerMW then ActionDischarging
  else ActionIdle.

(** [strategy.Context] and the [strategy.Strategy] interface. *)
Record Context := mkContext {
  Index : nat;
  Interval : LMPInterval;
  CtxBattery : Battery F
}.

Record Strategy := mkStrategy { Decide : Context -> Dispatch F }.

(** [backtest.LedgerRow] (timestamps and string tags are carried by
    [RowInterval]). *)
Record LedgerRow := mkRow {
  RowIndex : nat;
  RowInterval : LMPInterval;
  RowLMP : F;
  RowAction : Action;
  RequestedPowerMW : F;
  RowPowerMW : F;
  RowEnergyFromGridMWh : F;
  RowEnergyToGridMWh : F;
  RowThroughputMWh : F;
  RowSOCStart : F;
  RowSOCEnd : F;
  RowPNL : F;
  CumPNL : F
}.

Record Result := mkRunResult {
  Ledger : list LedgerRow;
  TotalPNL : F;
  FinalSOC : F
}.

(** The [for idx, it := range intervals] loop of [Engine.Run], from index
    [idx], with the battery, the running [cum] and the ledger built so far. *)
Fixpoint run_loop (strat : Strategy) (idx : nat) (its : list LMPInterval)
    (batt : Battery F) (cum : F) (ledger : list LedgerRow)
  : string + (list LedgerRow * F * Battery F) :=
  match its with
  | [] => inr (ledger, cum, batt)
  | it :: rest =>
      let dtH := DurationHours it in
      let req := Decide strat (mkContext idx it batt) in
      match ApplyDispatch batt (LMP it) req dtH with
      | (_, inl err) => inl ("apply dispatch: " ++ err)%string
      | (batt', inr res) =>
          let cum' := fadd cum (PNL res) in
          let row := mkRow idx it (LMP it) (ActionFromPowerMW (RealizedPowerMW res))
                       (PowerMW req) (RealizedPowerMW res)
                       (EnergyFromGridMWh res) (EnergyToGridMWh res) (ThroughputMWh res)
                       (SOCStart res) (SOCEnd res) (PNL res) cum' in
          run_loop strat (S idx) rest batt' cum' (ledger ++ [row])
      end
  end.

(** [Engine.Run] past its nil checks on [batt] and [strat] (those are in
    [EngineRun] below); the error message omits the interval number
    ([fmt.Errorf("interval %d apply dispatch: %w", ...)]). *)
Definition Run (intervals : list LMPInterval) (batt : Battery F) (strat : Strategy)
  : string + Result :=
  match intervals with
  | [] => inl "no intervals"%string
  | _ =>
      match run_loop strat 0 intervals batt fzero [] with
      | inl err => inl err
      | inr (ledger, cum, b) => inr (mkRunResult ledger cum (SOC (State b)))
      end
  end.

(** [Engine.Run] with its [nil] checks: [None] is a nil [*model.Battery]
    or a nil [strategy.Strategy]. *)
Definition EngineRun (intervals : list LMPInterval) (batt : option (Battery F))
    (strat : option Strategy) : string + Result :=
  match batt with
  | None => inl "battery is nil"%string
  | Some b =>
      match strat with
      | None => inl "strategy is nil"%string
      | Some s => Run intervals b s
      end
  end.

(** The battery a ledger row starts from, and the [IntervalResult] a row
    records. *)
Definition row_battery (prm : BatteryParams F) (row : LedgerRow) : Battery F :=
  mkBattery prm (mkState (RowSOCStart row)).

Definition row_result (row : LedgerRow) : IntervalResult F :=
  mkResult (RowPowerMW row) (RowEnergyToGridMWh row) (RowEnergyFromGridMWh row)
    (RowThroughputMWh row) (RowSOCStart row) (RowSOCEnd row) (RowPNL row).

(** *** schedule.go *)

Definition inWindow (tMins start end_ : Z) : bool :=
  if (start =? end_)%Z then false
  else if (start <? end_)%Z then (start <=? tMins)%Z && (tMins <? end_)%Z
  else (start <=? tMins)%Z || (tMins <? end_)%Z.

(** [ScheduleParams] after [parseHHMM]: clock times as minutes of the day;
    an empty optional end is [None]. *)
Record ScheduleParams := mkSchedule {
  ChargeStart : Z;
  ChargeEnd : option Z;
  DischargeStart : Z;
  DischargeEnd : option Z;
  ChargePowerMW : F;
  DischargePowerMW : F
}.

Definition ScheduleDecide (s : ScheduleParams) (ctx : Context) : Dispatch F :=
  let cs := ChargeStart s in
  let ds := DischargeStart s in
  let ce := match ChargeEnd s with Some e => e | None => ds end in
  let de := match DischargeEnd s with Some e => e | None => ds end in
  let t := IntervalStartLocal (Interval ctx) in
  let mins := (Hour t * 60 + Minute t)%Z in
  if inWindow mins cs ce then mkDispatch (fopp (fabs (ChargePowerMW s)))
  else if inWindow mins ds de then mkDispatch (fabs (DischargePowerMW s))
  else mkDispatch fzero.

Definition ScheduleStrategy (s : ScheduleParams) : Strategy :=
  mkStrategy (ScheduleDecide s).

(** *** [OracleStrategy.Decide]: replay of the precomputed plan. *)
Definition OracleDecide (plan : list (Dispatch F)) (ctx : Context) : Dispatch F :=
  nth (Index ctx) plan (mkDispatch fzero).

Definition OracleStrategyOf (plan : list (Dispatch F)) : Strategy :=
  mkStrategy (OracleDecide plan).

End Engine.

Arguments LMPInterval : clear implicits.
Arguments Context : clear implicits.
Arguments Strategy : clear implicits.
Arguments LedgerRow : clear implicits.
Arguments Result : clear implicits.
Arguments ScheduleParams : clear implicits.

(* ------------------------------------------------------------------ *)
(** ** Oracle planner: [optimizeDP], [optimizeDPByDay], [NewOracleStrategy] *)

(** [a[i] = v] on a slice (indices used are in range). *)
Fixpoint list_set {A : Type} (l : list A) (i : nat) (v : A) : list A :=
  match l, i with
  | [], _ => []
  | _ :: t, O => v :: t
  | x :: t, S i' => x :: list_set t i' v
  end.

Section OptimizeDP.
Context {F : Type} `{GoFloat F} `{GoRound F}.
Variable p : BatteryParams F.
Variable socSteps : Z.

Definition negInf : F := fopp (fof_Z (10 ^ 100)%Z).

Definition socToIdx (soc : F) : nat :=
  if fle soc (MinSOC p) then 0
  else if fle (MaxSOC p) soc then Z.to_nat socSteps
  else
    let f := fdiv (fsub soc (MinSOC p)) (fsub (MaxSOC p) (MinSOC p)) in
    Z.to_nat (fround_Z (fmul f (fof_Z socSteps))).

Definition idxToSoc (idx : nat) : F :=
  if (Z.of_nat idx <=? 0)%Z then MinSOC p
  else if (socSteps <=? Z.of_nat idx)%Z then MaxSOC p
  else
    let f := fdiv (fof_Z (Z.of_nat idx)) (fof_Z socSteps) in
    fadd (MinSOC p) (fmul f (fsub (MaxSOC p) (MinSOC p))).

(** The innermost loop over [actions] from state [sIdx]: updates [next] and
    the running [(bestNextState, bestValue, bestPower)]. *)
Fixpoint actions_loop (dps soc lmp dtH : F) (acts : list F) (next : list F)
    (best : nat * F * F) : list F * (nat * F * F) :=
  match acts with
  | [] => (next, best)
  | desiredPower :: rest =>
      let '(nsoc, realizedPower, pnl) := simulateInterval soc desiredPower lmp dtH p in
      let ns := socToIdx nsoc in
      let v := fadd dps pnl in
      let next := if flt (nth ns next negInf) v then list_set next ns v else next in
      let '(_, bestValue, _) := best in
      let best := if flt bestValue v then (ns, v, realizedPower) else best in
      actions_loop dps soc lmp dtH rest next best
  end.

(** The loop [for sIdx := 0; sIdx < nStates; sIdx++] for one interval:
    returns [next] and, per state, [(choice[t][sIdx], powerChosen[t][sIdx])]. *)
Fixpoint states_loop (dp : list F) (acts : list F) (lmp dtH : F) (sIdx : nat)
    (todo : nat) (next : list F) : list F * list (Z * F) :=
  match todo with
  | O => (next, [])
  | S todo' =>
      let dps := nth sIdx dp negInf in
      if fle dps (fdiv negInf (fof_Z 2)) then
        let '(next, cs) := states_loop dp acts lmp dtH (S sIdx) todo' next in
        (next, ((-1)%Z, fzero) :: cs)
      else
        let soc := idxToSoc sIdx in
        let '(next, (bestNextState, _, bestPower)) :=
          actions_loop dps soc lmp dtH acts next (sIdx, dps, fzero) in
        let '(next, cs) := states_loop dp acts lmp dtH (S sIdx) todo' next in
        (next, (Z.of_nat bestNextState, bestPower) :: cs)
  end.

(** The loop [for t, it := range intervals]: the final [dp] and the
    backpointer rows [choice[t]]/[powerChosen[t]], or the error for a
    non-positive duration. *)
Fixpoint intervals_loop (acts : list F) (dp : list F) (its : list (LMPInterval F))
  : string + (list F * list (list (Z * F))) :=
  match its with
  | [] => inr (dp, [])
  | it :: rest =>
      let nStates := S (Z.to_nat socSteps) in
      let next := repeat negInf nStates in
      let dtH := DurationHours it in
      if fle dtH fzero then inl "non-positive dt"%string
      else
        let '(next, ct) := states_loop dp acts (LMP it) dtH 0 nStates next in
        match intervals_loop acts next rest with
        | inl err => inl err
        | inr (dpf, cts) => inr (dpf, ct :: cts)
        end
  end.

(** Forward reconstruction from [initIdx] along the recorded choices. *)
Fixpoint reconstruct (choices : list (list (Z * F))) (cur : nat) : list (Dispatch F) :=
  match choices with
  | [] => []
  | ct :: rest =>
      let '(ns, pw) := nth cur ct ((-1)%Z, fzero) in
      if (ns <? 0)%Z then mkDispatch fzero :: reconstruct rest cur
      else mkDispatch pw :: reconstruct rest (Z.to_nat ns)
  end.

Definition actionsOf (powerSteps : Z) : list F :=
  let step := fdiv (PowerCapacityMW p) (fof_Z powerSteps) in
  map (fun i => fmul (fof_Z (- powerSteps + Z.of_nat i)%Z) step)
      (seq 0 (Z.to_nat (2 * powerSteps + 1))).

End OptimizeDP.

(** [optimizeDP].  The search for the best final state and the backward
    loop that breaks at once do not influence the plan and are omitted. *)
Definition optimizeDP {F} `{GoFloat F} `{GoRound F} (intervals : list (LMPInterval F))
    (p : BatteryParams F) (initialSOC : F) (socSteps powerSteps : Z)
  : string + list (Dispatch F) :=
  let socSteps := if (socSteps <? 2)%Z then 2%Z else socSteps in
  let nStates := S (Z.to_nat socSteps) in
  let initIdx := socToIdx p socSteps initialSOC in
  let dp := list_set (repeat (negInf (F:=F)) nStates) initIdx fzero in
  match intervals_loop p socSteps (actionsOf p powerSteps) dp intervals with
  | inl err => inl err
  | inr (_, choices) => inr (reconstruct choices initIdx)
  end.

Section ByDay.
Context {F : Type} `{GoFloat F} `{GoRound F}.
Variables (p : BatteryParams F) (initialSOC : F) (socSteps powerSteps : Z).

Definition intervalDay (it : LMPInterval F) : Z := DayStart (IntervalStartLocal it).

(** The grouping loop of [optimizeDPByDay]: state [(dayIntervals, fullPlan,
    currentDay)]. *)
Fixpoint byDay_loop (i : nat) (its : list (LMPInterval F))
    (dayIntervals : list (LMPInterval F)) (fullPlan : list (Dispatch F)) (currentDay : Z)
  : string + (list (LMPInterval F) * list (Dispatch F) * Z) :=
  match its with
  | [] => inr (dayIntervals, fullPlan, currentDay)
  | interval :: rest =>
      let day := intervalDay interval in
      let flushed :=
        if (0 <? i)%nat && negb (day =? currentDay)%Z then
          match optimizeDP dayIntervals p initialSOC socSteps powerSteps with
          | inl err => inl err
          | inr dayPlan => inr ([], fullPlan ++ dayPlan)
          end
        else inr (dayIntervals, fullPlan) in
      match flushed with
      | inl err => inl ("error optimizing day: " ++ err)%string
      | inr (dayIntervals, fullPlan) =>
          let currentDay := match dayIntervals with [] => day | _ => currentDay end in
          byDay_loop (S i) rest (dayIntervals ++ [interval]) fullPlan currentDay
      end
  end.

Definition optimizeDPByDay (intervals : list (LMPInterval F)) : string + list (Dispatch F) :=
  match intervals with
  | [] => inl "no intervals"%string
  | _ =>
      match byDay_loop 0 intervals [] [] 0%Z with
      | inl err => inl err
      | inr (dayIntervals, fullPlan, _) =>
          let last :=
            match dayIntervals with
            | [] => inr fullPlan
            | _ =>
                match optimizeDP dayIntervals p initialSOC socSteps powerSteps with
                | inl err => inl ("error optimizing day: " ++ err)%string
                | inr dayPlan => inr (fullPlan ++ dayPlan)
                end
            end in
          match last return string + list (Dispatch F) with
          | inl err => inl err
          | inr fullPlan =>
              if Nat.eqb (List.length fullPlan) (List.length intervals) then inr fullPlan
              else inl "plan length does not match intervals length"%string
          end
      end
  end.

End ByDay.

Record OracleParams := mkOracleParams { SocSteps : Z; PowerSteps : Z }.

(** [NewOracleStrategy]: the plan of the returned [OracleStrategy]. *)
Definition NewOracleStrategy {F} `{GoFloat F} `{GoRound F} (intervals : list (LMPInterval F))
    (params : BatteryParams F) (initialSOC : F) (cfg : OracleParams)
  : string + list (Dispatch F) :=
  match intervals with
  | [] => inl "no intervals"%string
  | _ =>
      let socSteps := if (SocSteps cfg <=? 0)%Z then 200%Z else SocSteps cfg in
      let powerSteps := if (PowerSteps cfg <=? 0)%Z then 10%Z else PowerSteps cfg in
      optimizeDPByDay params initialSOC socSteps powerSteps intervals
  end.

(* ------------------------------------------------------------------ *)
(** ** package analysis: rank.go *)

Section Rank.
Context {F : Type} `{GoFloat F} `{GoRound F}.

(** [sort.Float64s], as an insertion sort by [<] (inputs without NaN). *)
Fixpoint insert_sorted (x : F) (l : list F) : list F :=
  match l with
  | [] => [x]
  | y :: t => if flt y x then y :: insert_sorted x t else x :: y :: t
  end.

Fixpoint sortFloat64s (l : list F) : list F :=
  match l with
  | [] => []
  | x :: t => insert_sorted x (sortFloat64s t)
  end.

Definition percentileSorted (sorted : list F) (q : F) : F :=
  match sorted with
  | [] => fzero
  | s0 :: _ =>
      let n := length sorted in
      if fle q fzero then s0
      else if fle fone q then last sorted fzero
      else
        let pos := fmul q (fof_Z (Z.of_nat n - 1)) in
        let lo := ffloor_Z pos in
        let hi := fceil_Z pos in
        if (lo =? hi)%Z then nth (Z.to_nat lo) sorted fzero
        else
          let frac := fsub pos (fof_Z lo) in
          fadd (fmul (nth (Z.to_nat lo) sorted fzero) (fsub fone frac))
               (fmul (nth (Z.to_nat hi) sorted fzero) frac)
  end.

(** One interval of the canonical DP: the loop over [socIdx] from [socIdx]
    with [todo] states left. *)
Fixpoint canonical_states (dp : list F) (price dt : F) (steps : nat) (socIdx todo : nat)
    (next : list F) : list F :=
  match todo with
  | O => next
  | S todo' =>
      let d := nth socIdx dp negInf in
      let next :=
        if fle d (fdiv negInf (fof_Z 2)) then next
        else
          let next := if flt (nth socIdx next negInf) d then list_set next socIdx d else next in
          let next :=
            if (socIdx <? steps)%nat then
              let gain := fopp (fmul price dt) in
              if flt (nth (S socIdx) next negInf) (fadd d gain)
              then list_set next (S socIdx) (fadd d gain) else next
            else next in
          let next :=
            match socIdx with
            | O => next
            | S prev =>
                let gain := fmul price dt in
                if flt (nth prev next negInf) (fadd d gain)
                then list_set next prev (fadd d gain) else next
            end in
          next in
      canonical_states dp price dt steps (S socIdx) todo' next
  end.

Fixpoint canonical_loop (dt : F) (steps : nat) (dp : list F) (its : list (LMPInterval F))
  : list F :=
  match its with
  | [] => dp
  | it :: rest =>
      let next := repeat negInf (S steps) in
      canonical_loop dt steps (canonical_states dp (LMP it) dt steps 0 (S steps) next) rest
  end.

Definition oracleProfitCanonical (intervals : list (LMPInterval F)) : F :=
  match intervals with
  | [] => fzero
  | it0 :: _ =>
      let dt := DurationHours it0 in
      if fle dt fzero then fzero
      else
        let stepSOC := dt in
        let steps := fround_Z (fdiv fone stepSOC) in
        let steps := if (steps <? 1)%Z then 1%Z else steps in
        let init := fround_Z (fmul (fdiv fone (fof_Z 2)) (fof_Z steps)) in
        let init := if (init <? 0)%Z then 0%Z else init in
        let init := if (steps <? init)%Z then steps else init in
        let n := Z.to_nat steps in
        let dp := list_set (repeat negInf (S n)) (Z.to_nat init) fzero in
        let dp := canonical_loop dt n dp intervals in
        let best := fold_left (fun b v => if flt b v then v else b) dp negInf in
        if fle best (fdiv negInf (fof_Z 2)) then fzero else best
  end.

(** [ArbitragePotential], restricted to the count, the mean, the percentile
    statistics and the oracle score ([MinLMP]/[MaxLMP] and the string and
    time tags are not modelled). *)
Record ArbitragePotential := mkPotential {
  Count : nat;
  MeanLMP : F;
  P05LMP : F;
  P95LMP : F;
  SpreadP95P05 : F;
  OracleProfit : F
}.

Definition ComputePotential (intervals : list (LMPInterval F)) : ArbitragePotential :=
  match intervals with
  | [] => mkPotential 0 fzero fzero fzero fzero fzero
  | _ =>
      let vals := map LMP intervals in
      let sum := fold_left fadd vals fzero in
      let sorted := sortFloat64s vals in
      let p05 := percentileSorted sorted (fdiv (fof_Z 5) (fof_Z 100)) in
      let p95 := percentileSorted sorted (fdiv (fof_Z 95) (fof_Z 100)) in
      mkPotential (length intervals) (fdiv sum (fof_Z (Z.of_nat (length vals))))
        p05 p95 (fsub p95 p05) (oracleProfitCanonical intervals)
  end.

End Rank.

Arguments ArbitragePotential : clear implicits.

(* ------------------------------------------------------------------ *)
(** ** package data: json.go, [GroupByLocation] *)

(** A Go [map[string]V] as an association list of distinct keys.  The
    iteration order of a Go map is unspecified: nothing below depends on
    the order of the list, only on lookups. *)
Fixpoint map_get {V : Type} (m : list (string * V)) (k : string) : option V :=
  match m with
  | [] => None
  | (k', v) :: rest => if String.eqb k' k then Some v else map_get rest k
  end.

(** [m[k] = v]. *)
Fixpoint map_put {V : Type} (m : list (string * V)) (k : string) (v : V)
  : list (string * V) :=
  match m with
  | [] => [(k, v)]
  | (k', v') :: rest =>
      if String.eqb k' k then (k, v) :: rest else (k', v') :: map_put rest k v
  end.

(** [m[k]] on a map of slices: a missing key reads as the nil slice. *)
Definition map_index {V : Type} (m : list (string * list V)) (k : string) : list V :=
  match map_get m k with Some l => l | None => [] end.

Section GroupByLocation.
Context {F : Type}.
(** [it.Location]: a field of [model.LMPInterval] that the restricted
    record does not carry. *)
Variable Location : LMPInterval F -> string.

(** [GroupByLocation]: [None] is a nil [*GridStatusLMPResponse], [Some data]
    one whose [Data] is [data]. *)
Definition GroupByLocation (resp : option (list (LMPInterval F)))
  : list (string * list (LMPInterval F)) :=
  match resp with
  | None => []
  | Some data =>
      fold_left (fun out it =>
                   map_put out (Location it) (map_index out (Location it) ++ [it]))
                data []
  end.

End GroupByLocation.

(* ------------------------------------------------------------------ *)
(** ** schedule.go: [parseHHMM] and the lazy initialisation of [Decide] *)

(** [strings.Split(s, ":")] on the bytes of [s]. *)
Fixpoint splitColon (s : string) : list string :=
  match s with
  | EmptyString => [EmptyString]
  | String c rest =>
      let parts := splitColon rest in
      if Ascii.eqb c ":"%char then EmptyString :: parts
      else match parts with
           | part :: others => String c part :: others
           | [] => [String c EmptyString]
           end
  end.

Section ParseHHMM.
(** The library calls [strings.TrimSpace] and [fmt.Sscanf(x, "%d", &v)]
    (the scanned [int] when the returned error is nil, [None] otherwise). *)
Variable TrimSpace : string -> string.
Variable SscanfInt : string -> option Z.

(** [parseHHMM]; the error messages omit the quoted input. *)
Definition parseHHMM (s : string) : string + Z :=
  let s := TrimSpace s in
  match splitColon s with
  | [part0; part1] =>
      match SscanfInt part0 with
      | None => inl "invalid hour"%string
      | Some h =>
          match SscanfInt part1 with
          | None => inl "invalid minute"%string
          | Some m =>
              if (h <? 0)%Z || (23 <? h)%Z || (m <? 0)%Z || (59 <? m)%Z
              then inl "invalid time"%string
              else inr (h * 60 + m)%Z
          end
      end
  | _ => inl "invalid time, expected HH:MM"%string
  end.

(** The first call of [ScheduleStrategy.Decide]: the four clock strings are
    parsed (a [panic] is an [inl]); an end that is blank after
    [strings.TrimSpace] keeps its default [dsMins], which [ScheduleDecide]
    reads from [None]. *)
Definition ScheduleInit {F : Type} (chargeStart chargeEnd dischargeStart dischargeEnd : string)
    (chargePowerMW dischargePowerMW : F) : string + ScheduleParams F :=
  match parseHHMM chargeStart with
  | inl err => inl err
  | inr cs =>
      match parseHHMM dischargeStart with
      | inl err => inl err
      | inr ds =>
          let ce := if String.eqb (TrimSpace chargeEnd) EmptyString then inr None
                    else match parseHHMM chargeEnd with
                         | inl err => inl err
                         | inr e => inr (Some e)
                         end in
          match ce with
          | inl err => inl err
          | inr ce =>
              let de := if String.eqb (TrimSpace dischargeEnd) EmptyString then inr None
                        else match parseHHMM dischargeEnd with
                             | inl err => inl err
                             | inr e => inr (Some e)
                             end in
              match de with
              | inl err => inl err
              | inr de => inr (mkSchedule cs ce ds de chargePowerMW dischargePowerMW)
              end
          end
      end
  end.

End ParseHHMM.

(* ------------------------------------------------------------------ *)
(** ** Concrete scenarios *)

Open Scope float_scope.

(** A 100 MWh / 2 MW battery at SOC 0.3, asked to discharge 2 MW for one
    hour at 10 $/MWh. *)
Definition f64_params_100 : BatteryParams float := mkParams 100 2 1 1 0 1 0.
Definition f64_battery_100 : Battery float := mkBattery f64_params_100 (mkState 0.3).

(** A 3 MWh / 1 MW battery with [MinSOC = 0.1], [MaxSOC = 0.7], at SOC 0.3,
    asked to discharge 1 MW for one hour. *)
Definition f64_params_3 : BatteryParams float := mkParams 3 1 1 1 0.1 0.7 0.
Definition f64_battery_3 : Battery float := mkBattery f64_params_3 (mkState 0.3).

(** A 1e8 MWh / 1e8 MW battery at SOC 0.2, asked to discharge 1 MW for one
    hour. *)
Definition f64_params_big : BatteryParams float := mkParams 1e8 1e8 1 1 0 1 0.
Definition f64_battery_big : Battery float := mkBattery f64_params_big (mkState 0.2).

Definition f64_midnight : LocalTime := mkLocalTime 2024 1 1 0 0 0.

(** One one-hour interval at 10 $/MWh, and a strategy whose [Decide]
    returns [math.NaN()]. *)
Definition f64_one_interval : list (LMPInterval float) :=
  [mkInterval f64_midnight 1 10].
Definition nan_strategy : Strategy float := mkStrategy (fun _ => mkDispatch nan).
(** A strategy whose [Decide] returns [math.Inf(1)]. *)
Definition inf_strategy : Strategy float := mkStrategy (fun _ => mkDispatch infinity).

(** Four one-hour intervals at 10 $/MWh, and a strategy that returns NaN,
    +Inf, -Inf and then 1 MW. *)
Definition f64_four_hours : list (LMPInterval float) :=
  [mkInterval f64_midnight 1 10; mkInterval f64_midnight 1 10;
   mkInterval f64_midnight 1 10; mkInterval f64_midnight 1 10].
Definition mixed_strategy : Strategy float :=
  mkStrategy (fun ctx => mkDispatch (match Index ctx with
                                     | O => nan
                                     | 1%nat => infinity
                                     | 2%nat => neg_infinity
                                     | _ => 1
                                     end)).

(** Two one-hour intervals with LMPs 0 and 1, and the same with every LMP
    raised by 0.1. *)
Definition f64_zero_one : list (LMPInterval float) :=
  [mkInterval f64_midnight 1 0; mkInterval f64_midnight 1 1].
Definition f64_zero_one_shifted : list (LMPInterval float) :=
  [mkInterval f64_midnight 1 (0 + 0.1); mkInterval f64_midnight 1 (1 + 0.1)].

Close Scope float_scope.

(** A 1 MWh / 1 MW lossless battery starting empty, and two one-hour
    intervals on 2024-01-01 at 10 and 100 $/MWh. *)
Definition q_params_1 : BatteryParams Q := mkParams 1 1 1 1 0 1 0.
Definition q_battery_1 : Battery Q := mkBattery q_params_1 (mkState 0).
Definition q_hour (h : Z) : LocalTime := mkLocalTime 2024 1 1 h 0 0.
Definition q_two_prices : list (LMPInterval Q) :=
  [mkInterval (q_hour 0) 1 10; mkInterval (q_hour 1) 1 100].
(** One one-hour interval at 10 $/MWh, and the same at 0 $/MWh. *)
Definition q_one_hour_10 : list (LMPInterval Q) := [mkInterval (q_hour 0) 1 10].
Definition q_one_hour_0 : list (LMPInterval Q) := [mkInterval (q_hour 0) 1 0].
(** Charge 00:00-01:00, discharge 01:00-02:00, 1 MW each. *)
Definition q_schedule : ScheduleParams Q := mkSchedule 0 (Some 60%Z) 60 (Some 120%Z) 1 1.
(** [NewOracleStrategy] with the default grid (zero [OracleParams]). *)
Definition q_oracle_plan : string + list (Dispatch Q) :=
  NewOracleStrategy q_two_prices q_params_1 0 (mkOracleParams 0 0).

(* ------------------------------------------------------------------ *)
(** ** Predicates used in the statements *)

(** The day of a group of intervals (that of its first interval). *)
Definition group_day {F} (g : list (LMPInterval F)) : Z :=
  match g with [] => 0%Z | it :: _ => intervalDay it end.

(** A day group: non-empty, every interval on the group's day. *)
Definition day_group {F} (g : list (LMPInterval F)) : Prop :=
  g <> [] /\ Forall (fun it => intervalDay it = group_day g) g.

(** No two neighbours of the list are equal. *)
Fixpoint no_adjacent_dup (l : list Z) : Prop :=
  match l with
  | x :: ((y :: _) as rest) => x <> y /\ no_adjacent_dup rest
  | _ => True
  end.

(** One interval of [ApplyDispatch] on a valid battery with [dt > 0], in
    exact arithmetic: the call succeeds, only the SOC changes, the SOC stays
    in [[MinSOC, MaxSOC]], and the grid energies obey the charge or the
    discharge energy balance. *)
Definition step_ok (b : Battery Q) (b' : Battery Q) (res : IntervalResult Q) : Prop :=
  let p := Params b in
  Params b' = p /\ SOC (State b') = SOCEnd res /\ SOCStart res = SOC (State b) /\
  MinSOC p <= SOCEnd res <= MaxSOC p /\
  ((EnergyToGridMWh res = 0 /\ RealizedPowerMW res <= 0 /\
    (SOCEnd res - SOCStart res) * EnergyCapacityMWh p
      == EnergyFromGridMWh res * ChargeEfficiency p)
   \/
   (EnergyFromGridMWh res = 0 /\ 0 <= RealizedPowerMW res /\
    (SOCStart res - SOCEnd res) * EnergyCapacityMWh p
      == EnergyToGridMWh res / DischargeEfficiency p)).

(** A day group's plan: [optimizeDP] succeeds on it with a plan as long
    as the group. *)
Definition day_plan_ok {F} `{GoFloat F} `{GoRound F} (p : BatteryParams F)
    (initialSOC : F) (socSteps powerSteps : Z) (g : list (LMPInterval F))
    (pl : list (Dispatch F)) : Prop :=
  optimizeDP g p initialSOC socSteps powerSteps = inr pl /\ List.length pl = List.length g.

(** State of the grouping loop after the prefix [pre]: the closed groups
    [gs] with their plans [pls], and the open group [dI] of day [cd]. *)
Definition grouping_inv {F} `{GoFloat F} `{GoRound F} (p : BatteryParams F)
    (initialSOC : F) (socSteps powerSteps : Z) (pre dI : list (LMPInterval F))
    (fP : list (Dispatch F)) (cd : Z) : Prop :=
  (pre = [] /\ dI = [] /\ fP = []) \/
  (exists gs pls, pre = concat gs ++ dI /\ dI <> [] /\
     Forall (fun it => intervalDay it = cd) dI /\
     Forall2 (day_plan_ok p initialSOC socSteps powerSteps) gs pls /\ fP = concat pls /\
     Forall day_group gs /\ no_adjacent_dup (map group_day (gs ++ [dI]))).

(** Invariant of [run_loop]: every row's [CumPNL] is the left-to-right sum
    of the [PNL]s up to it, and the running sum is the sum of all rows. *)
Definition cum_ok {F} `{GoFloat F} (L : list (LedgerRow F)) (c : F) : Prop :=
  (forall i row, nth_error L i = Some row ->
     CumPNL row = fold_left fadd (map RowPNL (firstn (S i) L)) fzero) /\
  c = fold_left fadd (map RowPNL L) fzero /\
  (L = [] \/ exists rows row, L = rows ++ [row] /\ CumPNL row = c).

(** The result of the schedule run on [q_two_prices]. *)
Definition q_schedule_result : Result Q :=
  match Run q_two_prices q_battery_1 (ScheduleStrategy q_schedule) with
  | inr r => r
  | inl _ => mkRunResult [] 0 0
  end.

(** The ledger rows hand the SOC on: the first row starts at [s], every
    row starts where the previous one ended, and the last one ends at [s']. *)
Fixpoint soc_chain {F} (s : F) (rows : list (LedgerRow F)) (s' : F) : Prop :=
  match rows with
  | [] => s = s'
  | row :: rest => RowSOCStart row = s /\ soc_chain (RowSOCEnd row) rest s'
  end.

(** The number of minutes [t] of a day ([0 <= t < 1440]) inside the window
    [inWindow t start end_]. *)
Definition window_minutes (start end_ : Z) : nat :=
  List.length (filter (fun t => inWindow (Z.of_nat t) start end_) (seq 0 1440)).

(** Two concrete battery scenarios for the witnesses below. *)
Definition q_battery_half : Battery Q := mkBattery q_params_1 (mkState (1 # 2)).
Definition q_three_hours : list (LMPInterval Q) :=
  [mkInterval (q_hour 0) 1 10; mkInterval (q_hour 1) (1 # 2) (-5); mkInterval (q_hour 2) 2 100].

(** [q_three_hours] with every LMP raised by 7. *)
Definition q_three_hours_plus7 : list (LMPInterval Q) :=
  [mkInterval (q_hour 0) 1 (10 + 7); mkInterval (q_hour 1) (1 # 2) (-5 + 7);
   mkInterval (q_hour 2) 2 (100 + 7)].


(** A backpointer entry [(nextState, power)] of the planner whose power is
    within the power capacity of [p]. *)
Definition choice_in_range (p : BatteryParams Q) (c : Z * Q) : Prop :=
  Qabs (snd c) <= PowerCapacityMW p.

(** A fixed oracle plan for [q_three_hours]. *)
Definition q_three_plan : list (Dispatch Q) := [mkDispatch (-1); mkDispatch (-1); mkDispatch 1].

(** The interpolation branch of [percentileSorted], as a function of the
    position [pos]. *)
Definition interp_at (s : list Q) (pos : Q) : Q :=
  let lo := Qfloor pos in
  let hi := Qceiling pos in
  if (lo =? hi)%Z then nth (Z.to_nat lo) s 0
  else nth (Z.to_nat lo) s 0 * (1 - (pos - inject_Z lo)) + nth (Z.to_nat hi) s 0 * (pos - inject_Z lo).

(** A decimal scanner for [fmt.Sscanf(s, "%d", ...)] on unsigned inputs. *)
Fixpoint q_digits (s : string) (acc : Z) : option Z :=
  match s with
  | EmptyString => Some acc
  | String c r =>
      let n := (Z.of_nat (nat_of_ascii c) - 48)%Z in
      if (0 <=? n)%Z && (n <=? 9)%Z then q_digits r (acc * 10 + n)%Z else None
  end.

Definition q_scan (s : string) : option Z :=
  match s with EmptyString => None | _ => q_digits s 0 end.

(* ================================================================== *)
(** * Proofs *)

(** ** Boolean comparisons of the exact instance *)

Lemma Qltb_true (x y : Q) : Qltb x y = true <-> x < y.
Proof.
  unfold Qltb. rewrite negb_true_iff. split; intro Hc.
  - apply Qnot_le_lt. intro Hle. apply Qle_bool_iff in Hle. congruence.
  - destruct (Qle_bool y x) eqn:E; [|reflexivity].
    apply Qle_bool_iff in E. exfalso. apply (Qlt_not_le _ _ Hc E).
Qed.

Lemma Qltb_false (x y : Q) : Qltb x y = false <-> y <= x.
Proof.
  unfold Qltb. rewrite negb_false_iff. apply Qle_bool_iff.
Qed.

Lemma Qle_bool_false (x y : Q) : Qle_bool x y = false <-> y < x.
Proof.
  split; intro Hc.
  - apply Qnot_le_lt. intro Hle. apply Qle_bool_iff in Hle. congruence.
  - destruct (Qle_bool x y) eqn:E; [|reflexivity].
    apply Qle_bool_iff in E. exfalso. apply (Qlt_not_le _ _ Hc E).
Qed.

(** Turn every evaluated comparison in the context into an order fact. *)
Ltac qfacts :=
  repeat match goal with
  | Hc : Qltb _ _ = true |- _ => apply Qltb_true in Hc
  | Hc : Qltb _ _ = false |- _ => apply Qltb_false in Hc
  | Hc : Qle_bool _ _ = true |- _ => apply Qle_bool_iff in Hc
  | Hc : Qle_bool _ _ = false |- _ => apply Qle_bool_false in Hc
  | Hc : (_ || _)%bool = false |- _ => apply orb_false_elim in Hc; destruct Hc
  end.

(** Split on an innermost comparison the goal branches on. *)
Ltac qsplit :=
  match goal with
  | |- context [Qltb ?a ?b] =>
      lazymatch a with context [if _ then _ else _] => fail | _ =>
      lazymatch b with context [if _ then _ else _] => fail | _ =>
      let E := fresh "Ec" in destruct (Qltb a b) eqn:E end end
  | |- context [Qle_bool ?a ?b] =>
      lazymatch a with context [if _ then _ else _] => fail | _ =>
      lazymatch b with context [if _ then _ else _] => fail | _ =>
      let E := fresh "Ec" in destruct (Qle_bool a b) eqn:E end end
  end.

Ltac qunfold :=
  cbn [fzero fone fadd fsub fmul fdiv fopp fabs flt fle fmin fmax Q_GoFloat] in *.

(** ** Valid batteries *)

Definition valid_params (p : BatteryParams Q) : Prop :=
  0 < EnergyCapacityMWh p /\ 0 < PowerCapacityMW p /\
  0 < ChargeEfficiency p /\ ChargeEfficiency p <= 1 /\
  0 < DischargeEfficiency p /\ DischargeEfficiency p <= 1 /\
  0 <= MinSOC p /\ MinSOC p <= MaxSOC p /\ MaxSOC p <= 1 /\
  0 <= DegradationCostPerMWh p.

Lemma Validate_Q (b : Battery Q) :
  Validate b = None ->
  valid_params (Params b) /\
  MinSOC (Params b) <= SOC (State b) <= MaxSOC (Params b).
Proof.
  unfold Validate. qunfold.
  repeat (qsplit; [discriminate|]).
  repeat match goal with
         | |- context [if ?c then _ else _] =>
             let E := fresh "Ec" in destruct c eqn:E; [discriminate|]
         end.
  intros _. qfacts. unfold valid_params. repeat split; assumption.
Qed.

(** ** The exact physics of one interval *)

Section ExactPhysics.

Lemma clamp01_id (x : Q) : 0 <= x -> x <= 1 -> clamp01 x = x.
Proof.
  intros H0 H1. unfold clamp01. qunfold.
  repeat qsplit; qfacts; try reflexivity; lra.
Qed.

Lemma go_min_Q (x y : Q) : fmin x y <= x /\ fmin x y <= y /\ (fmin x y = x \/ fmin x y = y).
Proof. qunfold. qsplit; qfacts; repeat split; lra || auto. Qed.

Lemma go_max0_Q (x : Q) : 0 <= x -> fmax 0 x = x.
Proof. intros Hx. qunfold. qsplit; qfacts; [lra|reflexivity]. Qed.

Lemma div_mul_cancel (s c : Q) : 0 < c -> s / c * c == s.
Proof. intros Hc. field. lra. Qed.

Lemma maxCharge_bounds (b : Battery Q) (dt : Q) :
  valid_params (Params b) -> SOC (State b) <= MaxSOC (Params b) -> 0 < dt ->
  let mc := maxChargeEnergyFromGridMWh b dt in
  0 <= mc /\ mc * ChargeEfficiency (Params b)
               <= (MaxSOC (Params b) - SOC (State b)) * EnergyCapacityMWh (Params b)
  /\ mc <= PowerCapacityMW (Params b) * dt.
Proof.
  intros (HE & HP & Hc0 & Hc1 & _) Hs Hdt. cbv zeta.
  set (S := (MaxSOC (Params b) - SOC (State b)) * EnergyCapacityMWh (Params b)).
  assert (HS : 0 <= S) by (unfold S; apply Qmult_le_0_compat; lra).
  pose proof (div_mul_cancel S _ Hc0) as Hsc.
  assert (Hq : 0 <= S / ChargeEfficiency (Params b)) by (apply Qle_shift_div_l; lra).
  unfold maxChargeEnergyFromGridMWh. qunfold. fold S.
  repeat qsplit; qfacts; repeat split; try lra; nra.
Qed.

Lemma maxDischarge_bounds (b : Battery Q) (dt : Q) :
  valid_params (Params b) -> MinSOC (Params b) <= SOC (State b) -> 0 < dt ->
  let md := maxDischargeEnergyToGridMWh b dt in
  0 <= md /\ md <= (SOC (State b) - MinSOC (Params b)) * EnergyCapacityMWh (Params b)
                  * DischargeEfficiency (Params b)
  /\ md <= PowerCapacityMW (Params b) * dt.
Proof.
  intros (HE & HP & _ & _ & Hd0 & Hd1 & _) Hs Hdt. cbv zeta.
  set (W := (SOC (State b) - MinSOC (Params b)) * EnergyCapacityMWh (Params b)).
  assert (HW : 0 <= W) by (unfold W; apply Qmult_le_0_compat; lra).
  unfold maxDischargeEnergyToGridMWh. qunfold. fold W.
  repeat qsplit; qfacts; repeat split; try lra; nra.
Qed.

Lemma charge_soc (soc E ce req mn mx : Q) :
  0 < E -> 0 <= req -> 0 <= ce -> mn <= soc -> req * ce <= (mx - soc) * E ->
  mn <= (soc * E + req * ce) / E <= mx /\ ((soc * E + req * ce) / E - soc) * E == req * ce.
Proof.
  intros HE Hr Hc Hmn Hle.
  set (x := (soc * E + req * ce) / E).
  assert (Hx : x * E == soc * E + req * ce) by (unfold x; field; lra).
  assert (Hx2 : (x - soc) * E == req * ce) by (unfold x; field; lra).
  split; [|exact Hx2]. split; nra.
Qed.

Lemma discharge_soc (soc E de req mn mx : Q) :
  0 < E -> 0 <= req -> 0 < de -> soc <= mx -> req <= (soc - mn) * E * de ->
  mn <= (soc * E - req / de) / E <= mx /\ (soc - (soc * E - req / de) / E) * E == req / de.
Proof.
  intros HE Hr Hd Hmx Hle.
  set (x := (soc * E - req / de) / E).
  assert (Hx : x * E == soc * E - req / de) by (unfold x; field; lra).
  assert (Hx2 : (soc - x) * E == req / de) by (unfold x; field; lra).
  assert (Hq : 0 <= req / de) by (apply Qle_shift_div_l; lra).
  assert (Hq2 : req / de <= (soc - mn) * E).
  { apply Qle_shift_div_r; [lra | exact Hle]. }
  split; [|exact Hx2]. split; nra.
Qed.

End ExactPhysics.

Lemma ApplyDispatch_exact (b : Battery Q) (lmp : Q) (d : Dispatch Q) (dt : Q) :
  Validate b = None -> 0 < dt ->
  exists res, snd (ApplyDispatch b lmp d dt) = inr res /\
              step_ok b (fst (ApplyDispatch b lmp d dt)) res.
Proof.
  intros Hv Hdt. destruct (Validate_Q b Hv) as (Hp & Hmn & Hmx).
  pose proof Hp as (HE & HP & Hc0 & Hc1 & Hd0 & Hd1 & Hm0 & Hmm & Hm1 & Hdeg).
  pose proof (maxCharge_bounds b dt Hp Hmx Hdt) as (Hc_0 & Hc_soc & Hc_pow).
  pose proof (maxDischarge_bounds b dt Hp Hmn Hdt) as (Hd_0 & Hd_soc & Hd_pow).
  cbv zeta in *. unfold step_ok.
  unfold ApplyDispatch. qunfold.
  destruct (Qle_bool dt 0) eqn:Edt; qfacts; [lra|].
  set (pw := PowerMW (ClipDispatch b d)).
  set (mc := maxChargeEnergyFromGridMWh b dt) in *.
  set (md := maxDischargeEnergyToGridMWh b dt) in *.
  set (E := EnergyCapacityMWh (Params b)) in *.
  set (soc := SOC (State b)) in *.
  destruct (Qltb pw 0) eqn:Ech; qfacts.
  - (* charging *)
    assert (Hreq : 0 <= Qabs pw * dt) by (apply Qmult_le_0_compat; [apply Qabs_nonneg | lra]).
    destruct (Qltb mc (Qabs pw * dt)) eqn:Ecl; qfacts; cbv beta iota zeta.
    + destruct (charge_soc soc E (ChargeEfficiency (Params b)) mc (MinSOC (Params b))
                  (MaxSOC (Params b)) HE Hc_0 ltac:(lra) Hmn Hc_soc) as (Hb & Hbal).
      rewrite clamp01_id by lra.
      eexists; split; [reflexivity|].
      cbn [SOCEnd SOCStart RealizedPowerMW EnergyToGridMWh EnergyFromGridMWh Params State SOC fst snd setSOC].
      repeat split; try lra. left. repeat split; try assumption.
      apply Qle_shift_div_r; lra.
    + assert (Hr : Qabs pw * dt * ChargeEfficiency (Params b)
                   <= (MaxSOC (Params b) - soc) * E) by nra.
      destruct (charge_soc soc E (ChargeEfficiency (Params b)) (Qabs pw * dt) (MinSOC (Params b))
                  (MaxSOC (Params b)) HE Hreq ltac:(lra) Hmn Hr) as (Hb & Hbal).
      rewrite clamp01_id by lra.
      eexists; split; [reflexivity|].
      cbn [SOCEnd SOCStart RealizedPowerMW EnergyToGridMWh EnergyFromGridMWh Params State SOC fst snd setSOC].
      repeat split; try lra. left. repeat split; try assumption. lra.
  - destruct (Qltb 0 pw) eqn:Edis; qfacts.
    + (* discharging *)
      assert (Hreq : 0 <= pw * dt) by nra.
      destruct (Qltb md (pw * dt)) eqn:Ecl; qfacts; cbv beta iota zeta.
      * destruct (discharge_soc soc E (DischargeEfficiency (Params b)) md (MinSOC (Params b))
                    (MaxSOC (Params b)) HE Hd_0 Hd0 Hmx Hd_soc) as (Hb & Hbal).
        rewrite clamp01_id by lra.
        eexists; split; [reflexivity|].
        cbn [SOCEnd SOCStart RealizedPowerMW EnergyToGridMWh EnergyFromGridMWh Params State SOC fst snd setSOC].
      repeat split; try lra. right. repeat split; try assumption.
        apply Qle_shift_div_l; lra.
      * assert (Hr : pw * dt <= (soc - MinSOC (Params b)) * E * DischargeEfficiency (Params b))
          by lra.
        destruct (discharge_soc soc E (DischargeEfficiency (Params b)) (pw * dt)
                    (MinSOC (Params b)) (MaxSOC (Params b)) HE Hreq Hd0 Hmx Hr) as (Hb & Hbal).
        rewrite clamp01_id by lra.
        eexists; split; [reflexivity|].
        cbn [SOCEnd SOCStart RealizedPowerMW EnergyToGridMWh EnergyFromGridMWh Params State SOC fst snd setSOC].
      repeat split; try lra. right. repeat split; try assumption.
    + (* idle *)
      eexists; split; [reflexivity|].
      cbn [SOCEnd SOCStart RealizedPowerMW EnergyToGridMWh EnergyFromGridMWh Params State SOC fst snd setSOC].
      repeat split; try lra. left. repeat split; try lra.
Qed.

Lemma Qltb_compat (a a' c c' : Q) : a == a' -> c == c' -> Qltb a c = Qltb a' c'.
Proof.
  intros Ha Hc. destruct (Qltb a' c') eqn:E'; qfacts.
  - apply Qltb_true. rewrite Ha, Hc. exact E'.
  - apply Qltb_false. rewrite Ha, Hc. exact E'.
Qed.

Lemma sim_clamp_id (x mn mx : Q) : mn <= x -> x <= mx ->
  (if Qltb mx (if Qltb x mn then mn else x) then mx else if Qltb x mn then mn else x) = x.
Proof. intros. repeat qsplit; qfacts; try reflexivity; lra. Qed.

(** C1 (as amended).  In exact arithmetic, for every valid battery (which
    includes [MinSOC <= SOC <= MaxSOC]), every request, every LMP and every
    [dt > 0], the planner's step [simulateInterval] and [ApplyDispatch] agree:
    [ApplyDispatch] succeeds, and the next SOC, the realized power and the
    pnl of [simulateInterval] equal the result's [SOCEnd], the battery's new
    SOC, [PowerMW] and [PNL]. *)
Lemma simulateInterval_matches_ApplyDispatch_exact (b : Battery Q) (lmp : Q) (d : Dispatch Q) (dt : Q) :
  Validate b = None -> 0 < dt ->
  exists res, snd (ApplyDispatch b lmp d dt) = inr res /\
  let '(nsoc, rp, pnl) := simulateInterval (SOC (State b)) (PowerMW d) lmp dt (Params b) in
  nsoc == SOCEnd res /\ nsoc == SOC (State (fst (ApplyDispatch b lmp d dt))) /\
  rp == RealizedPowerMW res /\ pnl == PNL res.
Proof.
  intros Hv Hdt. destruct (Validate_Q b Hv) as (Hp & Hmn & Hmx).
  pose proof Hp as (HE & HP & Hc0 & Hc1 & Hd0 & Hd1 & Hm0 & Hmm & Hm1 & Hdeg).
  pose proof (maxCharge_bounds b dt Hp Hmx Hdt) as (Hc_0 & Hc_soc & Hc_pow).
  pose proof (maxDischarge_bounds b dt Hp Hmn Hdt) as (Hd_0 & Hd_soc & Hd_pow).
  cbv zeta in *.
  unfold ApplyDispatch, simulateInterval. qunfold.
  destruct (Qle_bool dt 0) eqn:Edt; qfacts; [lra|].
  rewrite (proj2 (Qltb_true 0 dt) Hdt).
  cbv zeta.
  set (pw := PowerMW (ClipDispatch b d)).
  change (if Qltb (if Qltb (PowerCapacityMW (Params b)) (PowerMW d) then PowerCapacityMW (Params b)
                   else PowerMW d) (- PowerCapacityMW (Params b))
          then - PowerCapacityMW (Params b)
          else if Qltb (PowerCapacityMW (Params b)) (PowerMW d) then PowerCapacityMW (Params b)
               else PowerMW d) with pw.
  set (mc := maxChargeEnergyFromGridMWh b dt) in *.
  set (md := maxDischargeEnergyToGridMWh b dt) in *.
  set (E := EnergyCapacityMWh (Params b)) in *.
  set (soc := SOC (State b)) in *.
  destruct (Qltb pw 0) eqn:Ech; qfacts.
  - assert (HS : 0 <= (MaxSOC (Params b) - soc) * E) by (apply Qmult_le_0_compat; lra).
    pose proof (div_mul_cancel ((MaxSOC (Params b) - soc) * E) _ Hc0) as Hsc.
    set (mf := if Qltb ((if Qltb ((MaxSOC (Params b) - soc) * E) 0 then 0
                          else (MaxSOC (Params b) - soc) * E) / ChargeEfficiency (Params b))
                       (PowerCapacityMW (Params b) * dt)
               then (if Qltb ((MaxSOC (Params b) - soc) * E) 0 then 0
                     else (MaxSOC (Params b) - soc) * E) / ChargeEfficiency (Params b)
               else PowerCapacityMW (Params b) * dt).
    assert (Hmf : mf == mc).
    { unfold mf, mc, maxChargeEnergyFromGridMWh. qunfold. fold E soc.
      repeat qsplit; qfacts; nra. }
    rewrite andb_true_r, (Qltb_compat mf mc (Qabs pw * dt) (Qabs pw * dt) Hmf (Qeq_refl _)).
    assert (Hreq : 0 <= Qabs pw * dt) by (apply Qmult_le_0_compat; [apply Qabs_nonneg | lra]).
    destruct (Qltb mc (Qabs pw * dt)) eqn:Ecl; qfacts; cbv beta iota zeta;
      eexists; (split; [reflexivity|]);
      cbn [SOCEnd SOCStart RealizedPowerMW EnergyToGridMWh EnergyFromGridMWh PNL Params State
           SOC fst snd setSOC CalculateIntervalPnL]; qunfold.
    + destruct (charge_soc soc E (ChargeEfficiency (Params b)) mc (MinSOC (Params b))
                  (MaxSOC (Params b)) HE Hc_0 ltac:(lra) Hmn Hc_soc) as (Hb & _).
      assert (Hx : soc + mf * ChargeEfficiency (Params b) / E
                   == (soc * E + mc * ChargeEfficiency (Params b)) / E)
        by (rewrite Hmf; field; lra).
      rewrite sim_clamp_id by (rewrite Hx; lra).
      rewrite clamp01_id by lra. unfold CalculateIntervalPnL; cbn [Params setSOC]; qunfold.
      split; [exact Hx|]. split; [exact Hx|]. rewrite Hmf. split; reflexivity.
    + assert (Hr : Qabs pw * dt * ChargeEfficiency (Params b)
                   <= (MaxSOC (Params b) - soc) * E) by nra.
      destruct (charge_soc soc E (ChargeEfficiency (Params b)) (Qabs pw * dt) (MinSOC (Params b))
                  (MaxSOC (Params b)) HE Hreq ltac:(lra) Hmn Hr) as (Hb & _).
      assert (Hx : soc + Qabs pw * dt * ChargeEfficiency (Params b) / E
                   == (soc * E + Qabs pw * dt * ChargeEfficiency (Params b)) / E)
        by (field; lra).
      rewrite sim_clamp_id by (rewrite Hx; lra).
      rewrite clamp01_id by lra. unfold CalculateIntervalPnL; cbn [Params setSOC]; qunfold.
      split; [exact Hx|]. split; [exact Hx|]. split; reflexivity.
  - destruct (Qltb 0 pw) eqn:Edis; qfacts.
    + assert (HW : 0 <= (soc - MinSOC (Params b)) * E) by (apply Qmult_le_0_compat; lra).
      set (mf := if Qltb ((if Qltb ((soc - MinSOC (Params b)) * E) 0 then 0
                            else (soc - MinSOC (Params b)) * E) * DischargeEfficiency (Params b))
                         (PowerCapacityMW (Params b) * dt)
                 then (if Qltb ((soc - MinSOC (Params b)) * E) 0 then 0
                       else (soc - MinSOC (Params b)) * E) * DischargeEfficiency (Params b)
                 else PowerCapacityMW (Params b) * dt).
      assert (Hmf : mf == md).
      { unfold mf, md, maxDischargeEnergyToGridMWh. qunfold. fold E soc.
        repeat qsplit; qfacts; nra. }
      rewrite andb_true_r, (Qltb_compat mf md (pw * dt) (pw * dt) Hmf (Qeq_refl _)).
      assert (Hreq : 0 <= pw * dt) by nra.
      destruct (Qltb md (pw * dt)) eqn:Ecl; qfacts; cbv beta iota zeta;
        eexists; (split; [reflexivity|]);
        cbn [SOCEnd SOCStart RealizedPowerMW EnergyToGridMWh EnergyFromGridMWh PNL Params State
             SOC fst snd setSOC]; qunfold.
      * destruct (discharge_soc soc E (DischargeEfficiency (Params b)) md (MinSOC (Params b))
                    (MaxSOC (Params b)) HE Hd_0 Hd0 Hmx Hd_soc) as (Hb & _).
        assert (Hx : soc - mf / DischargeEfficiency (Params b) / E
                     == (soc * E - md / DischargeEfficiency (Params b)) / E)
          by (rewrite Hmf; field; lra).
        rewrite sim_clamp_id by (rewrite Hx; lra).
        rewrite clamp01_id by lra. unfold CalculateIntervalPnL; cbn [Params setSOC]; qunfold.
        split; [exact Hx|]. split; [exact Hx|]. rewrite Hmf. split; reflexivity.
      * assert (Hr : pw * dt <= (soc - MinSOC (Params b)) * E * DischargeEfficiency (Params b))
          by lra.
        destruct (discharge_soc soc E (DischargeEfficiency (Params b)) (pw * dt)
                    (MinSOC (Params b)) (MaxSOC (Params b)) HE Hreq Hd0 Hmx Hr) as (Hb & _).
        assert (Hx : soc - pw * dt / DischargeEfficiency (Params b) / E
                     == (soc * E - pw * dt / DischargeEfficiency (Params b)) / E)
          by (field; lra).
        rewrite sim_clamp_id by (rewrite Hx; lra).
        rewrite clamp01_id by lra. unfold CalculateIntervalPnL; cbn [Params setSOC]; qunfold.
        split; [exact Hx|]. split; [exact Hx|]. split; reflexivity.
    + cbv beta iota zeta. eexists; split; [reflexivity|].
      cbn [SOCEnd SOCStart RealizedPowerMW EnergyToGridMWh EnergyFromGridMWh PNL Params State
           SOC fst snd setSOC]; qunfold.
      rewrite sim_clamp_id by lra. unfold CalculateIntervalPnL; qunfold.
      repeat split; try reflexivity. lra.
Qed.


(** ** Concrete float64 evaluations *)

(** C1 (counterexample to the float64 reading).  On the valid battery
    [f64_battery_100] (SOC 0.3) with a 2 MW discharge request for one hour,
    [simulateInterval] computes the next SOC as [0.3 - 2/1/100], that is
    0.27999999999999997, while [ApplyDispatch] computes
    [clamp01((0.3*100 - 2/1)/100)], that is 0.28000000000000003: the two
    next SOCs are different float64 values. *)
Lemma simulateInterval_ApplyDispatch_float_differ :
  Validate f64_battery_100 = None /\
  fst (fst (simulateInterval 0.3%float 2%float 10%float 1%float f64_params_100))
    = 0.27999999999999997%float /\
  match snd (ApplyDispatch f64_battery_100 10%float (mkDispatch 2%float) 1%float) with
  | inr res => SOCEnd res = 0.28000000000000003%float /\
               PrimFloat.eqb (SOCEnd res)
                 (fst (fst (simulateInterval 0.3%float 2%float 10%float 1%float
                              f64_params_100))) = false
  | inl _ => False
  end.
Proof. vm_compute. repeat split; reflexivity. Qed.

(** C2 (failing input).  The battery [f64_battery_3] is valid
    ([MinSOC = 0.1 <= SOC = 0.3 <= MaxSOC = 0.7]); one [ApplyDispatch] step
    discharging 1 MW for one hour succeeds and leaves the SOC at
    0.09999999999999998, strictly below [MinSOC]: [ApplyDispatch] clamps the
    new SOC to [0, 1], not to [MinSOC, MaxSOC]. *)
Lemma ApplyDispatch_float_below_MinSOC :
  Validate f64_battery_3 = None /\
  (let '(b', r) := ApplyDispatch f64_battery_3 0%float (mkDispatch 1%float) 1%float in
   match r with
   | inr res => SOC (State b') = 0.09999999999999998%float /\
                PrimFloat.ltb (SOC (State b')) (MinSOC (Params b')) = true
   | inl _ => False
   end).
Proof. vm_compute. repeat split; reflexivity. Qed.

(** C3 (counterexample to the float64 tolerance).  On the valid battery
    [f64_battery_big] (1e8 MWh, SOC 0.2), one [ApplyDispatch] step discharging
    1 MW for one hour has positive realized power, and
    [|(SOCStart - SOCEnd) * EnergyCapacityMWh - EnergyToGridMWh / DischargeEfficiency|]
    is larger than 1e-9. *)
Lemma ApplyDispatch_float_balance_error :
  Validate f64_battery_big = None /\
  match snd (ApplyDispatch f64_battery_big 0%float (mkDispatch 1%float) 1%float) with
  | inr res =>
      PrimFloat.ltb 0%float (RealizedPowerMW res) = true /\
      PrimFloat.ltb 1e-9%float
        (PrimFloat.abs
           ((SOCStart res - SOCEnd res) * EnergyCapacityMWh f64_params_big
            - EnergyToGridMWh res / DischargeEfficiency f64_params_big)%float) = true
  | inl _ => False
  end.
Proof. vm_compute. repeat split; reflexivity. Qed.

(** C4 (counterexample).  With a strategy whose [Decide] returns NaN, [Run]
    on one interval with the valid battery [f64_battery_100] does not fail:
    it returns a result whose only ledger row has realized power 0 and pnl 0
    (the NaN request is neither [< 0] nor [> 0], so the step is idle).  With
    a strategy returning +Inf the run also succeeds: the request is clipped
    to the 2 MW power capacity. *)
Lemma Run_nan_strategy_succeeds :
  Validate f64_battery_100 = None /\
  match Run f64_one_interval f64_battery_100 nan_strategy with
  | inr r =>
      List.map (fun row => (RowPowerMW row, RowPNL row)) (Ledger r) = [(0%float, 0%float)] /\
      TotalPNL r = 0%float
  | inl _ => False
  end /\
  match Run f64_one_interval f64_battery_100 inf_strategy with
  | inr r => List.map RowPowerMW (Ledger r) = [2%float]
  | inl _ => False
  end.
Proof. vm_compute. repeat split; reflexivity. Qed.

(** ** The Oracle planner's plan length *)

Section PlanLength.
Context {F : Type} `{GoFloat F} `{GoRound F}.
Local Open Scope nat_scope.

Lemma reconstruct_length (choices : list (list (Z * F))) (cur : nat) :
  List.length (reconstruct choices cur) = List.length choices.
Proof.
  revert cur. induction choices as [|ct rest IH]; intros cur; [reflexivity|].
  cbn [reconstruct]. destruct (nth cur ct ((-1)%Z, fzero)) as (ns, pw).
  destruct (ns <? 0)%Z; cbn [List.length]; rewrite IH; reflexivity.
Qed.

Lemma intervals_loop_ok (p : BatteryParams F) (socSteps : Z) (acts : list F)
    (its : list (LMPInterval F)) :
  (forall it, In it its -> fle (DurationHours it) fzero = false) ->
  forall dp, exists dpf cts, intervals_loop p socSteps acts dp its = inr (dpf, cts) /\
                             List.length cts = List.length its.
Proof.
  induction its as [|it rest IH]; intros Hd dp.
  - exists dp, []. split; reflexivity.
  - cbn [intervals_loop]. rewrite (Hd it (or_introl eq_refl)).
    destruct (states_loop p socSteps dp acts (LMP it) (DurationHours it) 0
                (S (Z.to_nat socSteps)) (repeat negInf (S (Z.to_nat socSteps))))
      as (next, ct).
    destruct (IH (fun it' Hin => Hd it' (or_intror Hin)) next) as (dpf & cts & -> & Hlen).
    exists dpf, (ct :: cts). split; [reflexivity|cbn; rewrite Hlen; reflexivity].
Qed.

Lemma optimizeDP_ok (its : list (LMPInterval F)) (p : BatteryParams F) (initialSOC : F)
    (socSteps powerSteps : Z) :
  (forall it, In it its -> fle (DurationHours it) fzero = false) ->
  exists plan, optimizeDP its p initialSOC socSteps powerSteps = inr plan /\
               List.length plan = List.length its.
Proof.
  intros Hd. unfold optimizeDP.
  set (ss := if (socSteps <? 2)%Z then 2%Z else socSteps).
  set (dp0 := list_set (repeat negInf (S (Z.to_nat ss))) (socToIdx p ss initialSOC) fzero).
  destruct (intervals_loop_ok p ss (actionsOf p powerSteps) its Hd dp0)
    as (dpf & cts & Hl & Hlen).
  rewrite Hl. eexists. split; [reflexivity|]. rewrite reconstruct_length. exact Hlen.
Qed.

Lemma no_adjacent_dup_snoc (l : list Z) (a b : Z) :
  no_adjacent_dup (l ++ [a]) -> a <> b -> no_adjacent_dup (l ++ [a; b]).
Proof.
  induction l as [|x [|y t] IH]; cbn; intros Hl Hab.
  - tauto.
  - tauto.
  - destruct Hl as (Hxy & Hrest). split; [exact Hxy|]. exact (IH Hrest Hab).
Qed.

Lemma concat_length_Forall2 (gs : list (list (LMPInterval F))) (pls : list (list (Dispatch F)))
    (P : list (LMPInterval F) -> list (Dispatch F) -> Prop) :
  Forall2 (fun g pl => P g pl /\ List.length pl = List.length g) gs pls ->
  List.length (concat pls) = List.length (concat gs).
Proof.
  induction 1 as [|g pl gs pls (_ & Hl) _ IH]; [reflexivity|].
  cbn. rewrite !length_app, Hl, IH. reflexivity.
Qed.

Section Grouping.
Variables (p : BatteryParams F) (initialSOC : F) (socSteps powerSteps : Z).

Lemma group_day_snoc (dI : list (LMPInterval F)) (x : LMPInterval F) :
  dI <> [] -> group_day (dI ++ [x]) = group_day dI.
Proof. destruct dI; [congruence|reflexivity]. Qed.

Lemma byDay_loop_inv (its : list (LMPInterval F)) :
  forall pre dI fP cd,
  grouping_inv p initialSOC socSteps powerSteps pre dI fP cd ->
  (forall it, In it (pre ++ its) -> fle (DurationHours it) fzero = false) ->
  exists dI' fP' cd',
    byDay_loop p initialSOC socSteps powerSteps (List.length pre) its dI fP cd
      = inr (dI', fP', cd') /\
    grouping_inv p initialSOC socSteps powerSteps (pre ++ its) dI' fP' cd'.
Proof.
  induction its as [|x rest IH]; intros pre dI fP cd Hinv Hd.
  - exists dI, fP, cd. rewrite app_nil_r. split; [reflexivity|exact Hinv].
  - cbn [byDay_loop].
    replace (pre ++ x :: rest) with ((pre ++ [x]) ++ rest) in Hd |- *
      by (rewrite <- app_assoc; reflexivity).
    destruct Hinv as [(-> & -> & ->)|(gs & pls & Hpre & Hne & Hday & Hpl & HfP & Hgs & Hnad)].
    + (* first interval *)
      cbn [List.length Nat.ltb Nat.leb andb].
      apply (IH [x] [x] [] (intervalDay x)); [|exact Hd].
      right. exists [], []. split; [reflexivity|]. split; [discriminate|].
      split; [constructor; [reflexivity|constructor]|]. split; [constructor|].
      split; [reflexivity|]. split; [constructor|]. cbn. exact I.
    + assert (Hlen : (0 <? List.length pre) = true).
      { apply Nat.ltb_lt. rewrite Hpre, length_app. destruct dI; [congruence|cbn; lia]. }
      rewrite Hlen, andb_true_l.
      assert (HdI : forall it, In it dI -> fle (DurationHours it) fzero = false).
      { intros it Hin. apply Hd. apply in_or_app. left. apply in_or_app. left.
        rewrite Hpre. apply in_or_app. right. exact Hin. }
      assert (Hgd : group_day dI = cd).
      { destruct dI as [|y t]; [congruence|]. inversion Hday; assumption. }
      replace (S (List.length pre)) with (List.length (pre ++ [x]))
        by (rewrite length_app; cbn; lia).
      destruct (Z.eqb_spec (intervalDay x) cd) as [Heq|Hneq].
      * (* same day: extend the open group *)
        cbn [negb]. destruct dI as [|y t] eqn:EdI; [congruence|].
        rewrite <- EdI in *.
        apply IH; [|exact Hd].
        right. exists gs, pls. split; [rewrite Hpre, <- app_assoc; reflexivity|].
        split; [destruct dI; discriminate|].
        split; [apply Forall_app; split; [exact Hday|constructor; [exact Heq|constructor]]|].
        split; [exact Hpl|]. split; [exact HfP|]. split; [exact Hgs|].
        rewrite !map_app in *. cbn in *. rewrite group_day_snoc by congruence. exact Hnad.
      * (* new day: close the open group *)
        cbn [negb]. destruct (optimizeDP_ok dI p initialSOC socSteps powerSteps HdI)
          as (pl & Hopt & Hpll).
        rewrite Hopt.
        apply IH; [|exact Hd].
        right. exists (gs ++ [dI]), (pls ++ [pl]).
        split; [rewrite Hpre, concat_app; cbn; rewrite app_nil_r; reflexivity|].
        split; [discriminate|].
        split; [constructor; [reflexivity|constructor]|].
        split; [apply Forall2_app; [exact Hpl|constructor; [split; assumption|constructor]]|].
        split; [rewrite HfP, concat_app; cbn; rewrite app_nil_r; reflexivity|].
        split.
        { apply Forall_app. split; [exact Hgs|]. constructor; [|constructor].
          split; [exact Hne|]. rewrite Hgd. exact Hday. }
        rewrite <- app_assoc. cbn [app]. rewrite !map_app in *. cbn [map] in *.
        apply no_adjacent_dup_snoc; [exact Hnad|]. rewrite Hgd. cbn. congruence.
Qed.

End Grouping.

(** C5.  For every non-empty interval sequence whose durations are all
    positive (not [<= 0]) and every battery, [NewOracleStrategy] succeeds,
    and its plan has exactly one dispatch per interval: the input splits into
    consecutive groups, each non-empty and on one day, neighbouring groups on
    different days, and the plan is the concatenation, in input order, of the
    [optimizeDP] plans of the groups, each as long as its group. *)
Theorem NewOracleStrategy_plan_length (intervals : list (LMPInterval F))
    (params : BatteryParams F) (initialSOC : F) (cfg : OracleParams) :
  intervals <> [] ->
  (forall it, In it intervals -> fle (DurationHours it) fzero = false) ->
  let socSteps := if (SocSteps cfg <=? 0)%Z then 200%Z else SocSteps cfg in
  let powerSteps := if (PowerSteps cfg <=? 0)%Z then 10%Z else PowerSteps cfg in
  exists plan groups dayPlans,
    NewOracleStrategy intervals params initialSOC cfg = inr plan /\
    List.length plan = List.length intervals /\
    concat groups = intervals /\
    Forall day_group groups /\ no_adjacent_dup (map group_day groups) /\
    Forall2 (fun g pl => optimizeDP g params initialSOC socSteps powerSteps = inr pl /\
                         List.length pl = List.length g) groups dayPlans /\
    plan = concat dayPlans.
Proof.
  intros Hne Hd socSteps powerSteps.
  destruct (byDay_loop_inv params initialSOC socSteps powerSteps intervals [] [] [] 0%Z
              (or_introl (conj eq_refl (conj eq_refl eq_refl))) Hd)
    as (dI & fP & cd & Hloop & Hinv).
  cbn [app] in Hinv.
  destruct Hinv as [(Hnil & _)|(gs & pls & Hpre & HdIne & Hday & Hpl & HfP & Hgs & Hnad)];
    [congruence|].
  assert (HdI : forall it, In it dI -> fle (DurationHours it) fzero = false).
  { intros it Hin. apply Hd. rewrite Hpre. apply in_or_app. right. exact Hin. }
  destruct (optimizeDP_ok dI params initialSOC socSteps powerSteps HdI) as (pl & Hopt & Hpll).
  assert (Hall : Forall2 (day_plan_ok params initialSOC socSteps powerSteps)
                   (gs ++ [dI]) (pls ++ [pl])).
  { apply Forall2_app; [exact Hpl|constructor; [split; assumption|constructor]]. }
  assert (Hlen : List.length (concat (pls ++ [pl])) = List.length intervals).
  { rewrite (concat_length_Forall2 _ _ _ Hall), concat_app. cbn. rewrite app_nil_r, Hpre.
    reflexivity. }
  exists (concat (pls ++ [pl])), (gs ++ [dI]), (pls ++ [pl]).
  split.
  { unfold NewOracleStrategy. destruct intervals as [|it0 rest]; [congruence|].
    fold socSteps powerSteps. unfold optimizeDPByDay. cbn [List.length] in Hloop.
    rewrite Hloop. destruct dI as [|y t]; [congruence|]. rewrite Hopt, HfP.
    rewrite concat_app in Hlen |- *. cbn in Hlen |- *. rewrite app_nil_r in Hlen |- *.
    rewrite Hlen, Nat.eqb_refl. reflexivity. }
  split; [exact Hlen|].
  split; [rewrite concat_app; cbn; rewrite app_nil_r; symmetry; exact Hpre|].
  split.
  { apply Forall_app. split; [exact Hgs|]. constructor; [|constructor].
    split; [exact HdIne|]. destruct dI as [|y t]; [congruence|].
    pose proof (Forall_inv Hday) as Hy. cbn beta in Hy.
    unfold group_day. rewrite Hy. exact Hday. }
  split; [exact Hnad|]. split; [exact Hall|reflexivity].
Qed.

End PlanLength.

(** ** Ranking: shifted prices *)

Lemma negInf_facts : (negInf : Q) < -1 /\ fdiv (negInf : Q) (fof_Z 2) < -1.
Proof. split; vm_compute; reflexivity. Qed.

Lemma canon_step (a b q : Q) : a == q \/ a == negInf -> b == 0 -> 0 <= q ->
  exists a' b', canonical_states [a; b] q 1 1 0 2 (repeat negInf 2) = [a'; b'] /\
                a' == q /\ b' == 0.
Proof.
  intros Ha Hb Hq. destruct negInf_facts as (HN & HN2).
  cbn [canonical_states nth list_set repeat Nat.ltb Nat.leb].
  qunfold.
  set (N := (negInf : Q)) in *. set (N2 := fdiv N (fof_Z 2)) in *. qunfold.
  repeat qsplit; qfacts; cbn [nth list_set] in *.
  all: try (exfalso; lra).
  all: try (eexists _, _; split; [reflexivity|]; split; lra).
Qed.

Lemma canon_loop (q : Q) (its : list (LMPInterval Q)) :
  0 <= q -> Forall (fun it => LMP it = q) its ->
  forall a b, a == q \/ a == negInf -> b == 0 -> its <> [] \/ a == q ->
  exists a' b', canonical_loop 1 1 [a; b] its = [a'; b'] /\ a' == q /\ b' == 0.
Proof.
  intros Hq Hits. induction Hits as [|it its Hit _ IH]; intros a b Ha Hb Hne.
  - destruct Hne as [Hne|Haq]; [congruence|]. exists a, b. split; [reflexivity|split; assumption].
  - cbn [canonical_loop]. rewrite Hit.
    destruct (canon_step a b q Ha Hb Hq) as (a' & b' & -> & Ha' & Hb').
    apply IH; [left; exact Ha'|exact Hb'|right; exact Ha'].
Qed.

Lemma oracleProfitCanonical_dt1 (it0 : LMPInterval Q) (rest : list (LMPInterval Q)) :
  DurationHours it0 = 1 ->
  oracleProfitCanonical (it0 :: rest) =
  (let dp := canonical_loop 1 1 [negInf; 0] (it0 :: rest) in
   let best := fold_left (fun b v => if flt b v then v else b) dp negInf in
   if fle best (fdiv negInf (fof_Z 2)) then fzero else best).
Proof.
  intros Hd. unfold oracleProfitCanonical. rewrite Hd.
  reflexivity.
Qed.

Lemma oracleProfit_constant (q : Q) (times : list LocalTime) :
  0 <= q -> times <> [] ->
  oracleProfitCanonical (map (fun t => mkInterval t 1 q) times) == q.
Proof.
  intros Hq Hne. destruct times as [|t0 ts]; [congruence|].
  destruct negInf_facts as (HN & HN2).
  set (its := map (fun t => mkInterval t 1 q) (t0 :: ts)).
  assert (Hall : Forall (fun it => LMP it = q) its).
  { apply Forall_forall. intros it Hin. apply in_map_iff in Hin. destruct Hin as (t & <- & _).
    reflexivity. }
  destruct (canon_loop q its Hq Hall negInf 0 ltac:(right; reflexivity) ltac:(reflexivity)
              ltac:(left; discriminate)) as (a & b & Hl & Ha & Hb).
  unfold its. cbn [map]. rewrite oracleProfitCanonical_dt1 by reflexivity.
  change (mkInterval t0 1 q :: map (fun t => mkInterval t 1 q) ts) with its.
  cbv zeta. rewrite Hl. cbn [fold_left]. qunfold.
  set (N := (negInf : Q)) in *. set (N2 := fdiv N (fof_Z 2)) in *. qunfold.
  repeat qsplit; qfacts; lra.
Qed.

Lemma Qle_bool_shift (x y c : Q) : Qle_bool (x + c) (y + c) = Qle_bool x y.
Proof.
  destruct (Qle_bool x y) eqn:E.
  - apply Qle_bool_iff in E. apply Qle_bool_iff. lra.
  - apply Qle_bool_false in E. apply Qle_bool_false. lra.
Qed.

Lemma insert_sorted_shift (c x : Q) (l : list Q) :
  insert_sorted (x + c) (map (fun y => y + c) l) = map (fun y => y + c) (insert_sorted x l).
Proof.
  induction l as [|y t IH]; [reflexivity|].
  cbn [insert_sorted map]. qunfold. unfold Qltb. rewrite Qle_bool_shift.
  destruct (Qle_bool x y); cbn; [reflexivity|]. rewrite IH. reflexivity.
Qed.

Lemma sortFloat64s_shift (c : Q) (l : list Q) :
  sortFloat64s (map (fun y => y + c) l) = map (fun y => y + c) (sortFloat64s l).
Proof.
  induction l as [|x t IH]; [reflexivity|].
  cbn [sortFloat64s map]. rewrite IH. apply insert_sorted_shift.
Qed.

Lemma sortFloat64s_length (l : list Q) : List.length (sortFloat64s l) = List.length l.
Proof.
  assert (Hi : forall x (s : list Q), List.length (insert_sorted x s) = S (List.length s)).
  { intros x s. induction s as [|y t IH]; [reflexivity|]. cbn [insert_sorted].
    destruct (flt y x); cbn [List.length]; [rewrite IH|]; reflexivity. }
  induction l as [|x t IH]; [reflexivity|]. cbn [sortFloat64s]. rewrite Hi, IH. reflexivity.
Qed.

Lemma nth_map_shift (c : Q) (l : list Q) (i : nat) :
  (i < List.length l)%nat -> nth i (map (fun y => y + c) l) 0 = nth i l 0 + c.
Proof.
  intros Hi. rewrite nth_indep with (d' := 0 + c) by (rewrite length_map; exact Hi).
  apply (map_nth (fun y => y + c)).
Qed.

Lemma percentileSorted_shift (c q : Q) (s : list Q) :
  0 < q -> q < 1 -> s <> [] ->
  percentileSorted (map (fun y => y + c) s) q == percentileSorted s q + c.
Proof.
  intros Hq0 Hq1 Hne. destruct s as [|s0 t]; [congruence|].
  unfold percentileSorted. cbn [map].
  replace (List.length (s0 + c :: map (fun y => y + c) t)) with (List.length (s0 :: t))
    by (cbn; rewrite length_map; reflexivity).
  set (n := List.length (s0 :: t)).
  change (s0 + c :: map (fun y => y + c) t) with (map (fun y => y + c) (s0 :: t)).
  qunfold. cbn [ffloor_Z fceil_Z fof_Z Q_GoRound].
  rewrite (proj2 (Qle_bool_false q 0) Hq0), (proj2 (Qle_bool_false 1 q) Hq1).
  set (pos := q * inject_Z (Z.of_nat n - 1)).
  assert (Hn : (0 <= Z.of_nat n - 1)%Z) by (unfold n; cbn [List.length]; lia).
  assert (HN : 0 <= inject_Z (Z.of_nat n - 1)) by (change 0 with (inject_Z 0); rewrite <- Zle_Qle; exact Hn).
  assert (Hp0 : 0 <= pos) by (unfold pos; nra).
  assert (Hp1 : pos <= inject_Z (Z.of_nat n - 1)) by (unfold pos; nra).
  assert (Hlo : (0 <= Qfloor pos)%Z).
  { rewrite <- (Qfloor_Z 0). apply Qfloor_resp_le. exact Hp0. }
  assert (Hhi : (Qceiling pos <= Z.of_nat n - 1)%Z).
  { rewrite <- (Qceiling_Z (Z.of_nat n - 1)). apply Qceiling_resp_le. exact Hp1. }
  pose proof (Qle_floor_ceiling pos) as Hfc. rewrite <- Zle_Qle in Hfc.
  assert (Hlon : (Z.to_nat (Qfloor pos) < n)%nat) by lia.
  assert (Hhin : (Z.to_nat (Qceiling pos) < n)%nat) by lia.
  unfold n in Hlon, Hhin.
  destruct (Qfloor pos =? Qceiling pos)%Z.
  - rewrite nth_map_shift by exact Hlon. reflexivity.
  - rewrite !nth_map_shift by assumption. ring.
Qed.

Lemma sortFloat64s_nonempty (l : list Q) : l <> [] -> sortFloat64s l <> [].
Proof.
  intros Hl Hs. apply (f_equal (@List.length Q)) in Hs. rewrite sortFloat64s_length in Hs.
  destruct l; [congruence|discriminate].
Qed.

(** C8 (as amended).  In exact (rational) arithmetic, if every LMP of [A] is
    the corresponding LMP of [B]
    plus a constant [c], the two series have the same [SpreadP95P05].  The
    oracle profit is not shift-invariant: a constant series of one-hour
    intervals at a price [q >= 0] has [OracleProfit] equal to [q] (the
    canonical battery starts at SOC 0.5, snapped to the full state, and may
    end empty), so it is 0 only for [q = 0]. *)
Theorem ComputePotential_shift (A B : list (LMPInterval Q)) (c : Q) :
  map LMP A = map (fun x => x + c) (map LMP B) ->
  SpreadP95P05 (ComputePotential A) == SpreadP95P05 (ComputePotential B) /\
  (forall (q : Q) (times : list LocalTime), 0 <= q -> times <> [] ->
     OracleProfit (ComputePotential (map (fun t => mkInterval t 1 q) times)) == q).
Proof.
  intros Hm. split.
  - destruct A as [|a A'], B as [|b B']; try discriminate Hm; [reflexivity|].
    unfold ComputePotential. cbv beta iota zeta. cbn [SpreadP95P05].
    rewrite Hm, sortFloat64s_shift. qunfold. cbn [fof_Z Q_GoRound].
    assert (Hne : sortFloat64s (map LMP (b :: B')) <> [])
      by (apply sortFloat64s_nonempty; discriminate).
    rewrite !percentileSorted_shift by (exact Hne || reflexivity).
    ring.
  - intros q times Hq Hne. destruct times as [|t0 ts]; [congruence|].
    unfold ComputePotential. cbv beta iota zeta. cbn [OracleProfit].
    apply oracleProfit_constant; [exact Hq|discriminate].
Qed.

Lemma ComputePotential_shift_witness :
  map LMP q_three_hours_plus7 = map (fun x => x + 7) (map LMP q_three_hours) /\
  SpreadP95P05 (ComputePotential q_three_hours_plus7) == SpreadP95P05 (ComputePotential q_three_hours) /\
  (forall (q : Q) (times : list LocalTime), 0 <= q -> times <> [] ->
     OracleProfit (ComputePotential (map (fun t => mkInterval t 1 q) times)) == q).
Proof.
  assert (Hm : map LMP q_three_hours_plus7 = map (fun x => x + 7) (map LMP q_three_hours))
    by reflexivity.
  split; [exact Hm|]. exact (ComputePotential_shift q_three_hours_plus7 q_three_hours 7 Hm).
Defined.

(** C8 (counterexample).  [q_one_hour_10] is [q_one_hour_0] with every LMP
    raised by 10, yet its oracle profit is 10 while that of [q_one_hour_0] is
    0 (their spreads are both 0).  And in float64 the spread itself is not
    shift-invariant: the LMPs [0, 1] have spread [0.8999999999999999], the
    same LMPs raised by 0.1 have spread [0.8999999999999998]. *)
Lemma ComputePotential_oracle_not_shift_invariant :
  (map LMP q_one_hour_10 = map (fun x => x + 10) (map LMP q_one_hour_0) /\
   OracleProfit (ComputePotential q_one_hour_10) == 10 /\
   OracleProfit (ComputePotential q_one_hour_0) == 0 /\
   SpreadP95P05 (ComputePotential q_one_hour_10) == 0 /\
   SpreadP95P05 (ComputePotential q_one_hour_0) == 0) /\
  (map LMP f64_zero_one_shifted = map (fun x => (x + 0.1)%float) (map LMP f64_zero_one) /\
   SpreadP95P05 (ComputePotential f64_zero_one) = 0.8999999999999999%float /\
   SpreadP95P05 (ComputePotential f64_zero_one_shifted) = 0.8999999999999998%float /\
   SpreadP95P05 (ComputePotential f64_zero_one)
     <> SpreadP95P05 (ComputePotential f64_zero_one_shifted)).
Proof.
  split.
  - vm_compute. repeat split; reflexivity.
  - split; [reflexivity|]. split; [vm_compute; reflexivity|].
    split; [vm_compute; reflexivity|].
    intros H. apply (f_equal FloatOps.Prim2SF) in H. vm_compute in H. discriminate H.
Qed.

(** ** Witnesses and exact-arithmetic consequences *)

Lemma simulateInterval_matches_ApplyDispatch_exact_witness :
  Validate q_battery_1 = None /\ 0 < 1 /\
  exists res, snd (ApplyDispatch q_battery_1 10 (mkDispatch (-1)) 1) = inr res /\
  let '(nsoc, rp, pnl) := simulateInterval (SOC (State q_battery_1)) (-1) 10 1 q_params_1 in
  nsoc == SOCEnd res /\ nsoc == SOC (State (fst (ApplyDispatch q_battery_1 10 (mkDispatch (-1)) 1))) /\
  rp == RealizedPowerMW res /\ pnl == PNL res.
Proof.
  split; [reflexivity|]. split; [reflexivity|].
  apply (simulateInterval_matches_ApplyDispatch_exact q_battery_1 10 (mkDispatch (-1)) 1);
    reflexivity.
Defined.

(** C3 (as amended).  In exact arithmetic, for every valid battery and every
    [dt > 0], [ApplyDispatch] succeeds; if the realized power is negative then
    [(SOCEnd - SOCStart) * EnergyCapacityMWh = EnergyFromGridMWh * ChargeEfficiency],
    and if it is positive then
    [(SOCStart - SOCEnd) * EnergyCapacityMWh = EnergyToGridMWh / DischargeEfficiency],
    exactly. *)
Theorem ApplyDispatch_energy_balance_exact (b : Battery Q) (lmp : Q) (d : Dispatch Q) (dt : Q) :
  Validate b = None -> 0 < dt ->
  exists res, snd (ApplyDispatch b lmp d dt) = inr res /\
    (RealizedPowerMW res < 0 ->
       (SOCEnd res - SOCStart res) * EnergyCapacityMWh (Params b)
         == EnergyFromGridMWh res * ChargeEfficiency (Params b)) /\
    (0 < RealizedPowerMW res ->
       (SOCStart res - SOCEnd res) * EnergyCapacityMWh (Params b)
         == EnergyToGridMWh res / DischargeEfficiency (Params b)).
Proof.
  intros Hv Hdt.
  destruct (ApplyDispatch_exact b lmp d dt Hv Hdt) as (res & Hres & Hok).
  exists res. split; [exact Hres|].
  destruct Hok as (_ & _ & _ & _ & [(_ & Hrp & Hbal) | (_ & Hrp & Hbal)]);
    split; intro Hs; try exact Hbal; exfalso; lra.
Qed.

Lemma ApplyDispatch_energy_balance_exact_witness :
  Validate q_battery_1 = None /\ 0 < 1 /\
  exists res, snd (ApplyDispatch q_battery_1 10 (mkDispatch (-1)) 1) = inr res /\
    (RealizedPowerMW res < 0 ->
       (SOCEnd res - SOCStart res) * EnergyCapacityMWh q_params_1
         == EnergyFromGridMWh res * ChargeEfficiency q_params_1) /\
    (0 < RealizedPowerMW res ->
       (SOCStart res - SOCEnd res) * EnergyCapacityMWh q_params_1
         == EnergyToGridMWh res / DischargeEfficiency q_params_1).
Proof.
  split; [reflexivity|]. split; [reflexivity|].
  apply (ApplyDispatch_energy_balance_exact q_battery_1 10 (mkDispatch (-1)) 1); reflexivity.
Defined.

(** ** Generic properties (any instance of the float64 interface) *)

Section Generic.
Context {F : Type} `{GoFloat F}.
Local Open Scope nat_scope.

(** C10.  For every battery, LMP and dispatch, [ApplyDispatch] with
    [durationHours <= 0] returns an error and the battery unchanged; hence
    [Engine.Run]'s loop, reaching an interval whose duration is [<= 0],
    stops with an error. *)
Theorem ApplyDispatch_nonpositive_duration (b : Battery F) (lmp : F) (d : Dispatch F) (dt : F) :
  fle dt fzero = true ->
  (exists err, ApplyDispatch b lmp d dt = (b, inl err)) /\
  (forall strat idx it rest cum ledger, DurationHours it = dt -> LMP it = lmp ->
     exists err, run_loop strat idx (it :: rest) b cum ledger = inl err).
Proof.
  intros Hle. assert (Hap : forall lmp' d', exists err, ApplyDispatch b lmp' d' dt = (b, inl err)).
  { intros lmp' d'. unfold ApplyDispatch. rewrite Hle. eexists; reflexivity. }
  split; [apply Hap|].
  intros strat idx it rest cum ledger Hdt Hlmp. cbn [run_loop]. rewrite Hdt.
  destruct (Hap (LMP it) (Decide strat (mkContext idx it b))) as (err & ->).
  eexists; reflexivity.
Qed.

(** C7.  The window test: empty when [start = end], [start <= t < end] when
    [start < end], [t >= start \/ t < end] when [start > end]; and the
    decision: [-|ChargePowerMW|] when the start minute is in the charge
    window (tested first), else [+|DischargePowerMW|] when it is in the
    discharge window, else 0.  The window ends are the parsed ones, an empty
    end defaulting to [DischargeStart]. *)
Theorem ScheduleDecide_windows (t start end_ : Z) (sp : ScheduleParams F) (ctx : Context F) :
  (start = end_ -> inWindow t start end_ = false) /\
  (start < end_ -> (inWindow t start end_ = true <-> start <= t < end_))%Z /\
  (end_ < start -> (inWindow t start end_ = true <-> start <= t \/ t < end_))%Z /\
  (let ds := DischargeStart sp in
   let ce := match ChargeEnd sp with Some e => e | None => ds end in
   let de := match DischargeEnd sp with Some e => e | None => ds end in
   let lt := IntervalStartLocal (Interval ctx) in
   let mins := (Hour lt * 60 + Minute lt)%Z in
   (inWindow mins (ChargeStart sp) ce = true ->
      PowerMW (ScheduleDecide sp ctx) = fopp (fabs (ChargePowerMW sp))) /\
   (inWindow mins (ChargeStart sp) ce = false -> inWindow mins ds de = true ->
      PowerMW (ScheduleDecide sp ctx) = fabs (DischargePowerMW sp)) /\
   (inWindow mins (ChargeStart sp) ce = false -> inWindow mins ds de = false ->
      PowerMW (ScheduleDecide sp ctx) = fzero)).
Proof.
  split; [|split; [|split]].
  - unfold inWindow. intros ->. rewrite Z.eqb_refl. reflexivity.
  - unfold inWindow. intros Hlt. rewrite (proj2 (Z.eqb_neq _ _)) by lia.
    rewrite (proj2 (Z.ltb_lt _ _) Hlt).
    rewrite andb_true_iff, Z.leb_le, Z.ltb_lt. tauto.
  - unfold inWindow. intros Hlt. rewrite (proj2 (Z.eqb_neq _ _)) by lia.
    rewrite (proj2 (Z.ltb_ge start end_)) by lia.
    rewrite orb_true_iff, Z.leb_le, Z.ltb_lt. tauto.
  - cbv zeta. unfold ScheduleDecide. cbv zeta.
    split; [|split]; intros Hc; [|intros Hd ..]; rewrite Hc; try rewrite Hd; reflexivity.
Qed.

Lemma cum_ok_snoc (L : list (LedgerRow F)) (c : F) (row : LedgerRow F) :
  cum_ok L c -> CumPNL row = fadd c (RowPNL row) -> cum_ok (L ++ [row]) (fadd c (RowPNL row)).
Proof.
  intros (Hrows & Hc & _) Hrow.
  assert (Hsum : fold_left fadd (map RowPNL (L ++ [row])) fzero = fadd c (RowPNL row)).
  { rewrite map_app, fold_left_app, <- Hc. reflexivity. }
  split; [|split; [symmetry; exact Hsum|right; exists L, row; split; [reflexivity|exact Hrow]]].
  intros i r Hi. destruct (Nat.lt_ge_cases i (List.length L)) as [Hlt|Hge].
  - rewrite nth_error_app1 in Hi by exact Hlt.
    rewrite firstn_app. replace (S i - List.length L)%nat with 0%nat by lia.
    rewrite app_nil_r. exact (Hrows i r Hi).
  - rewrite nth_error_app2 in Hi by exact Hge.
    destruct (i - List.length L)%nat as [|k] eqn:Ek; [|destruct k; discriminate].
    injection Hi as <-.
    rewrite firstn_all2 by (rewrite length_app; cbn; lia).
    rewrite Hsum. exact Hrow.
Qed.

Lemma run_loop_cum (strat : Strategy F) (its : list (LMPInterval F)) :
  forall idx b cum L L' cum' b',
  run_loop strat idx its b cum L = inr (L', cum', b') -> cum_ok L cum ->
  cum_ok L' cum' /\ List.length L' = List.length L + List.length its.
Proof.
  induction its as [|it rest IH]; intros idx b cum L L' cum' b' Hrun Hok.
  - injection Hrun as <- <- <-. split; [exact Hok|cbn; lia].
  - cbn [run_loop] in Hrun.
    destruct (ApplyDispatch b (LMP it) (Decide strat (mkContext idx it b)) (DurationHours it))
      as [b1 [err|res]]; [discriminate|].
    destruct (IH _ _ _ _ _ _ _ Hrun) as (Hok' & Hlen).
    + apply cum_ok_snoc; [exact Hok|reflexivity].
    + split; [exact Hok'|]. rewrite Hlen, length_app. cbn. lia.
Qed.

(** C9.  For every successful [Engine.Run], the ledger has one row per
    interval, each row's [CumPNL] is the sum (left to right, from 0) of the
    [PNL]s of the rows up to and including it, and [TotalPNL] is the last
    row's [CumPNL]. *)
Theorem Run_CumPNL (intervals : list (LMPInterval F)) (batt : Battery F) (strat : Strategy F)
    (r : Result F) :
  Run intervals batt strat = inr r ->
  List.length (Ledger r) = List.length intervals /\
  (forall i row, nth_error (Ledger r) i = Some row ->
     CumPNL row = fold_left fadd (map RowPNL (firstn (S i) (Ledger r))) fzero) /\
  exists rows row, Ledger r = rows ++ [row] /\ TotalPNL r = CumPNL row.
Proof.
  unfold Run. intros Hrun. destruct intervals as [|it rest]; [discriminate|].
  destruct (run_loop strat 0 (it :: rest) batt fzero []) as [err|((L, c), b)] eqn:Hl;
    [discriminate|].
  injection Hrun as <-. cbn [Ledger TotalPNL].
  destruct (run_loop_cum strat (it :: rest) 0 batt fzero [] L c b Hl) as
    ((Hrows & _ & Hlast) & Hlen).
  { split; [intros [|i] row Hi; discriminate|split; [reflexivity|left; reflexivity]]. }
  split; [exact Hlen|]. split; [exact Hrows|].
  destruct Hlast as [->|(rows & row & -> & Hc)]; [discriminate|].
  exists rows, row. split; [reflexivity|symmetry; exact Hc].
Qed.

(** A request that compares neither below nor above 0, nor beyond the power
    limits (in float64: NaN), is applied as an idle step. *)
Lemma ApplyDispatch_incomparable (b : Battery F) (lmp : F) (d : Dispatch F) (dt : F) :
  fle dt fzero = false ->
  flt (PowerCapacityMW (Params b)) (PowerMW d) = false ->
  flt (PowerMW d) (fopp (PowerCapacityMW (Params b))) = false ->
  flt (PowerMW d) fzero = false -> flt fzero (PowerMW d) = false ->
  ApplyDispatch b lmp d dt =
  (b, inr (mkResult fzero fzero fzero fzero (SOC (State b)) (SOC (State b))
             (CalculateIntervalPnL b lmp fzero fzero))).
Proof.
  intros Hdt Hhi Hlo Hn Hp. unfold ApplyDispatch, ClipDispatch. cbn [PowerMW].
  rewrite Hdt, Hhi, Hlo, Hn, Hp. reflexivity.
Qed.

End Generic.

Lemma ApplyDispatch_nonpositive_duration_witness :
  Qle_bool 0 0 = true /\
  (exists err, ApplyDispatch q_battery_1 10 (mkDispatch (-1)) 0 = (q_battery_1, inl err)) /\
  (forall strat idx it rest cum ledger, DurationHours it = 0 -> LMP it = 10 ->
     exists err, run_loop strat idx (it :: rest) q_battery_1 cum ledger = inl err).
Proof.
  split; [reflexivity|].
  apply (ApplyDispatch_nonpositive_duration q_battery_1 10 (mkDispatch (-1)) 0); reflexivity.
Defined.

Lemma Run_CumPNL_witness :
  Run q_two_prices q_battery_1 (ScheduleStrategy q_schedule) = inr q_schedule_result /\
  List.length (Ledger q_schedule_result) = List.length q_two_prices /\
  (forall i row, nth_error (Ledger q_schedule_result) i = Some row ->
     CumPNL row = fold_left fadd (map RowPNL (firstn (S i) (Ledger q_schedule_result))) fzero) /\
  exists rows row, Ledger q_schedule_result = rows ++ [row] /\
                   TotalPNL q_schedule_result = CumPNL row.
Proof.
  split; [vm_compute; reflexivity|].
  apply (Run_CumPNL q_two_prices q_battery_1 (ScheduleStrategy q_schedule)).
  vm_compute. reflexivity.
Defined.

(** ** The Oracle planner on a two-price day *)

(** C6 (failing input).  Both intervals of [q_two_prices] lie on the same
    calendar day and the prices differ (10 then 100 $/MWh); the battery
    [q_battery_1] is valid.  The Oracle plan (default grid, 200 SOC steps and
    10 power steps) is to stay idle in both intervals and earns 0, while the
    schedule that charges 1 MW in the first hour and discharges 1 MW in the
    second earns 90: the Oracle's total pnl is below the schedule's.  The
    planner keeps, for each state, only the action with the best immediate
    value [dp[s] + pnl], so the charge that pays off one interval later is
    never chosen. *)
Lemma Oracle_below_Schedule_two_prices :
  Validate q_battery_1 = None /\
  List.map intervalDay q_two_prices = [intervalDay (mkInterval (q_hour 0) 1 10);
                                       intervalDay (mkInterval (q_hour 0) 1 10)] /\
  match q_oracle_plan with
  | inr plan =>
      List.map PowerMW plan = [0; 0] /\
      match Run q_two_prices q_battery_1 (OracleStrategyOf plan),
            Run q_two_prices q_battery_1 (ScheduleStrategy q_schedule) with
      | inr ro, inr rs => TotalPNL ro == 0 /\ TotalPNL rs == 90 /\ TotalPNL ro < TotalPNL rs
      | _, _ => False
      end
  | inl _ => False
  end.
Proof. vm_compute. repeat split; reflexivity. Qed.

Lemma NewOracleStrategy_plan_length_witness :
  q_two_prices <> [] /\
  (forall it, In it q_two_prices -> fle (DurationHours it) fzero = false) /\
  exists plan groups dayPlans,
    NewOracleStrategy q_two_prices q_params_1 0 (mkOracleParams 0 0) = inr plan /\
    List.length plan = List.length q_two_prices /\
    concat groups = q_two_prices /\
    Forall day_group groups /\ no_adjacent_dup (map group_day groups) /\
    Forall2 (fun g pl => optimizeDP g q_params_1 0 200 10 = inr pl /\
                         List.length pl = List.length g) groups dayPlans /\
    plan = concat dayPlans.
Proof.
  assert (Hd : forall it, In it q_two_prices -> fle (DurationHours it) fzero = false).
  { intros it [<-|[<-|[]]]; reflexivity. }
  split; [discriminate|]. split; [exact Hd|].
  apply (NewOracleStrategy_plan_length q_two_prices q_params_1 0 (mkOracleParams 0 0)).
  - discriminate.
  - exact Hd.
Defined.

(* ================================================================== *)
(** * Further properties of the code *)

(** ** Battery construction and one interval, in exact arithmetic *)

Lemma Validate_of_valid (b : Battery Q) :
  valid_params (Params b) -> MinSOC (Params b) <= SOC (State b) <= MaxSOC (Params b) ->
  Validate b = None.
Proof.
  intros (HE & HP & Hc0 & Hc1 & Hd0 & Hd1 & Hm0 & Hmm & Hm1 & Hdeg) (Hs0 & Hs1).
  unfold Validate. qunfold.
  repeat qsplit; qfacts; cbn [orb]; try reflexivity; exfalso; lra.
Qed.

(** [NewBattery] succeeds exactly on valid parameters with an initial SOC in
    [[MinSOC, MaxSOC]], and then returns a battery with these parameters and
    this SOC. *)
Theorem NewBattery_spec (params : BatteryParams Q) (s : Q) :
  (forall b, NewBattery params s = inr b -> b = mkBattery params (mkState s)) /\
  ((exists b, NewBattery params s = inr b) <->
   valid_params params /\ MinSOC params <= s <= MaxSOC params).
Proof.
  unfold NewBattery. destruct (Validate (mkBattery params (mkState s))) eqn:Ev.
  - split; [intros b Hb; discriminate|]. split; [intros (b & Hb); discriminate|].
    intros (Hp & Hs). rewrite (Validate_of_valid (mkBattery params (mkState s)) Hp Hs) in Ev.
    discriminate.
  - split; [intros b Hb; injection Hb as <-; reflexivity|].
    split; [intros _; exact (Validate_Q _ Ev)|intros _; eexists; reflexivity].
Qed.

Lemma clip_facts (b : Battery Q) (d : Dispatch Q) :
  0 <= PowerCapacityMW (Params b) ->
  let cap := PowerCapacityMW (Params b) in
  let x := PowerMW (ClipDispatch b d) in
  - cap <= x <= cap /\ Qabs x <= Qabs (PowerMW d) /\ 0 <= x * PowerMW d /\
  (- cap <= PowerMW d <= cap -> x = PowerMW d).
Proof.
  intros Hcap. cbv zeta. unfold ClipDispatch. cbn [PowerMW]. qunfold.
  set (P := PowerCapacityMW (Params b)) in *. set (y := PowerMW d).
  destruct (Qlt_le_dec y 0) as [Hy|Hy];
    [rewrite (Qabs_neg y) by lra|rewrite (Qabs_pos y) by lra];
    repeat qsplit; qfacts;
    repeat match goal with
           | |- context [Qabs ?a] =>
               first [rewrite (Qabs_pos a) by lra | rewrite (Qabs_neg a) by lra]
           end;
    (split; [lra|]); (split; [lra|]); (split; [nra|]);
    intros; first [reflexivity | exfalso; lra].
Qed.

(** In exact (rational) arithmetic, [ClipDispatch] on a battery with
    [PowerCapacityMW >= 0] returns a power
    in [[-PowerCapacityMW, PowerCapacityMW]], never larger in magnitude than
    the request and never of the opposite sign; a request already in range is
    returned unchanged, so clipping twice is clipping once. *)
Theorem ClipDispatch_bounds (b : Battery Q) (d : Dispatch Q) :
  0 <= PowerCapacityMW (Params b) ->
  let cap := PowerCapacityMW (Params b) in
  let x := PowerMW (ClipDispatch b d) in
  - cap <= x <= cap /\ Qabs x <= Qabs (PowerMW d) /\ 0 <= x * PowerMW d /\
  (- cap <= PowerMW d <= cap -> x = PowerMW d) /\
  ClipDispatch b (ClipDispatch b d) = ClipDispatch b d.
Proof.
  intros Hcap. pose proof (clip_facts b d Hcap) as (Hr & Ha & Hs & Hid). cbv zeta in *.
  split; [exact Hr|]. split; [exact Ha|]. split; [exact Hs|]. split; [exact Hid|].
  destruct (clip_facts b (ClipDispatch b d) Hcap) as (_ & _ & _ & Hid2).
  cbv zeta in Hid2.
  transitivity (mkDispatch (PowerMW (ClipDispatch b (ClipDispatch b d)))); [reflexivity|].
  rewrite (Hid2 Hr). destruct (ClipDispatch b d). reflexivity.
Qed.


Lemma ClipDispatch_bounds_witness :
  0 <= PowerCapacityMW (Params q_battery_1) /\
  (let cap := PowerCapacityMW (Params q_battery_1) in
   let x := PowerMW (ClipDispatch q_battery_1 (mkDispatch (-2))) in
   - cap <= x <= cap /\ Qabs x <= Qabs (PowerMW (mkDispatch (-2))) /\
   0 <= x * PowerMW (mkDispatch (-2)) /\
   (- cap <= PowerMW (mkDispatch (-2)) <= cap -> x = PowerMW (mkDispatch (-2))) /\
   ClipDispatch q_battery_1 (ClipDispatch q_battery_1 (mkDispatch (-2))) =
     ClipDispatch q_battery_1 (mkDispatch (-2))).
Proof.
  assert (Hc : 0 <= PowerCapacityMW (Params q_battery_1)) by (vm_compute; discriminate).
  split; [exact Hc|]. exact (ClipDispatch_bounds q_battery_1 (mkDispatch (-2)) Hc).
Defined.

Lemma neg_prod_sign (a y : Q) : a < 0 -> 0 <= a * y -> y <= 0.
Proof. intros. nra. Qed.

Lemma pos_prod_sign (a y : Q) : 0 < a -> 0 <= a * y -> 0 <= y.
Proof. intros. nra. Qed.

Lemma clip_rate (m c dt P : Q) :
  0 < dt -> 0 <= m -> m <= P * dt -> m < c * dt ->
  0 <= m / dt /\ m / dt <= P /\ m / dt < c /\ m / dt * dt == m.
Proof.
  intros Hdt Hm HmP Hmc. split; [apply Qle_shift_div_l; lra|].
  split; [apply Qle_shift_div_r; lra|]. split; [apply Qlt_shift_div_r; lra|].
  field. lra.
Qed.

Lemma ApplyDispatch_flows (b : Battery Q) (lmp : Q) (d : Dispatch Q) (dt : Q) :
  Validate b = None -> 0 < dt ->
  exists res, snd (ApplyDispatch b lmp d dt) = inr res /\
    let rp := RealizedPowerMW res in
    Qabs rp <= PowerCapacityMW (Params b) /\ Qabs rp <= Qabs (PowerMW d) /\
    0 <= rp * PowerMW d /\
    ((rp <= 0 /\ EnergyToGridMWh res = 0 /\ EnergyFromGridMWh res == - rp * dt) \/
     (0 <= rp /\ EnergyFromGridMWh res = 0 /\ EnergyToGridMWh res == rp * dt)) /\
    ThroughputMWh res == EnergyFromGridMWh res + EnergyToGridMWh res /\
    PNL res == (lmp * rp - DegradationCostPerMWh (Params b) * Qabs rp) * dt.
Proof.
  intros Hv Hdt. destruct (Validate_Q b Hv) as (Hp & Hmn & Hmx).
  pose proof Hp as (HE & HP & _ & _ & _ & _ & _ & _ & _ & _).
  pose proof (maxCharge_bounds b dt Hp Hmx Hdt) as (Hc_0 & _ & Hc_pow).
  pose proof (maxDischarge_bounds b dt Hp Hmn Hdt) as (Hd_0 & _ & Hd_pow).
  pose proof (clip_facts b d ltac:(lra)) as (Hcr & Hca & Hcs & _).
  cbv zeta in *. clear Hp Hmn Hmx Hv.
  unfold ApplyDispatch. qunfold.
  destruct (Qle_bool dt 0) eqn:Edt; qfacts; [lra|].
  set (pw := PowerMW (ClipDispatch b d)) in *.
  set (mc := maxChargeEnergyFromGridMWh b dt).
  change (maxChargeEnergyFromGridMWh b dt) with mc in Hc_0, Hc_pow.
  set (md := maxDischargeEnergyToGridMWh b dt).
  change (maxDischargeEnergyToGridMWh b dt) with md in Hd_0, Hd_pow.
  set (P := PowerCapacityMW (Params b)) in *.
  set (y := PowerMW d) in *.
  set (dg := DegradationCostPerMWh (Params b)).
  destruct (Qltb pw 0) eqn:Ech; qfacts.
  - (* charging *)
    pose proof (neg_prod_sign pw y Ech Hcs) as Hy.
    assert (Hapw : Qabs pw == - pw) by (apply Qabs_neg; lra).
    assert (Hay : Qabs y == - y) by (apply Qabs_neg; lra).
    rewrite Hapw, Hay in Hca.
    destruct (Qltb mc (Qabs pw * dt)) eqn:Ecl; qfacts; rewrite Hapw in Ecl; cbv beta iota zeta;
      eexists; (split; [reflexivity|]);
      cbn [SOCEnd SOCStart RealizedPowerMW EnergyToGridMWh EnergyFromGridMWh ThroughputMWh PNL
           Params State SOC fst snd setSOC]; qunfold;
      unfold CalculateIntervalPnL; cbn [Params setSOC]; qunfold; fold dg; rewrite Hay.
    + destruct (clip_rate mc (- pw) dt P Hdt Hc_0 Hc_pow Ecl) as (Hu0 & HuP & Hupw & Hud).
      assert (Hr : - mc / dt == - (mc / dt)) by (field; lra).
      set (u := mc / dt) in *. rewrite Hr, Qabs_opp, (Qabs_pos u Hu0).
      split; [exact HuP|]. split; [lra|].
      split; [setoid_replace (- u * y) with (u * - y) by ring; apply Qmult_le_0_compat; lra|].
      split; [left; split; [lra|]; split; [reflexivity|rewrite <- Hud; ring]|].
      split; [ring|]. rewrite <- Hud. ring.
    + split; [rewrite Hapw; lra|]. split; [rewrite Hapw; lra|]. split; [exact Hcs|].
      split; [left; split; [lra|]; split; [reflexivity|rewrite Hapw; ring]|].
      split; [ring|]. rewrite Hapw. ring.
  - destruct (Qltb 0 pw) eqn:Edis; qfacts.
    + (* discharging *)
      pose proof (pos_prod_sign pw y Edis Hcs) as Hy.
      assert (Hapw : Qabs pw == pw) by (apply Qabs_pos; lra).
      assert (Hay : Qabs y == y) by (apply Qabs_pos; lra).
      rewrite Hapw, Hay in Hca.
      destruct (Qltb md (pw * dt)) eqn:Ecl; qfacts; cbv beta iota zeta;
        eexists; (split; [reflexivity|]);
        cbn [SOCEnd SOCStart RealizedPowerMW EnergyToGridMWh EnergyFromGridMWh ThroughputMWh PNL
             Params State SOC fst snd setSOC]; qunfold;
        unfold CalculateIntervalPnL; cbn [Params setSOC]; qunfold; fold dg; rewrite Hay.
      * destruct (clip_rate md pw dt P Hdt Hd_0 Hd_pow Ecl) as (Hu0 & HuP & Hupw & Hud).
        set (u := md / dt) in *. rewrite (Qabs_pos u Hu0).
        split; [exact HuP|]. split; [lra|].
        split; [apply Qmult_le_0_compat; lra|].
        split; [right; split; [lra|]; split; [reflexivity|rewrite <- Hud; ring]|].
        split; [ring|]. rewrite <- Hud. ring.
      * split; [rewrite Hapw; lra|]. split; [rewrite Hapw; lra|]. split; [exact Hcs|].
        split; [right; split; [lra|]; split; [reflexivity|ring]|].
        split; [ring|]. rewrite Hapw. ring.
    + (* idle *)
      cbv beta iota zeta. eexists; split; [reflexivity|].
      cbn [SOCEnd SOCStart RealizedPowerMW EnergyToGridMWh EnergyFromGridMWh ThroughputMWh PNL
           Params State SOC fst snd setSOC]; qunfold.
      unfold CalculateIntervalPnL; qunfold.
      rewrite Qabs_pos by lra.
      split; [lra|]. split; [apply Qabs_nonneg|]. split; [lra|].
      split; [left; split; [lra|]; split; [reflexivity|ring]|].
      split; ring.
Qed.

(** In exact arithmetic, [ApplyDispatch] on a valid battery with [dt > 0]
    succeeds with a realized power no larger in magnitude than the power
    capacity or the request and never of the request's opposite sign; the
    grid energy is [|realized power| * dt], drawn from the grid when
    charging and delivered to it when discharging (the other side is 0), and
    the throughput is their sum. *)
Theorem ApplyDispatch_power_energy (b : Battery Q) (lmp : Q) (d : Dispatch Q) (dt : Q) :
  Validate b = None -> 0 < dt ->
  exists res, snd (ApplyDispatch b lmp d dt) = inr res /\
    let rp := RealizedPowerMW res in
    Qabs rp <= PowerCapacityMW (Params b) /\ Qabs rp <= Qabs (PowerMW d) /\
    0 <= rp * PowerMW d /\
    ((rp <= 0 /\ EnergyToGridMWh res = 0 /\ EnergyFromGridMWh res == - rp * dt) \/
     (0 <= rp /\ EnergyFromGridMWh res = 0 /\ EnergyToGridMWh res == rp * dt)) /\
    ThroughputMWh res == EnergyFromGridMWh res + EnergyToGridMWh res.
Proof.
  intros Hv Hdt. destruct (ApplyDispatch_flows b lmp d dt Hv Hdt) as (res & Hres & Hf).
  exists res. split; [exact Hres|]. cbv zeta in *. tauto.
Qed.

Lemma ApplyDispatch_power_energy_witness :
  Validate q_battery_1 = None /\ 0 < 1 /\
  exists res, snd (ApplyDispatch q_battery_1 10 (mkDispatch (-2)) 1) = inr res /\
    let rp := RealizedPowerMW res in
    Qabs rp <= PowerCapacityMW (Params q_battery_1) /\ Qabs rp <= Qabs (-2) /\
    0 <= rp * (-2) /\
    ((rp <= 0 /\ EnergyToGridMWh res = 0 /\ EnergyFromGridMWh res == - rp * 1) \/
     (0 <= rp /\ EnergyFromGridMWh res = 0 /\ EnergyToGridMWh res == rp * 1)) /\
    ThroughputMWh res == EnergyFromGridMWh res + EnergyToGridMWh res.
Proof.
  split; [reflexivity|]. split; [reflexivity|].
  apply (ApplyDispatch_power_energy q_battery_1 10 (mkDispatch (-2)) 1); reflexivity.
Defined.

(** In exact arithmetic, the pnl of a successful [ApplyDispatch] on a valid
    battery with [dt > 0] is [(lmp * p - DegradationCostPerMWh * |p|) * dt]
    for the realized power [p]. *)
Theorem ApplyDispatch_pnl (b : Battery Q) (lmp : Q) (d : Dispatch Q) (dt : Q) :
  Validate b = None -> 0 < dt ->
  exists res, snd (ApplyDispatch b lmp d dt) = inr res /\
    PNL res == (lmp * RealizedPowerMW res
                - DegradationCostPerMWh (Params b) * Qabs (RealizedPowerMW res)) * dt.
Proof.
  intros Hv Hdt. destruct (ApplyDispatch_flows b lmp d dt Hv Hdt) as (res & Hres & Hf).
  exists res. split; [exact Hres|]. cbv zeta in *. tauto.
Qed.

Lemma ApplyDispatch_pnl_witness :
  Validate q_battery_half = None /\ 0 < 1 # 2 /\
  exists res, snd (ApplyDispatch q_battery_half 40 (mkDispatch 1) (1 # 2)) = inr res /\
    PNL res == (40 * RealizedPowerMW res
                - DegradationCostPerMWh (Params q_battery_half) * Qabs (RealizedPowerMW res))
               * (1 # 2).
Proof.
  split; [reflexivity|]. split; [reflexivity|].
  apply (ApplyDispatch_pnl q_battery_half 40 (mkDispatch 1) (1 # 2)); reflexivity.
Defined.

(** ** The planner's step and SOC grid *)

Lemma clamp_bounds (x mn mx : Q) : mn <= mx ->
  let y := if Qltb mx (if Qltb x mn then mn else x) then mx else if Qltb x mn then mn else x in
  mn <= y <= mx.
Proof. intros Hm. cbv zeta. repeat qsplit; qfacts; lra. Qed.

Lemma min_facts (L M : Q) : 0 <= L -> 0 < M ->
  let m := if Qltb L M then L else M in 0 <= m /\ m <= M.
Proof. intros H1 H2. cbv zeta. qsplit; qfacts; lra. Qed.

Lemma simulateInterval_facts (soc desiredPower lmp dtH : Q) (p : BatteryParams Q) :
  valid_params p ->
  let '(nextSOC, power, _) := simulateInterval soc desiredPower lmp dtH p in
  MinSOC p <= nextSOC <= MaxSOC p /\ Qabs power <= PowerCapacityMW p /\
  Qabs power <= Qabs desiredPower /\ 0 <= power * desiredPower.
Proof.
  intros Hp. pose proof Hp as (HE & HP & Hc0 & Hc1 & Hd0 & Hd1 & Hm0 & Hmm & Hm1 & Hdeg).
  pose proof (clip_facts (mkBattery p (mkState soc)) (mkDispatch desiredPower) ltac:(cbn; lra))
    as (Hcr & Hca & Hcs & _).
  cbv zeta in Hcr, Hca, Hcs. cbn [Params PowerMW] in Hcr, Hca, Hcs.
  unfold simulateInterval. qunfold.
  change (if Qltb (if Qltb (PowerCapacityMW p) desiredPower then PowerCapacityMW p
                   else desiredPower) (- PowerCapacityMW p)
          then - PowerCapacityMW p
          else if Qltb (PowerCapacityMW p) desiredPower then PowerCapacityMW p
               else desiredPower)
    with (PowerMW (ClipDispatch (mkBattery p (mkState soc)) (mkDispatch desiredPower))).
  set (pw := PowerMW (ClipDispatch (mkBattery p (mkState soc)) (mkDispatch desiredPower))) in *.
  set (P := PowerCapacityMW p) in *. set (y := desiredPower) in *.
  destruct (Qltb pw 0) eqn:Ech; qfacts.
  - pose proof (neg_prod_sign pw y Ech Hcs) as Hy.
    assert (Hapw : Qabs pw == - pw) by (apply Qabs_neg; lra).
    assert (Hay : Qabs y == - y) by (apply Qabs_neg; lra).
    rewrite Hapw, Hay in Hca.
    set (S := (MaxSOC p - soc) * EnergyCapacityMWh p).
    set (S' := if Qltb S 0 then 0 else S).
    assert (HS' : 0 <= S') by (unfold S'; qsplit; qfacts; lra).
    assert (HL : 0 <= S' / ChargeEfficiency p) by (apply Qle_shift_div_l; lra).
    set (L := S' / ChargeEfficiency p) in *.
    destruct (Qltb (if Qltb L (P * dtH) then L else P * dtH) (Qabs pw * dtH) && Qltb 0 dtH)
      eqn:Ecl; cbv beta iota zeta; rewrite Hay.
    + apply andb_true_iff in Ecl. destruct Ecl as (Ecl & Edt). qfacts.
      destruct (min_facts L (P * dtH) HL ltac:(nra)) as (Hm0' & HmP).
      set (m := if Qltb L (P * dtH) then L else P * dtH) in *.
      rewrite Hapw in Ecl.
      destruct (clip_rate m (- pw) dtH P Edt Hm0' HmP Ecl) as (Hu0 & HuP & Hupw & _).
      assert (Hr : - m / dtH == - (m / dtH)) by (field; lra).
      split; [apply clamp_bounds; exact Hmm|].
      rewrite Hr, Qabs_opp, (Qabs_pos (m / dtH) Hu0).
      split; [exact HuP|]. split; [lra|].
      setoid_replace (- (m / dtH) * y) with (m / dtH * - y) by ring.
      apply Qmult_le_0_compat; lra.
    + split; [apply clamp_bounds; exact Hmm|].
      split; [rewrite Hapw; lra|]. split; [rewrite Hapw; lra|]. exact Hcs.
  - destruct (Qltb 0 pw) eqn:Edis; qfacts.
    + pose proof (pos_prod_sign pw y Edis Hcs) as Hy.
      assert (Hapw : Qabs pw == pw) by (apply Qabs_pos; lra).
      assert (Hay : Qabs y == y) by (apply Qabs_pos; lra).
      rewrite Hapw, Hay in Hca.
      set (W := (soc - MinSOC p) * EnergyCapacityMWh p).
      set (W' := if Qltb W 0 then 0 else W).
      assert (HW' : 0 <= W') by (unfold W'; qsplit; qfacts; lra).
      assert (HL : 0 <= W' * DischargeEfficiency p) by (apply Qmult_le_0_compat; lra).
      set (L := W' * DischargeEfficiency p) in *.
      destruct (Qltb (if Qltb L (P * dtH) then L else P * dtH) (pw * dtH) && Qltb 0 dtH)
        eqn:Ecl; cbv beta iota zeta; rewrite Hay.
      * apply andb_true_iff in Ecl. destruct Ecl as (Ecl & Edt). qfacts.
        destruct (min_facts L (P * dtH) HL ltac:(nra)) as (Hm0' & HmP).
        set (m := if Qltb L (P * dtH) then L else P * dtH) in *.
        destruct (clip_rate m pw dtH P Edt Hm0' HmP Ecl) as (Hu0 & HuP & Hupw & _).
        split; [apply clamp_bounds; exact Hmm|].
        rewrite (Qabs_pos (m / dtH) Hu0).
        split; [exact HuP|]. split; [lra|]. apply Qmult_le_0_compat; lra.
      * split; [apply clamp_bounds; exact Hmm|].
        split; [rewrite Hapw; lra|]. split; [rewrite Hapw; lra|]. exact Hcs.
    + cbv beta iota zeta.
      assert (Hpw : pw == 0) by lra.
      split; [apply clamp_bounds; exact Hmm|].
      rewrite Hpw. split; [cbn; lra|]. split; [apply Qabs_nonneg|]. lra.
Qed.

(** [simulateInterval] with valid battery parameters, from any SOC and for
    any request, LMP and [dtH], returns a next SOC in [[MinSOC, MaxSOC]] and
    a realized power no larger in magnitude than the power capacity or the
    request and never of the request's opposite sign. *)
Theorem simulateInterval_bounds (soc desiredPower lmp dtH : Q) (p : BatteryParams Q) :
  valid_params p ->
  let '(nextSOC, power, _) := simulateInterval soc desiredPower lmp dtH p in
  MinSOC p <= nextSOC <= MaxSOC p /\ Qabs power <= PowerCapacityMW p /\
  Qabs power <= Qabs desiredPower /\ 0 <= power * desiredPower.
Proof. exact (simulateInterval_facts soc desiredPower lmp dtH p). Qed.

Lemma simulateInterval_bounds_witness :
  valid_params q_params_1 /\
  (let '(nextSOC, power, _) := simulateInterval 2 (-3) 10 (1 # 2) q_params_1 in
   MinSOC q_params_1 <= nextSOC <= MaxSOC q_params_1 /\
   Qabs power <= PowerCapacityMW q_params_1 /\
   Qabs power <= Qabs (-3) /\ 0 <= power * (-3)).
Proof.
  assert (Hp : valid_params q_params_1) by (unfold valid_params; cbn; lra).
  split; [exact Hp|]. apply (simulateInterval_bounds 2 (-3) 10 (1 # 2) q_params_1 Hp).
Defined.

Lemma floor_half (z : Z) : Qfloor (inject_Z z + (1 # 2)) = z.
Proof.
  unfold Qfloor, inject_Z, Qplus. cbn [Qnum Qden].
  rewrite Z.mul_1_l. change (Z.pos (1 * 2)) with 2%Z.
  symmetry. apply (Z.div_unique _ _ _ 1); lia.
Qed.

Lemma Qround_away_Z (z : Z) : Qround_away (inject_Z z) = z.
Proof.
  unfold Qround_away. destruct (Qle_bool 0 (inject_Z z)) eqn:E.
  - apply floor_half.
  - assert (Hz : - inject_Z z + (1 # 2) == inject_Z (- z) + (1 # 2))
      by (rewrite inject_Z_opp; reflexivity).
    rewrite (Qfloor_comp _ _ Hz), floor_half. lia.
Qed.

Lemma Qround_away_comp (x y : Q) : x == y -> Qround_away x = Qround_away y.
Proof.
  intros Hxy. unfold Qround_away.
  destruct (Qle_bool 0 x) eqn:Ex, (Qle_bool 0 y) eqn:Ey; qfacts.
  - apply Qfloor_comp. rewrite Hxy. reflexivity.
  - exfalso. rewrite Hxy in Ex. lra.
  - exfalso. rewrite Hxy in Ex. lra.
  - f_equal. apply Qfloor_comp. rewrite Hxy. reflexivity.
Qed.

Lemma Qround_away_mono (x y : Q) : x <= y -> (Qround_away x <= Qround_away y)%Z.
Proof.
  intros Hxy. unfold Qround_away.
  destruct (Qle_bool 0 x) eqn:Ex, (Qle_bool 0 y) eqn:Ey; qfacts.
  - apply Qfloor_resp_le. lra.
  - exfalso. lra.
  - assert (H1 : (0 <= Qfloor (- x + (1 # 2)))%Z).
    { change 0%Z with (Qfloor (inject_Z 0 + (1 # 2))). apply Qfloor_resp_le.
      unfold inject_Z. lra. }
    assert (H2 : (0 <= Qfloor (y + (1 # 2)))%Z).
    { change 0%Z with (Qfloor (inject_Z 0 + (1 # 2))). apply Qfloor_resp_le.
      unfold inject_Z. lra. }
    lia.
  - assert (Qfloor (- y + (1 # 2)) <= Qfloor (- x + (1 # 2)))%Z
      by (apply Qfloor_resp_le; lra). lia.
Qed.

(** The planner's [socToIdx] never returns an index above [socSteps], for
    any SOC and any battery parameters: the DP arrays of [socSteps + 1]
    entries are never indexed out of range by a next state. *)
Theorem socToIdx_le_socSteps (p : BatteryParams Q) (socSteps : Z) (soc : Q) :
  (socToIdx p socSteps soc <= Z.to_nat socSteps)%nat.
Proof.
  unfold socToIdx. cbn [fle fdiv fsub fmul Q_GoFloat]. cbn [fround_Z fof_Z Q_GoRound].
  destruct (Qle_bool soc (MinSOC p)) eqn:E1; [lia|].
  destruct (Qle_bool (MaxSOC p) soc) eqn:E2; [lia|]. qfacts.
  set (f := (soc - MinSOC p) / (MaxSOC p - MinSOC p)).
  assert (Hf0 : 0 <= f) by (apply Qle_shift_div_l; lra).
  assert (Hf1 : f <= 1) by (apply Qle_shift_div_r; lra).
  destruct (Z_le_gt_dec 0 socSteps) as [Hs|Hs].
  - assert (Hle : f * inject_Z socSteps <= inject_Z socSteps).
    { assert (0 <= inject_Z socSteps) by (change 0 with (inject_Z 0); rewrite <- Zle_Qle; exact Hs).
      nra. }
    pose proof (Qround_away_mono _ _ Hle) as Hm. rewrite Qround_away_Z in Hm. lia.
  - assert (Hle : f * inject_Z socSteps <= 0).
    { assert (inject_Z socSteps <= 0) by (change 0 with (inject_Z 0); rewrite <- Zle_Qle; lia).
      nra. }
    pose proof (Qround_away_mono _ _ Hle) as Hm.
    change (Qround_away 0) with (Qround_away (inject_Z 0)) in Hm. rewrite !Qround_away_Z in Hm. lia.
Qed.

(** With [MinSOC < MaxSOC], the planner's [socToIdx] inverts [idxToSoc] on
    the grid: every index [i <= socSteps] maps to a SOC that maps back to
    [i]. *)
Theorem socToIdx_idxToSoc (p : BatteryParams Q) (socSteps : Z) (i : nat) :
  MinSOC p < MaxSOC p -> (Z.of_nat i <= socSteps)%Z ->
  socToIdx p socSteps (idxToSoc p socSteps i) = i.
Proof.
  intros Hm Hi. unfold socToIdx, idxToSoc. cbn [fle fdiv fsub fmul fadd Q_GoFloat].
  cbn [fround_Z fof_Z Q_GoRound].
  destruct (Z.of_nat i <=? 0)%Z eqn:E0.
  - apply Z.leb_le in E0. replace (Qle_bool (MinSOC p) (MinSOC p)) with true
      by (symmetry; apply Qle_bool_iff; lra). lia.
  - destruct (socSteps <=? Z.of_nat i)%Z eqn:E1.
    + apply Z.leb_le in E1.
      replace (Qle_bool (MaxSOC p) (MinSOC p)) with false
        by (symmetry; apply Qle_bool_false; lra).
      replace (Qle_bool (MaxSOC p) (MaxSOC p)) with true
        by (symmetry; apply Qle_bool_iff; lra). lia.
    + apply Z.leb_gt in E0. apply Z.leb_gt in E1.
      assert (Hs : 0 < inject_Z socSteps) by (change 0 with (inject_Z 0); rewrite <- Zlt_Qlt; lia).
      assert (Hi0 : 0 < inject_Z (Z.of_nat i)) by (change 0 with (inject_Z 0); rewrite <- Zlt_Qlt; lia).
      assert (Hi1 : inject_Z (Z.of_nat i) < inject_Z socSteps) by (rewrite <- Zlt_Qlt; lia).
      set (f := inject_Z (Z.of_nat i) / inject_Z socSteps).
      assert (Hf0 : 0 < f) by (apply Qlt_shift_div_l; lra).
      assert (Hf1 : f < 1) by (apply Qlt_shift_div_r; lra).
      set (s := MinSOC p + f * (MaxSOC p - MinSOC p)).
      replace (Qle_bool s (MinSOC p)) with false
        by (symmetry; apply Qle_bool_false; unfold s; nra).
      replace (Qle_bool (MaxSOC p) s) with false
        by (symmetry; apply Qle_bool_false; unfold s; nra).
      assert (Hr : (s - MinSOC p) / (MaxSOC p - MinSOC p) * inject_Z socSteps
                   == inject_Z (Z.of_nat i)).
      { unfold s, f. field. lra. }
      rewrite (Qround_away_comp _ _ Hr), Qround_away_Z. lia.
Qed.

Lemma socToIdx_idxToSoc_witness :
  MinSOC q_params_1 < MaxSOC q_params_1 /\ (Z.of_nat 3 <= 10)%Z /\
  socToIdx q_params_1 10 (idxToSoc q_params_1 10 3) = 3%nat.
Proof.
  split; [reflexivity|]. split; [lia|].
  apply (socToIdx_idxToSoc q_params_1 10 3); [reflexivity | lia].
Defined.

Lemma actionsOf_nth (p : BatteryParams Q) (ps : Z) (k : nat) :
  (k < Z.to_nat (2 * ps + 1))%nat ->
  nth k (actionsOf p ps) 0 = inject_Z (- ps + Z.of_nat k) * (PowerCapacityMW p / inject_Z ps).
Proof.
  intros Hk. unfold actionsOf. cbn [fdiv fmul fof_Z Q_GoFloat Q_GoRound].
  rewrite (nth_indep _ 0 (inject_Z (- ps + Z.of_nat 0) * (PowerCapacityMW p / inject_Z ps)))
    by (rewrite length_map, length_seq; exact Hk).
  rewrite (map_nth (fun i => inject_Z (- ps + Z.of_nat i) * (PowerCapacityMW p / inject_Z ps))).
  rewrite seq_nth by exact Hk. reflexivity.
Qed.

(** In exact (rational) arithmetic, for [powerSteps > 0], the planner's
    action set [actionsOf] has
    [2 * powerSteps + 1] entries: the first is [-PowerCapacityMW], the one
    at index [powerSteps] is idle (0) and the last is [PowerCapacityMW];
    with a non-negative capacity every action lies in
    [[-PowerCapacityMW, PowerCapacityMW]]. *)
Theorem actionsOf_grid (p : BatteryParams Q) (ps : Z) :
  (0 < ps)%Z ->
  let acts := actionsOf p ps in
  List.length acts = Z.to_nat (2 * ps + 1) /\
  nth 0 acts 0 == - PowerCapacityMW p /\
  nth (Z.to_nat ps) acts 0 == 0 /\
  nth (Z.to_nat (2 * ps)) acts 0 == PowerCapacityMW p /\
  (0 <= PowerCapacityMW p -> forall a, In a acts -> - PowerCapacityMW p <= a <= PowerCapacityMW p).
Proof.
  intros Hps. cbv zeta.
  assert (Hq : 0 < inject_Z ps) by (change 0 with (inject_Z 0); rewrite <- Zlt_Qlt; exact Hps).
  split; [unfold actionsOf; rewrite length_map, length_seq; reflexivity|].
  split; [rewrite actionsOf_nth by lia; rewrite Z.add_0_r, inject_Z_opp; field; lra|].
  split; [rewrite actionsOf_nth by lia;
          replace (- ps + Z.of_nat (Z.to_nat ps))%Z with 0%Z by lia; cbn; reflexivity|].
  split; [rewrite actionsOf_nth by lia;
          replace (- ps + Z.of_nat (Z.to_nat (2 * ps)))%Z with ps by lia; field; lra|].
  intros HP a Ha. unfold actionsOf in Ha. cbn [fdiv fmul fof_Z Q_GoFloat Q_GoRound] in Ha.
  apply in_map_iff in Ha. destruct Ha as (i & <- & Hi). apply in_seq in Hi.
  set (k := (- ps + Z.of_nat i)%Z).
  assert (Hk1 : inject_Z k <= inject_Z ps) by (rewrite <- Zle_Qle; unfold k; lia).
  assert (Hk0 : - inject_Z ps <= inject_Z k)
    by (rewrite <- inject_Z_opp, <- Zle_Qle; unfold k; lia).
  assert (Hst : 0 <= PowerCapacityMW p / inject_Z ps) by (apply Qle_shift_div_l; lra).
  assert (HP' : inject_Z ps * (PowerCapacityMW p / inject_Z ps) == PowerCapacityMW p)
    by (field; lra).
  split; nra.
Qed.

Lemma actionsOf_grid_witness :
  (0 < 4)%Z /\
  (let acts := actionsOf q_params_1 4 in
   List.length acts = Z.to_nat (2 * 4 + 1) /\
   nth 0 acts 0 == - PowerCapacityMW q_params_1 /\
   nth (Z.to_nat 4) acts 0 == 0 /\
   nth (Z.to_nat (2 * 4)) acts 0 == PowerCapacityMW q_params_1 /\
   (0 <= PowerCapacityMW q_params_1 -> forall a, In a acts ->
      - PowerCapacityMW q_params_1 <= a <= PowerCapacityMW q_params_1)).
Proof. split; [lia|]. apply (actionsOf_grid q_params_1 4); lia. Defined.

(** ** The engine loop *)

Section RunFacts.
Context {F : Type} `{GoFloat F}.

Lemma ApplyDispatch_ok_shape (b b' : Battery F) (lmp : F) (d : Dispatch F) (dt : F)
    (res : IntervalResult F) :
  ApplyDispatch b lmp d dt = (b', inr res) ->
  b' = mkBattery (Params b) (mkState (SOCEnd res)) /\ SOCStart res = SOC (State b).
Proof.
  destruct b as [prm [s]]. unfold ApplyDispatch. cbn [Params State SOC setSOC].
  destruct (fle dt fzero); [discriminate|].
  destruct (flt (PowerMW (ClipDispatch (mkBattery prm (mkState s)) d)) fzero).
  - match goal with |- context [let '(_, _) := ?c in _] => destruct c end.
    intros E. injection E as <- <-. split; reflexivity.
  - destruct (flt fzero (PowerMW (ClipDispatch (mkBattery prm (mkState s)) d))).
    + match goal with |- context [let '(_, _) := ?c in _] => destruct c end.
      intros E. injection E as <- <-. split; reflexivity.
    + intros E. injection E as <- <-. split; reflexivity.
Qed.

Lemma ApplyDispatch_error (b : Battery F) (lmp : F) (d : Dispatch F) (dt : F) :
  (exists err, snd (ApplyDispatch b lmp d dt) = inl err) <-> fle dt fzero = true.
Proof.
  unfold ApplyDispatch. destruct (fle dt fzero).
  - split; [reflexivity|]. intros _. eexists. reflexivity.
  - split; [|discriminate]. intros (err & Herr). revert Herr.
    destruct (flt (PowerMW (ClipDispatch b d)) fzero).
    + match goal with |- context [let '(_, _) := ?c in _] => destruct c end. discriminate.
    + destruct (flt fzero (PowerMW (ClipDispatch b d))).
      * match goal with |- context [let '(_, _) := ?c in _] => destruct c end. discriminate.
      * discriminate.
Qed.

Lemma run_loop_rows (strat : Strategy F) (its : list (LMPInterval F)) :
  forall idx b cum L L' cum' b',
  run_loop strat idx its b cum L = inr (L', cum', b') ->
  exists rows, L' = L ++ rows /\ map RowInterval rows = its /\ Params b' = Params b /\
    soc_chain (SOC (State b)) rows (SOC (State b')) /\
    forall k row, nth_error rows k = Some row ->
      RowIndex row = (idx + k)%nat /\ RowLMP row = LMP (RowInterval row) /\
      RowAction row = ActionFromPowerMW (RowPowerMW row) /\
      RequestedPowerMW row =
        PowerMW (Decide strat (mkContext (idx + k) (RowInterval row)
                                  (mkBattery (Params b) (mkState (RowSOCStart row))))).
Proof.
  induction its as [|it rest IH]; intros idx b cum L L' cum' b' Hrun.
  - injection Hrun as <- <- <-. exists []. rewrite app_nil_r.
    split; [reflexivity|]. split; [reflexivity|]. split; [reflexivity|].
    split; [reflexivity|]. intros [|k] row Hk; discriminate.
  - cbn [run_loop] in Hrun.
    destruct (ApplyDispatch b (LMP it) (Decide strat (mkContext idx it b)) (DurationHours it))
      as [b1 [err|res]] eqn:Ha; [discriminate|].
    destruct (ApplyDispatch_ok_shape _ _ _ _ _ _ Ha) as (Hb1 & Hs).
    destruct (IH _ _ _ _ _ _ _ Hrun) as (rows & HL & Hmap & Hp & Hch & Hrows).
    set (row := mkRow idx it (LMP it) (ActionFromPowerMW (RealizedPowerMW res))
                  (PowerMW (Decide strat (mkContext idx it b))) (RealizedPowerMW res)
                  (EnergyFromGridMWh res) (EnergyToGridMWh res) (ThroughputMWh res)
                  (SOCStart res) (SOCEnd res) (PNL res) (fadd cum (PNL res))) in *.
    exists (row :: rows).
    split; [rewrite HL, <- app_assoc; reflexivity|].
    split; [cbn; rewrite Hmap; reflexivity|].
    split; [rewrite Hp, Hb1; reflexivity|].
    split.
    { split; [exact Hs|]. rewrite Hb1 in Hch. exact Hch. }
    intros [|k] r Hk.
    + injection Hk as <-. cbn. rewrite Nat.add_0_r.
      split; [reflexivity|]. split; [reflexivity|]. split; [reflexivity|].
      rewrite Hs. destruct b as [prm [s]]. reflexivity.
    + cbn [nth_error] in Hk. destruct (Hrows k r Hk) as (Hi & Hl & Ha' & Hd).
      rewrite Hb1 in Hd. cbn [Params] in Hd. rewrite <- Nat.add_succ_comm.
      split; [exact Hi|]. split; [exact Hl|]. split; [exact Ha'|]. exact Hd.
Qed.

(** A successful [Engine.Run] has one ledger row per interval, in input
    order; row [i] has [Index = i], the interval's LMP, the action of its
    realized power, and as requested power the strategy's decision for
    context [i] with the battery (the input parameters, at the row's start
    SOC); the SOCs chain: the first row starts at the initial SOC, each row
    starts where the previous one ended and [FinalSOC] is the last row's end
    SOC. *)
Theorem Run_ledger_rows (intervals : list (LMPInterval F)) (batt : Battery F)
    (strat : Strategy F) (r : Result F) :
  Run intervals batt strat = inr r ->
  map RowInterval (Ledger r) = intervals /\
  soc_chain (SOC (State batt)) (Ledger r) (FinalSOC r) /\
  forall i row, nth_error (Ledger r) i = Some row ->
    RowIndex row = i /\ RowLMP row = LMP (RowInterval row) /\
    RowAction row = ActionFromPowerMW (RowPowerMW row) /\
    RequestedPowerMW row =
      PowerMW (Decide strat (mkContext i (RowInterval row)
                                (mkBattery (Params batt) (mkState (RowSOCStart row))))).
Proof.
  unfold Run. intros Hrun. destruct intervals as [|it rest]; [discriminate|].
  destruct (run_loop strat 0 (it :: rest) batt fzero []) as [err|((L, c), b)] eqn:Hl;
    [discriminate|].
  injection Hrun as <-. cbn [Ledger FinalSOC].
  destruct (run_loop_rows strat _ _ _ _ _ _ _ _ Hl) as (rows & HL & Hmap & _ & Hch & Hrows).
  cbn in HL. subst L.
  split; [exact Hmap|]. split; [exact Hch|]. exact Hrows.
Qed.

Lemma run_loop_error (strat : Strategy F) (its : list (LMPInterval F)) :
  forall idx b cum L,
  (exists err, run_loop strat idx its b cum L = inl err) <->
  Exists (fun it => fle (DurationHours it) fzero = true) its.
Proof.
  induction its as [|it rest IH]; intros idx b cum L; cbn [run_loop].
  - split; [intros (err & E); discriminate|intros Hx; inversion Hx].
  - rewrite Exists_cons.
    pose proof (ApplyDispatch_error b (LMP it) (Decide strat (mkContext idx it b))
                  (DurationHours it)) as Herr.
    destruct (ApplyDispatch b (LMP it) (Decide strat (mkContext idx it b)) (DurationHours it))
      as [b1 [err|res]]; cbn [snd] in Herr.
    + split; [intros _; left; apply Herr; eexists; reflexivity|].
      intros _. eexists. reflexivity.
    + rewrite IH. split; [intros Hx; right; exact Hx|].
      intros [Hx|Hx]; [|exact Hx].
      apply Herr in Hx. destruct Hx as (e & E). discriminate.
Qed.

(** [Engine.Run] fails exactly when the battery is nil, the strategy is nil,
    the interval list is empty or some interval's duration compares [<= 0]. *)
Theorem Run_error_iff (intervals : list (LMPInterval F)) (batt : option (Battery F))
    (strat : option (Strategy F)) :
  ((exists err, EngineRun intervals batt strat = inl err) <->
   batt = None \/ strat = None \/ intervals = [] \/
   Exists (fun it => fle (DurationHours it) fzero = true) intervals).
Proof.
  destruct batt as [batt|]; [|split; [intros _; left; reflexivity|intros _; eexists; reflexivity]].
  destruct strat as [strat|];
    [|split; [intros _; right; left; reflexivity|intros _; eexists; reflexivity]].
  cbn [EngineRun]. unfold Run. destruct intervals as [|it rest].
  - split; [intros _; right; right; left; reflexivity|intros _; eexists; reflexivity].
  - rewrite <- (run_loop_error strat (it :: rest) 0 batt fzero []).
    destruct (run_loop strat 0 (it :: rest) batt fzero []) as [err|((L, c), b)].
    + split; [intros _; right; right; right; eexists; reflexivity|intros _; eexists; reflexivity].
    + split; [intros (e & E); discriminate|].
      intros [E|[E|[E|(e & E)]]]; discriminate.
Qed.

End RunFacts.

Section AnyPower.
Context {F : Type} `{GoFloat F}.
Local Open Scope nat_scope.

Lemma Battery_eta (b : Battery F) : mkBattery (Params b) (mkState (SOC (State b))) = b.
Proof. destruct b as [prm [s]]. reflexivity. Qed.

Lemma Dispatch_eta (d : Dispatch F) : mkDispatch (PowerMW d) = d.
Proof. destruct d. reflexivity. Qed.

Lemma IntervalResult_eta (res : IntervalResult F) :
  mkResult (RealizedPowerMW res) (EnergyToGridMWh res) (EnergyFromGridMWh res)
    (ThroughputMWh res) (SOCStart res) (SOCEnd res) (PNL res) = res.
Proof. destruct res. reflexivity. Qed.

(** [ApplyDispatch] reads the dispatch only through [ClipDispatch]. *)
Lemma ApplyDispatch_same_clip (b : Battery F) (lmp : F) (d d' : Dispatch F) (dt : F) :
  ClipDispatch b d = ClipDispatch b d' ->
  ApplyDispatch b lmp d dt = ApplyDispatch b lmp d' dt.
Proof. intros E. unfold ApplyDispatch. rewrite E. reflexivity. Qed.

Lemma ClipDispatch_above (b : Battery F) (x : F) :
  let cap := PowerCapacityMW (Params b) in
  flt cap (fopp cap) = false -> flt cap x = true ->
  ClipDispatch b (mkDispatch x) = ClipDispatch b (mkDispatch cap).
Proof.
  cbv zeta. intros Hc Hx. unfold ClipDispatch. cbn [PowerMW]. rewrite Hx.
  destruct (flt (PowerCapacityMW (Params b)) (PowerCapacityMW (Params b))); reflexivity.
Qed.

Lemma ClipDispatch_below (b : Battery F) (x : F) :
  let cap := PowerCapacityMW (Params b) in
  flt cap (fopp cap) = false -> flt cap x = false -> flt x (fopp cap) = true ->
  ClipDispatch b (mkDispatch x) = ClipDispatch b (mkDispatch (fopp cap)).
Proof.
  cbv zeta. intros Hc Hx Hy. unfold ClipDispatch. cbn [PowerMW]. rewrite Hx, Hy, Hc.
  destruct (flt (fopp (PowerCapacityMW (Params b))) (fopp (PowerCapacityMW (Params b))));
    reflexivity.
Qed.

(** Every row [run_loop] appends is the [ApplyDispatch] step of its request
    from the battery the row starts from. *)
Lemma run_loop_steps (strat : Strategy F) (its : list (LMPInterval F)) :
  forall idx b cum L,
  (forall it, In it its -> fle (DurationHours it) fzero = false) ->
  exists L' cum' b', run_loop strat idx its b cum L = inr (L', cum', b') /\
    Params b' = Params b /\
    exists rows, L' = L ++ rows /\ length rows = length its /\
    Forall (fun row =>
      RowLMP row = LMP (RowInterval row) /\
      fle (DurationHours (RowInterval row)) fzero = false /\
      RequestedPowerMW row =
        PowerMW (Decide strat (mkContext (RowIndex row) (RowInterval row)
                                 (row_battery (Params b) row))) /\
      snd (ApplyDispatch (row_battery (Params b) row) (RowLMP row)
             (mkDispatch (RequestedPowerMW row)) (DurationHours (RowInterval row)))
      = inr (row_result row)) rows.
Proof.
  induction its as [|it rest IH]; intros idx b cum L Hd.
  - exists L, cum, b. split; [reflexivity|]. split; [reflexivity|].
    exists []. split; [rewrite app_nil_r; reflexivity|]. split; [reflexivity|constructor].
  - cbn [run_loop].
    assert (Hdt : fle (DurationHours it) fzero = false) by (apply Hd; left; reflexivity).
    set (req := Decide strat (mkContext idx it b)).
    destruct (ApplyDispatch b (LMP it) req (DurationHours it)) as [b1 [err|res]] eqn:Hap.
    + pose proof (proj1 (ApplyDispatch_error b (LMP it) req (DurationHours it))) as He.
      rewrite Hap in He. cbn [snd] in He. rewrite He in Hdt; [discriminate|eexists; reflexivity].
    + destruct (ApplyDispatch_ok_shape _ _ _ _ _ _ Hap) as (Hb1 & Hs).
      destruct (IH (S idx) b1 (fadd cum (PNL res))
                  (L ++ [mkRow idx it (LMP it) (ActionFromPowerMW (RealizedPowerMW res))
                           (PowerMW req) (RealizedPowerMW res)
                           (EnergyFromGridMWh res) (EnergyToGridMWh res) (ThroughputMWh res)
                           (SOCStart res) (SOCEnd res) (PNL res) (fadd cum (PNL res))]))
        as (L' & cum' & b' & Hrun & Hp & rows & HL & Hlen & Hrows).
      { intros it' Hin. apply Hd. right. exact Hin. }
      assert (Hp1 : Params b1 = Params b) by (rewrite Hb1; reflexivity).
      exists L', cum', b'. split; [exact Hrun|]. split; [congruence|].
      eexists. split; [rewrite HL, <- app_assoc; reflexivity|].
      split; [cbn [length app]; rewrite Hlen; reflexivity|].
      rewrite Hp1 in Hrows. constructor; [|exact Hrows].
      unfold row_battery, row_result. cbn [RowLMP RowInterval RowIndex RequestedPowerMW
        RowSOCStart RowPowerMW RowEnergyToGridMWh RowEnergyFromGridMWh RowThroughputMWh
        RowSOCEnd RowPNL].
      rewrite IntervalResult_eta, Hs, Battery_eta.
      split; [reflexivity|]. split; [exact Hdt|]. split; [reflexivity|].
      rewrite Dispatch_eta, Hap. reflexivity.
Qed.

(** C4 (as amended).  [Engine.Run] makes no finiteness check on the power a
    strategy returns: for every strategy and every non-empty interval list
    whose durations are all [> 0], [Run] succeeds with one ledger row per
    interval, and every row is the [ApplyDispatch] step of its request (the
    strategy's power) from the battery the row starts from.  A row whose
    request is neither [< 0], nor [> 0], nor beyond [+/-PowerCapacityMW]
    (in float64: NaN) is an idle step: realized power 0, no grid energy, no
    throughput, SOC unchanged, and the pnl [CalculateIntervalPnL] of zero
    energy.  When the capacity does not compare below its negation, a row
    whose request is above the capacity (e.g. +Inf) is exactly the step of a
    request of [PowerCapacityMW], and one whose request is below its negation
    (e.g. -Inf) the step of a request of [-PowerCapacityMW]. *)
Theorem Run_accepts_any_power (intervals : list (LMPInterval F)) (batt : Battery F)
    (strat : Strategy F) :
  intervals <> [] ->
  (forall it, In it intervals -> fle (DurationHours it) fzero = false) ->
  exists r, Run intervals batt strat = inr r /\ length (Ledger r) = length intervals /\
    Forall (fun row =>
      let b := row_battery (Params batt) row in
      let cap := PowerCapacityMW (Params batt) in
      let x := RequestedPowerMW row in
      let dt := DurationHours (RowInterval row) in
      x = PowerMW (Decide strat (mkContext (RowIndex row) (RowInterval row) b)) /\
      snd (ApplyDispatch b (RowLMP row) (mkDispatch x) dt) = inr (row_result row) /\
      (flt cap x = false -> flt x (fopp cap) = false -> flt x fzero = false ->
       flt fzero x = false ->
       RowPowerMW row = fzero /\ RowEnergyFromGridMWh row = fzero /\
       RowEnergyToGridMWh row = fzero /\ RowThroughputMWh row = fzero /\
       RowSOCEnd row = RowSOCStart row /\
       RowPNL row = CalculateIntervalPnL b (RowLMP row) fzero fzero) /\
      (flt cap (fopp cap) = false -> flt cap x = true ->
       snd (ApplyDispatch b (RowLMP row) (mkDispatch cap) dt) = inr (row_result row)) /\
      (flt cap (fopp cap) = false -> flt cap x = false -> flt x (fopp cap) = true ->
       snd (ApplyDispatch b (RowLMP row) (mkDispatch (fopp cap)) dt) = inr (row_result row)))
    (Ledger r).
Proof.
  intros Hne Hdur.
  destruct (run_loop_steps strat intervals 0 batt fzero [] Hdur)
    as (L' & cum' & b' & Hrun & _ & rows & HL & Hlen & Hrows).
  cbn [app] in HL. subst L'.
  unfold Run. destruct intervals as [|it rest]; [congruence|]. rewrite Hrun.
  eexists. split; [reflexivity|]. cbn [Ledger]. split; [exact Hlen|].
  eapply Forall_impl; [|exact Hrows]. cbv zeta.
  intros row (Hlmp & Hdt & Hreq & Hstep).
  split; [exact Hreq|]. split; [exact Hstep|]. split; [|split].
  - intros H1 H2 H3 H4.
    rewrite (ApplyDispatch_incomparable (row_battery (Params batt) row) (RowLMP row)
               (mkDispatch (RequestedPowerMW row)) _ Hdt H1 H2 H3 H4) in Hstep.
    cbn [snd] in Hstep. unfold row_result, row_battery in Hstep. cbn [SOC State] in Hstep.
    injection Hstep. intros Hpnl Hend Hthr Hto Hfrom Hpow.
    unfold row_battery. repeat split; congruence.
  - intros Hc Hx. rewrite <- Hstep. f_equal.
    apply ApplyDispatch_same_clip. symmetry.
    exact (ClipDispatch_above (row_battery (Params batt) row) _ Hc Hx).
  - intros Hc Hx Hy. rewrite <- Hstep. f_equal.
    apply ApplyDispatch_same_clip. symmetry.
    exact (ClipDispatch_below (row_battery (Params batt) row) _ Hc Hx Hy).
Qed.

End AnyPower.

Lemma Run_accepts_any_power_witness :
  f64_four_hours <> [] /\
  (forall it, In it f64_four_hours -> fle (DurationHours it) fzero = false) /\
  exists r, Run f64_four_hours f64_battery_100 mixed_strategy = inr r /\
    length (Ledger r) = length f64_four_hours /\
    Forall (fun row =>
      let b := row_battery (Params f64_battery_100) row in
      let cap := PowerCapacityMW (Params f64_battery_100) in
      let x := RequestedPowerMW row in
      let dt := DurationHours (RowInterval row) in
      x = PowerMW (Decide mixed_strategy (mkContext (RowIndex row) (RowInterval row) b)) /\
      snd (ApplyDispatch b (RowLMP row) (mkDispatch x) dt) = inr (row_result row) /\
      (flt cap x = false -> flt x (fopp cap) = false -> flt x fzero = false ->
       flt fzero x = false ->
       RowPowerMW row = fzero /\ RowEnergyFromGridMWh row = fzero /\
       RowEnergyToGridMWh row = fzero /\ RowThroughputMWh row = fzero /\
       RowSOCEnd row = RowSOCStart row /\
       RowPNL row = CalculateIntervalPnL b (RowLMP row) fzero fzero) /\
      (flt cap (fopp cap) = false -> flt cap x = true ->
       snd (ApplyDispatch b (RowLMP row) (mkDispatch cap) dt) = inr (row_result row)) /\
      (flt cap (fopp cap) = false -> flt cap x = false -> flt x (fopp cap) = true ->
       snd (ApplyDispatch b (RowLMP row) (mkDispatch (fopp cap)) dt) = inr (row_result row)))
    (Ledger r).
Proof.
  assert (Hd : forall it, In it f64_four_hours -> fle (DurationHours it) fzero = false).
  { intros it Hin. repeat (destruct Hin as [<-|Hin]; [vm_compute; reflexivity|]).
    destruct Hin. }
  split; [discriminate|]. split; [exact Hd|].
  apply (Run_accepts_any_power f64_four_hours f64_battery_100 mixed_strategy).
  - discriminate.
  - exact Hd.
Defined.



Lemma Run_ledger_rows_witness :
  let r := match Run q_three_hours q_battery_half (OracleStrategyOf q_three_plan) with
           | inr r => r | inl _ => mkRunResult [] 0 0 end in
  Run q_three_hours q_battery_half (OracleStrategyOf q_three_plan) = inr r /\
  map RowInterval (Ledger r) = q_three_hours /\
  soc_chain (SOC (State q_battery_half)) (Ledger r) (FinalSOC r) /\
  forall i row, nth_error (Ledger r) i = Some row ->
    RowIndex row = i /\ RowLMP row = LMP (RowInterval row) /\
    RowAction row = ActionFromPowerMW (RowPowerMW row) /\
    RequestedPowerMW row =
      PowerMW (Decide (OracleStrategyOf q_three_plan)
                 (mkContext i (RowInterval row)
                    (mkBattery (Params q_battery_half) (mkState (RowSOCStart row))))).
Proof.
  cbv zeta. split; [vm_compute; reflexivity|].
  apply Run_ledger_rows. vm_compute. reflexivity.
Defined.

Lemma run_loop_ok_Q (strat : Strategy Q) (its : list (LMPInterval Q)) :
  forall idx b cum L,
  valid_params (Params b) -> MinSOC (Params b) <= SOC (State b) <= MaxSOC (Params b) ->
  Forall (fun it => 0 < DurationHours it) its ->
  exists L' cum' b', run_loop strat idx its b cum L = inr (L', cum', b') /\
    Params b' = Params b /\ MinSOC (Params b) <= SOC (State b') <= MaxSOC (Params b) /\
    exists rows, L' = L ++ rows /\
    Forall (fun row => MinSOC (Params b) <= RowSOCStart row <= MaxSOC (Params b) /\
                       MinSOC (Params b) <= RowSOCEnd row <= MaxSOC (Params b) /\
                       Qabs (RowPowerMW row) <= PowerCapacityMW (Params b)) rows.
Proof.
  induction its as [|it rest IH]; intros idx b cum L Hp Hs Hdt.
  - exists L, cum, b. split; [reflexivity|]. split; [reflexivity|]. split; [exact Hs|].
    exists []. split; [rewrite app_nil_r; reflexivity|constructor].
  - inversion Hdt as [|? ? Hdt0 Hdts]; subst. cbn [run_loop].
    pose proof (Validate_of_valid b Hp Hs) as Hv.
    set (req := Decide strat (mkContext idx it b)).
    destruct (ApplyDispatch_exact b (LMP it) req (DurationHours it) Hv Hdt0) as (res & Hres & Hok).
    destruct (ApplyDispatch_flows b (LMP it) req (DurationHours it) Hv Hdt0)
      as (res' & Hres' & Hcap & _).
    rewrite Hres in Hres'. injection Hres' as <-.
    destruct (ApplyDispatch b (LMP it) req (DurationHours it)) as [b1 [e|r1]] eqn:Ha;
      cbn [snd fst] in Hres, Hok; [discriminate|].
    injection Hres as ->.
    destruct Hok as (Hp1 & Hs1 & Hs0 & Hb & _).
    assert (Hp1' : valid_params (Params b1)) by (rewrite Hp1; exact Hp).
    assert (Hs1' : MinSOC (Params b1) <= SOC (State b1) <= MaxSOC (Params b1))
      by (rewrite Hp1, Hs1; exact Hb).
    match goal with |- context [run_loop strat (S idx) rest b1 ?c0 ?L0] =>
      destruct (IH (S idx) b1 c0 L0 Hp1' Hs1' Hdts)
        as (L' & cum' & b' & Hrun & Hp' & Hs' & rows & HL & Hrows) end.
    exists L', cum', b'. split; [exact Hrun|].
    rewrite Hp1 in Hp', Hs', Hrows. split; [congruence|]. split; [exact Hs'|].
    eexists (_ :: rows). split; [rewrite HL, <- app_assoc; reflexivity|].
    constructor; [|exact Hrows].
    cbn [RowSOCStart RowSOCEnd RowPowerMW]. rewrite Hs0.
    split; [exact Hs|]. split; [exact Hb|]. exact Hcap.
Qed.

(** In exact arithmetic, [Engine.Run] with a battery that passes [Validate]
    and a non-empty list of intervals of positive durations succeeds for
    every strategy; every ledger row starts and ends within
    [[MinSOC, MaxSOC]] and realizes a power no larger in magnitude than the
    power capacity, and the final SOC is within [[MinSOC, MaxSOC]]. *)
Theorem Run_ok_within_bounds (intervals : list (LMPInterval Q)) (batt : Battery Q)
    (strat : Strategy Q) :
  Validate batt = None -> intervals <> [] ->
  Forall (fun it => 0 < DurationHours it) intervals ->
  exists r, Run intervals batt strat = inr r /\
    Forall (fun row => MinSOC (Params batt) <= RowSOCStart row <= MaxSOC (Params batt) /\
                       MinSOC (Params batt) <= RowSOCEnd row <= MaxSOC (Params batt) /\
                       Qabs (RowPowerMW row) <= PowerCapacityMW (Params batt)) (Ledger r) /\
    MinSOC (Params batt) <= FinalSOC r <= MaxSOC (Params batt).
Proof.
  intros Hv Hne Hdt. destruct (Validate_Q batt Hv) as (Hp & Hs).
  destruct (run_loop_ok_Q strat intervals 0 batt fzero [] Hp Hs Hdt)
    as (L' & cum' & b' & Hrun & _ & Hs' & rows & HL & Hrows).
  unfold Run. destruct intervals as [|it rest]; [congruence|].
  rewrite Hrun. eexists. split; [reflexivity|]. cbn [Ledger FinalSOC].
  cbn in HL. subst L'. split; [exact Hrows|exact Hs'].
Qed.

Lemma Run_ok_within_bounds_witness :
  Validate q_battery_half = None /\ q_three_hours <> [] /\
  Forall (fun it => 0 < DurationHours it) q_three_hours /\
  exists r, Run q_three_hours q_battery_half (OracleStrategyOf q_three_plan) = inr r /\
    Forall (fun row => MinSOC (Params q_battery_half) <= RowSOCStart row <= MaxSOC (Params q_battery_half) /\
                       MinSOC (Params q_battery_half) <= RowSOCEnd row <= MaxSOC (Params q_battery_half) /\
                       Qabs (RowPowerMW row) <= PowerCapacityMW (Params q_battery_half)) (Ledger r) /\
    MinSOC (Params q_battery_half) <= FinalSOC r <= MaxSOC (Params q_battery_half).
Proof.
  assert (Hv : Validate q_battery_half = None) by reflexivity.
  assert (Hne : q_three_hours <> []) by discriminate.
  assert (Hdt : Forall (fun it => 0 < DurationHours it) q_three_hours)
    by (repeat constructor).
  split; [exact Hv|]. split; [exact Hne|]. split; [exact Hdt|].
  exact (Run_ok_within_bounds q_three_hours q_battery_half (OracleStrategyOf q_three_plan) Hv Hne Hdt).
Defined.

(** ** Ranking statistics, in exact arithmetic *)

Lemma insert_sorted_perm (x : Q) (l : list Q) : Permutation (insert_sorted x l) (x :: l).
Proof.
  induction l as [|y t IH]; [reflexivity|]. cbn [insert_sorted].
  destruct (flt y x); [|reflexivity].
  rewrite IH. apply perm_swap.
Qed.

Lemma insert_sorted_sorted (x : Q) (l : list Q) :
  Sorted Qle l -> Sorted Qle (insert_sorted x l).
Proof.
  induction l as [|y t IH]; intros Hs; [repeat constructor|].
  cbn [insert_sorted]. qunfold. destruct (Qltb y x) eqn:E; qfacts.
  - apply Sorted_inv in Hs. destruct Hs as (Ht & Hy).
    constructor; [exact (IH Ht)|].
    destruct t as [|z t']; cbn [insert_sorted].
    + constructor. lra.
    + qunfold. destruct (Qltb z x); constructor; [inversion Hy; assumption|lra].
  - constructor; [exact Hs|]. constructor. exact E.
Qed.

Lemma sortFloat64s_facts (l : list Q) :
  Permutation (sortFloat64s l) l /\ Sorted Qle (sortFloat64s l).
Proof.
  induction l as [|x t (IHp & IHs)]; [split; constructor|].
  cbn [sortFloat64s]. split.
  - rewrite insert_sorted_perm, IHp. reflexivity.
  - apply insert_sorted_sorted. exact IHs.
Qed.

(** [sort.Float64s] over exact numbers returns a permutation of its input,
    sorted in non-decreasing order. *)
Theorem sortFloat64s_sorted_perm (l : list Q) :
  Permutation (sortFloat64s l) l /\ Sorted Qle (sortFloat64s l).
Proof. exact (sortFloat64s_facts l). Qed.

Lemma sorted_nth_le (s : list Q) (i j : nat) :
  Sorted Qle s -> (i <= j)%nat -> (j < List.length s)%nat -> nth i s 0 <= nth j s 0.
Proof.
  intros Hs. apply Sorted_StronglySorted in Hs; [|intros a b c; apply Qle_trans].
  revert i j. induction Hs as [|a t Ht IH Ha]; intros i j Hij Hj; [cbn in Hj; lia|].
  destruct i as [|i'], j as [|j'].
  - apply Qle_refl.
  - cbn [nth]. rewrite Forall_forall in Ha. apply Ha, nth_In. cbn in Hj. lia.
  - lia.
  - cbn [nth]. apply IH; cbn in Hj; lia.
Qed.


Lemma percentileSorted_mid (s : list Q) (q : Q) :
  s <> [] -> 0 < q -> q < 1 ->
  percentileSorted s q = interp_at s (q * inject_Z (Z.of_nat (List.length s) - 1)).
Proof.
  intros Hne Hq0 Hq1. destruct s as [|s0 t]; [congruence|].
  unfold percentileSorted. qunfold. cbn [ffloor_Z fceil_Z fof_Z Q_GoRound].
  rewrite (proj2 (Qle_bool_false q 0) Hq0), (proj2 (Qle_bool_false 1 q) Hq1).
  reflexivity.
Qed.

Lemma floor_ceiling_facts (pos : Q) :
  (Qfloor pos <= Qceiling pos <= Qfloor pos + 1)%Z /\
  inject_Z (Qfloor pos) <= pos <= inject_Z (Qceiling pos) /\
  (Qfloor pos <> Qceiling pos -> inject_Z (Qfloor pos) < pos).
Proof.
  pose proof (Qle_floor_ceiling pos) as H1. rewrite <- Zle_Qle in H1.
  pose proof (Qlt_floor pos) as H2. pose proof (Qceiling_lt pos) as H3.
  pose proof (Qfloor_le pos) as H4. pose proof (Qle_ceiling pos) as H5.
  rewrite inject_Z_plus in H2. unfold Z.sub in H3. rewrite inject_Z_plus in H3.
  assert (H6 : (Qceiling pos <= Qfloor pos + 1)%Z).
  { apply Z.lt_succ_r. rewrite Zlt_Qlt. unfold Z.succ. rewrite !inject_Z_plus.
    rewrite inject_Z_opp in H3. change (inject_Z 1) with 1 in *. lra. }
  split; [lia|]. split; [lra|].
  intros Hne. destruct (Qlt_le_dec (inject_Z (Qfloor pos)) pos) as [Hl|Hl]; [exact Hl|].
  exfalso. apply Hne. assert (Hq : pos == inject_Z (Qfloor pos)) by lra.
  rewrite (Qceiling_comp _ _ Hq), Qceiling_Z. reflexivity.
Qed.

Lemma interp_at_bounds (s : list Q) (pos : Q) :
  Sorted Qle s -> 0 <= pos -> pos <= inject_Z (Z.of_nat (List.length s) - 1) ->
  nth (Z.to_nat (Qfloor pos)) s 0 <= interp_at s pos <= nth (Z.to_nat (Qceiling pos)) s 0.
Proof.
  intros Hs Hp0 Hp1. destruct (floor_ceiling_facts pos) as ((Hfc & Hc1) & (Hf & Hc) & Hlt).
  assert (Hlo : (0 <= Qfloor pos)%Z).
  { rewrite <- (Qfloor_Z 0). apply Qfloor_resp_le. exact Hp0. }
  assert (Hhi : (Qceiling pos <= Z.of_nat (List.length s) - 1)%Z).
  { rewrite <- (Qceiling_Z (Z.of_nat (List.length s) - 1)). apply Qceiling_resp_le. exact Hp1. }
  pose proof (sorted_nth_le s (Z.to_nat (Qfloor pos)) (Z.to_nat (Qceiling pos)) Hs
                ltac:(lia) ltac:(lia)) as Hm.
  unfold interp_at. destruct (Qfloor pos =? Qceiling pos)%Z eqn:E.
  - apply Z.eqb_eq in E. rewrite <- E. lra.
  - apply Z.eqb_neq in E. specialize (Hlt E).
    assert (Hf1 : pos - inject_Z (Qfloor pos) <= 1).
    { assert (inject_Z (Qceiling pos) <= inject_Z (Qfloor pos) + 1)
        by (change 1 with (inject_Z 1); rewrite <- inject_Z_plus, <- Zle_Qle; exact Hc1).
      lra. }
    set (a := nth (Z.to_nat (Qfloor pos)) s 0) in *.
    set (b := nth (Z.to_nat (Qceiling pos)) s 0) in *.
    set (f := pos - inject_Z (Qfloor pos)) in *.
    assert (Hf0 : 0 <= f) by (unfold f; lra).
    assert (P1 : 0 <= (b - a) * f) by (apply Qmult_le_0_compat; lra).
    assert (P2 : 0 <= (b - a) * (1 - f)) by (apply Qmult_le_0_compat; lra).
    split; lra.
Qed.

Lemma interp_at_mono (s : list Q) (p1 p2 : Q) :
  Sorted Qle s -> 0 <= p1 -> p1 <= p2 -> p2 <= inject_Z (Z.of_nat (List.length s) - 1) ->
  interp_at s p1 <= interp_at s p2.
Proof.
  intros Hs H0 H12 H2.
  destruct (interp_at_bounds s p1 Hs H0 ltac:(lra)) as (_ & B1).
  destruct (interp_at_bounds s p2 Hs ltac:(lra) H2) as (B2 & _).
  destruct (floor_ceiling_facts p1) as ((Hfc1 & Hc11) & (Hf1 & Hcl1) & Hlt1).
  destruct (floor_ceiling_facts p2) as ((Hfc2 & Hc12) & (Hf2 & Hcl2) & Hlt2).
  assert (Hhi : (Qceiling p2 <= Z.of_nat (List.length s) - 1)%Z).
  { rewrite <- (Qceiling_Z (Z.of_nat (List.length s) - 1)). apply Qceiling_resp_le. exact H2. }
  assert (Hlo : (0 <= Qfloor p1)%Z).
  { rewrite <- (Qfloor_Z 0). apply Qfloor_resp_le. exact H0. }
  assert (Hff : (Qfloor p1 <= Qfloor p2)%Z) by (apply Qfloor_resp_le; exact H12).
  destruct (Z_le_gt_dec (Qceiling p1) (Qfloor p2)) as [Hab|Hab].
  - pose proof (sorted_nth_le s (Z.to_nat (Qceiling p1)) (Z.to_nat (Qfloor p2)) Hs
                  ltac:(lia) ltac:(lia)) as Hm. lra.
  - (* both positions lie strictly inside the same unit interval *)
    assert (Hne1 : Qfloor p1 <> Qceiling p1) by lia.
    specialize (Hlt1 Hne1).
    assert (Heqf : Qfloor p1 = Qfloor p2) by lia.
    assert (Hp2 : inject_Z (Qfloor p2) < p2) by (rewrite <- Heqf; lra).
    assert (Hc2 : Qceiling p2 = (Qfloor p2 + 1)%Z).
    { assert (Qfloor p2 <> Qceiling p2).
      { intros E. rewrite <- E in Hcl2. lra. }
      lia. }
    assert (Hc1' : Qceiling p1 = Qceiling p2) by lia.
    pose proof (sorted_nth_le s (Z.to_nat (Qfloor p1)) (Z.to_nat (Qceiling p1)) Hs
                  ltac:(lia) ltac:(lia)) as Hm.
    unfold interp_at.
    rewrite (proj2 (Z.eqb_neq _ _) Hne1).
    rewrite (proj2 (Z.eqb_neq (Qfloor p2) (Qceiling p2))) by lia.
    rewrite <- Heqf, <- Hc1'.
    set (a := nth (Z.to_nat (Qfloor p1)) s 0) in *.
    set (b := nth (Z.to_nat (Qceiling p1)) s 0) in *.
    set (L := inject_Z (Qfloor p1)) in *.
    nra.
Qed.

Lemma last_nth_Q (s : list Q) : last s 0 = nth (List.length s - 1) s 0.
Proof.
  induction s as [|a t IH]; [reflexivity|].
  destruct t as [|b t']; [reflexivity|].
  change (last (a :: b :: t') 0) with (last (b :: t') 0). rewrite IH.
  cbn [List.length]. replace (S (S (List.length t')) - 1)%nat with (S (S (List.length t') - 1)) by lia.
  reflexivity.
Qed.

Lemma percentileSorted_range (s : list Q) (q : Q) :
  Sorted Qle s -> s <> [] ->
  nth 0 s 0 <= percentileSorted s q <= last s 0.
Proof.
  intros Hs Hne. rewrite last_nth_Q.
  assert (Hn : (0 < List.length s)%nat) by (destruct s; [congruence|cbn; lia]).
  pose proof (sorted_nth_le s 0 (List.length s - 1) Hs ltac:(lia) ltac:(lia)) as Hfl.
  destruct (Qle_bool q 0) eqn:E0.
  - destruct s as [|s0 t]; [congruence|]. unfold percentileSorted. qunfold. rewrite E0.
    cbn [nth]. split; [apply Qle_refl|exact Hfl].
  - destruct (Qle_bool 1 q) eqn:E1.
    + destruct s as [|s0 t]; [congruence|]. unfold percentileSorted. qunfold. rewrite E0, E1.
      rewrite last_nth_Q. split; [exact Hfl|apply Qle_refl].
    + apply Qle_bool_false in E0, E1. rewrite percentileSorted_mid by assumption.
      set (N := inject_Z (Z.of_nat (List.length s) - 1)).
      assert (HN : 0 <= N) by (unfold N; change 0 with (inject_Z 0); rewrite <- Zle_Qle; lia).
      assert (Hp0 : 0 <= q * N) by nra. assert (Hp1 : q * N <= N) by nra.
      destruct (interp_at_bounds s (q * N) Hs Hp0 Hp1) as (B1 & B2).
      assert (Hhi : (Qceiling (q * N) <= Z.of_nat (List.length s) - 1)%Z).
      { rewrite <- (Qceiling_Z (Z.of_nat (List.length s) - 1)). apply Qceiling_resp_le. exact Hp1. }
      assert (Hlo : (0 <= Qfloor (q * N))%Z).
      { rewrite <- (Qfloor_Z 0). apply Qfloor_resp_le. exact Hp0. }
      pose proof (Qle_floor_ceiling (q * N)) as Hfc. rewrite <- Zle_Qle in Hfc.
      pose proof (sorted_nth_le s 0 (Z.to_nat (Qfloor (q * N))) Hs ltac:(lia) ltac:(lia)).
      pose proof (sorted_nth_le s (Z.to_nat (Qceiling (q * N))) (List.length s - 1) Hs
                    ltac:(lia) ltac:(lia)).
      lra.
Qed.

Lemma percentileSorted_facts (s : list Q) :
  Sorted Qle s -> s <> [] ->
  (forall q, nth 0 s 0 <= percentileSorted s q <= last s 0) /\
  (forall q1 q2, q1 <= q2 -> percentileSorted s q1 <= percentileSorted s q2).
Proof.
  intros Hs Hne. split; [intros q; exact (percentileSorted_range s q Hs Hne)|].
  intros q1 q2 H12.
  destruct (percentileSorted_range s q1 Hs Hne) as (A1 & A2).
  destruct (percentileSorted_range s q2 Hs Hne) as (B1 & B2).
  destruct (Qle_bool q1 0) eqn:E10.
  - destruct s as [|s0 t]; [congruence|].
    replace (percentileSorted (s0 :: t) q1) with (nth 0 (s0 :: t) 0)
      by (unfold percentileSorted; qunfold; rewrite E10; reflexivity).
    exact B1.
  - destruct (Qle_bool 1 q2) eqn:E21.
    + destruct s as [|s0 t]; [congruence|].
      replace (percentileSorted (s0 :: t) q2) with (last (s0 :: t) 0)
        by (unfold percentileSorted; qunfold; rewrite (proj2 (Qle_bool_false q2 0)) by
              (apply Qle_bool_false in E10; lra); rewrite E21; reflexivity).
      exact A2.
    + apply Qle_bool_false in E10, E21.
      rewrite !percentileSorted_mid by (try assumption; lra).
      assert (Hn : (0 < List.length s)%nat) by (destruct s; [congruence|cbn; lia]).
      apply interp_at_mono; [exact Hs| | |].
      all: assert (HN : 0 <= inject_Z (Z.of_nat (List.length s) - 1))
             by (change 0 with (inject_Z 0); rewrite <- Zle_Qle; lia).
      all: set (N := inject_Z (Z.of_nat (List.length s) - 1)) in *.
      * apply Qmult_le_0_compat; lra.
      * apply Qmult_le_compat_r; lra.
      * assert (0 <= (1 - q2) * N) by (apply Qmult_le_0_compat; lra). lra.
Qed.

(** In exact (rational) arithmetic, [percentileSorted] on a non-empty list
    sorted in non-decreasing order returns a value between its first and its last element, and is
    monotone in the quantile [q]. *)
Theorem percentileSorted_monotone (s : list Q) :
  Sorted Qle s -> s <> [] ->
  (forall q, nth 0 s 0 <= percentileSorted s q <= last s 0) /\
  (forall q1 q2, q1 <= q2 -> percentileSorted s q1 <= percentileSorted s q2).
Proof. exact (percentileSorted_facts s). Qed.

Lemma percentileSorted_monotone_witness :
  Sorted Qle [1; 2; 4; 8] /\ [1; 2; 4; 8] <> [] /\
  (forall q, nth 0 [1; 2; 4; 8] 0 <= percentileSorted [1; 2; 4; 8] q <= last [1; 2; 4; 8] 0) /\
  (forall q1 q2, q1 <= q2 -> percentileSorted [1; 2; 4; 8] q1 <= percentileSorted [1; 2; 4; 8] q2).
Proof.
  assert (Hs : Sorted Qle [1; 2; 4; 8])
    by (repeat constructor; unfold Qle; cbn; lia).
  assert (Hne : [1; 2; 4; 8] <> []) by discriminate.
  split; [exact Hs|]. split; [exact Hne|].
  exact (percentileSorted_monotone [1; 2; 4; 8] Hs Hne).
Defined.

Lemma fold_sum_bounds (lo hi : Q) (l : list Q) :
  Forall (fun v => lo <= v <= hi) l -> forall acc,
  acc + inject_Z (Z.of_nat (List.length l)) * lo <= fold_left Qplus l acc <=
  acc + inject_Z (Z.of_nat (List.length l)) * hi.
Proof.
  induction 1 as [|x t Hx Ht IH]; intros acc.
  - cbn [fold_left List.length]. change (inject_Z (Z.of_nat 0)) with 0. lra.
  - cbn [fold_left List.length]. specialize (IH (acc + x)).
    rewrite Nat2Z.inj_succ. unfold Z.succ. rewrite inject_Z_plus. change (inject_Z 1) with 1.
    lra.
Qed.

(** [ComputePotential] over exact numbers, for a non-empty list whose LMPs
    all lie in [[lo, hi]]: the mean and both percentiles lie in
    [[lo, hi]], the 5th percentile is at most the 95th, so the spread
    [SpreadP95P05] is non-negative. *)
Theorem ComputePotential_stats_bounds (intervals : list (LMPInterval Q)) (lo hi : Q) :
  intervals <> [] -> Forall (fun it => lo <= LMP it <= hi) intervals ->
  let pot := ComputePotential intervals in
  lo <= MeanLMP pot <= hi /\ lo <= P05LMP pot /\ P05LMP pot <= P95LMP pot /\
  P95LMP pot <= hi /\ 0 <= SpreadP95P05 pot.
Proof.
  intros Hne Hb. cbv zeta.
  assert (Hv : Forall (fun v => lo <= v <= hi) (map LMP intervals)) by (apply Forall_map; exact Hb).
  destruct intervals as [|it0 rest]; [congruence|].
  unfold ComputePotential. cbn [MeanLMP P05LMP P95LMP SpreadP95P05].
  set (its := it0 :: rest) in *.
  set (vals := map LMP its) in *.
  destruct (sortFloat64s_facts vals) as (Hperm & Hsorted).
  assert (Hsne : sortFloat64s vals <> []) by (apply sortFloat64s_nonempty; discriminate).
  assert (Hin : forall v, In v (sortFloat64s vals) -> lo <= v <= hi).
  { intros v Hvin. rewrite Forall_forall in Hv. apply Hv.
    apply (Permutation_in _ Hperm Hvin). }
  assert (Hlen : (0 < List.length (sortFloat64s vals))%nat)
    by (destruct (sortFloat64s vals); [congruence|cbn; lia]).
  assert (Hfirst : lo <= nth 0 (sortFloat64s vals) 0)
    by (apply Hin, nth_In; exact Hlen).
  assert (Hlast : last (sortFloat64s vals) 0 <= hi)
    by (rewrite last_nth_Q; apply Hin, nth_In; lia).
  destruct (percentileSorted_facts _ Hsorted Hsne) as (Hr & Hm).
  qunfold. cbn [fof_Z Q_GoRound].
  set (s := sortFloat64s vals) in *.
  assert (H595 : inject_Z 5 / inject_Z 100 <= inject_Z 95 / inject_Z 100)
    by (unfold Qle; cbn; lia).
  pose proof (Hm _ _ H595) as H12.
  destruct (Hr (inject_Z 5 / inject_Z 100)) as (A1 & _).
  destruct (Hr (inject_Z 95 / inject_Z 100)) as (_ & B2).
  destruct (fold_sum_bounds lo hi vals Hv 0) as (S1 & S2).
  assert (Hn : 0 < inject_Z (Z.of_nat (List.length vals))).
  { change 0 with (inject_Z 0). rewrite <- Zlt_Qlt. unfold vals, its. rewrite length_map.
    cbn [List.length]. lia. }
  split; [split|].
  - apply Qle_shift_div_l; [exact Hn|]. set (SUM := fold_left Qplus vals 0) in *. set (NN := inject_Z (Z.of_nat (Datatypes.length vals))) in *. setoid_replace (lo * NN) with (0 + NN * lo) by ring. exact S1.
  - apply Qle_shift_div_r; [exact Hn|]. lra.
  - split; [lra|]. split; [exact H12|]. split; [lra|]. lra.
Qed.

Lemma ComputePotential_stats_bounds_witness :
  q_three_hours <> [] /\ Forall (fun it => -5 <= LMP it <= 100) q_three_hours /\
  (let pot := ComputePotential q_three_hours in
   -5 <= MeanLMP pot <= 100 /\ -5 <= P05LMP pot /\ P05LMP pot <= P95LMP pot /\
   P95LMP pot <= 100 /\ 0 <= SpreadP95P05 pot).
Proof.
  assert (Hne : q_three_hours <> []) by discriminate.
  assert (Hb : Forall (fun it => -5 <= LMP it <= 100) q_three_hours)
    by (repeat constructor; unfold Qle; cbn; lia).
  split; [exact Hne|]. split; [exact Hb|].
  exact (ComputePotential_stats_bounds q_three_hours (-5) 100 Hne Hb).
Defined.

(** ** The canonical oracle profit *)

Lemma list_set_length {A : Type} (l : list A) (i : nat) (v : A) :
  List.length (list_set l i v) = List.length l.
Proof.
  revert i. induction l as [|x t IH]; intros [|i]; cbn [list_set List.length]; auto.
Qed.

Lemma list_set_out {A : Type} (l : list A) (i : nat) (v : A) :
  (List.length l <= i)%nat -> list_set l i v = l.
Proof.
  revert i. induction l as [|x t IH]; intros [|i] Hi; cbn [list_set List.length] in *;
    try reflexivity; try lia.
  rewrite IH by lia. reflexivity.
Qed.

Lemma nth_list_set_same {A : Type} (l : list A) (i : nat) (v d : A) :
  (i < List.length l)%nat -> nth i (list_set l i v) d = v.
Proof.
  revert i. induction l as [|x t IH]; intros [|i] Hi; cbn [list_set List.length nth] in *;
    try lia; try reflexivity.
  apply IH. lia.
Qed.

Lemma nth_list_set_other {A : Type} (l : list A) (i j : nat) (v d : A) :
  i <> j -> nth j (list_set l i v) d = nth j l d.
Proof.
  revert i j. induction l as [|x t IH]; intros [|i] [|j] Hij; cbn [list_set nth];
    try reflexivity; try lia.
  apply IH. lia.
Qed.

Lemma upd_ge (a b : list Q) (j k : nat) (v : Q) :
  nth j a negInf <= nth j b negInf ->
  nth j a negInf <= nth j (if Qltb (nth k b negInf) v then list_set b k v else b) negInf.
Proof.
  intros Hab. destruct (Qltb (nth k b negInf) v) eqn:E; [|exact Hab]. qfacts.
  destruct (Nat.eq_dec k j) as [<-|Hne].
  - destruct (Nat.lt_ge_cases k (List.length b)) as [Hl|Hl].
    + rewrite nth_list_set_same by exact Hl. lra.
    + rewrite list_set_out by exact Hl. exact Hab.
  - rewrite nth_list_set_other by exact Hne. exact Hab.
Qed.

Lemma upd_length (b : list Q) (k : nat) (v : Q) :
  List.length (if Qltb (nth k b negInf) v then list_set b k v else b) = List.length b.
Proof. destruct (Qltb (nth k b negInf) v); [apply list_set_length|reflexivity]. Qed.

Ltac canon_step_ge :=
  repeat match goal with
  | |- _ <= nth _ (if Qltb (nth _ _ negInf) _ then list_set _ _ _ else _) negInf => apply upd_ge
  | |- context [if (?a <? ?b)%nat then _ else _] => destruct (a <? b)%nat
  | |- context [match ?n with O => _ | S _ => _ end] => destruct n
  end.

Ltac canon_step_len :=
  repeat match goal with
  | |- List.length (if Qltb (nth _ _ negInf) _ then list_set _ _ _ else _) = _ =>
      rewrite upd_length
  | |- context [if (?a <? ?b)%nat then _ else _] => destruct (a <? b)%nat
  | |- context [match ?n with O => _ | S _ => _ end] => destruct n
  end.

Lemma canonical_states_ge (dp : list Q) (price dt : Q) (steps : nat) :
  forall todo socIdx next j,
  nth j next negInf <= nth j (canonical_states dp price dt steps socIdx todo next) negInf.
Proof.
  induction todo as [|todo IH]; intros socIdx next j; [apply Qle_refl|].
  cbn [canonical_states]. qunfold.
  eapply Qle_trans; [|apply IH]. cbn [fof_Z Q_GoRound].
  destruct (Qle_bool (nth socIdx dp negInf) (negInf / inject_Z 2)); [apply Qle_refl|].
  canon_step_ge; apply Qle_refl.
Qed.

Lemma canonical_states_length (dp : list Q) (price dt : Q) (steps : nat) :
  forall todo socIdx next,
  List.length (canonical_states dp price dt steps socIdx todo next) = List.length next.
Proof.
  induction todo as [|todo IH]; intros socIdx next; [reflexivity|].
  cbn [canonical_states]. qunfold. cbn [fof_Z Q_GoRound]. rewrite IH.
  destruct (Qle_bool (nth socIdx dp negInf) (negInf / inject_Z 2)); [reflexivity|].
  canon_step_len; reflexivity.
Qed.

Lemma canonical_states_idle (dp : list Q) (price dt : Q) (steps : nat) (i : nat) :
  Qle_bool (nth i dp negInf) (negInf / inject_Z 2) = false ->
  forall todo socIdx next,
  (socIdx <= i < socIdx + todo)%nat -> (i < List.length next)%nat ->
  nth i dp negInf <= nth i (canonical_states dp price dt steps socIdx todo next) negInf.
Proof.
  intros Hd. induction todo as [|todo IH]; intros socIdx next Hi Hl; [lia|].
  cbn [canonical_states]. qunfold. cbn [fof_Z Q_GoRound].
  destruct (Nat.eq_dec socIdx i) as [<-|Hne].
  - rewrite Hd. eapply Qle_trans; [|apply canonical_states_ge].
    assert (H1 : nth socIdx dp negInf <=
                 nth socIdx (if Qltb (nth socIdx next negInf) (nth socIdx dp negInf)
                        then list_set next socIdx (nth socIdx dp negInf) else next) negInf).
    { destruct (Qltb (nth socIdx next negInf) (nth socIdx dp negInf)) eqn:E; qfacts;
        [rewrite nth_list_set_same by exact Hl; apply Qle_refl|exact E]. }
    set (next1 := if Qltb (nth socIdx next negInf) (nth socIdx dp negInf)
                  then list_set next socIdx (nth socIdx dp negInf) else next) in *.
    clearbody next1. canon_step_ge; exact H1.
  - apply IH; [lia|].
    destruct (Qle_bool (nth socIdx dp negInf) (negInf / inject_Z 2)); [exact Hl|].
    match goal with |- (i < List.length ?x)%nat =>
      replace (List.length x) with (List.length next) by (symmetry; canon_step_len; reflexivity)
    end. exact Hl.
Qed.

Lemma canonical_loop_keeps (dt : Q) (steps : nat) (i : nat) (its : list (LMPInterval Q)) :
  forall dp, List.length dp = S steps -> (i < S steps)%nat -> 0 <= nth i dp negInf ->
  List.length (canonical_loop dt steps dp its) = S steps /\
  0 <= nth i (canonical_loop dt steps dp its) negInf.
Proof.
  destruct negInf_facts as (HN & HN2). cbn [fdiv fof_Z Q_GoFloat Q_GoRound] in HN2.
  induction its as [|it rest IH]; intros dp Hl Hi H0; cbn [canonical_loop]; [split; assumption|].
  apply IH.
  - rewrite canonical_states_length, repeat_length. reflexivity.
  - exact Hi.
  - eapply Qle_trans; [exact H0|]. apply canonical_states_idle.
    + apply Qle_bool_false. lra.
    + lia.
    + rewrite repeat_length. exact Hi.
Qed.

Lemma fold_max_ge (l : list Q) : forall acc,
  acc <= fold_left (fun b v => if Qltb b v then v else b) l acc /\
  (forall v, In v l -> v <= fold_left (fun b v => if Qltb b v then v else b) l acc).
Proof.
  induction l as [|x t IH]; intros acc; cbn [fold_left].
  - split; [apply Qle_refl|intros v []].
  - destruct (IH (if Qltb acc x then x else acc)) as (H1 & H2).
    assert (Hax : acc <= (if Qltb acc x then x else acc) /\ x <= (if Qltb acc x then x else acc))
      by (destruct (Qltb acc x) eqn:E; qfacts; lra).
    split; [lra|]. intros v [<-|Hv]; [lra|exact (H2 v Hv)].
Qed.

(** [oracleProfitCanonical] over exact numbers is never negative, for every
    list of intervals: 0 for an empty list or a first duration [<= 0], and
    otherwise at least the value 0 of idling from the initial state through
    every interval. *)
Theorem oracleProfitCanonical_nonneg (intervals : list (LMPInterval Q)) :
  0 <= oracleProfitCanonical intervals.
Proof.
  destruct negInf_facts as (HN & HN2). cbn [fdiv fof_Z Q_GoFloat Q_GoRound] in HN2.
  unfold oracleProfitCanonical. destruct intervals as [|it0 rest]; [apply Qle_refl|].
  qunfold. cbn [fof_Z fround_Z Q_GoRound].
  destruct (Qle_bool (DurationHours it0) 0); [apply Qle_refl|].
  set (st := Qround_away (1 / DurationHours it0)).
  set (st' := if (st <? 1)%Z then 1%Z else st).
  assert (Hst : (1 <= st')%Z) by (unfold st'; destruct (Z.ltb_spec st 1); lia).
  set (ini := Qround_away (1 / inject_Z 2 * inject_Z st')).
  set (ini' := if (ini <? 0)%Z then 0%Z else ini).
  set (ini'' := if (st' <? ini')%Z then st' else ini').
  assert (Hini : (0 <= ini'' <= st')%Z).
  { unfold ini'', ini'. destruct (Z.ltb_spec ini 0); cbv iota;
      match goal with |- context [(st' <? ?x)%Z] => destruct (Z.ltb_spec st' x) end; lia. }
  set (n := Z.to_nat st').
  set (dp0 := list_set (repeat negInf (S n)) (Z.to_nat ini'') 0).
  assert (Hl0 : List.length dp0 = S n) by (unfold dp0; rewrite list_set_length, repeat_length; reflexivity).
  assert (Hi : (Z.to_nat ini'' < S n)%nat) by (unfold n; lia).
  assert (H0 : 0 <= nth (Z.to_nat ini'') dp0 negInf)
    by (unfold dp0; rewrite nth_list_set_same by (rewrite repeat_length; exact Hi); apply Qle_refl).
  destruct (canonical_loop_keeps (DurationHours it0) n (Z.to_nat ini'') (it0 :: rest) dp0 Hl0 Hi H0)
    as (Hlf & Hf).
  set (dpf := canonical_loop (DurationHours it0) n dp0 (it0 :: rest)) in *.
  destruct (fold_max_ge dpf negInf) as (_ & Hmax).
  assert (Hin : In (nth (Z.to_nat ini'') dpf negInf) dpf) by (apply nth_In; lia).
  specialize (Hmax _ Hin).
  set (best := fold_left (fun b v => if Qltb b v then v else b) dpf negInf) in *.
  destruct (Qle_bool best (negInf / inject_Z 2)) eqn:E; qfacts; lra.
Qed.

(** ** [GroupByLocation] *)

Lemma map_get_put {V : Type} (m : list (string * V)) (k k' : string) (v : V) :
  map_get (map_put m k v) k' = if String.eqb k k' then Some v else map_get m k'.
Proof.
  induction m as [|(k0, v0) rest IH]; cbn [map_put map_get].
  - reflexivity.
  - destruct (String.eqb_spec k0 k) as [->|Hne]; cbn [map_get].
    + destruct (String.eqb k k'); reflexivity.
    + rewrite IH. destruct (String.eqb_spec k0 k') as [->|Hne'].
      * rewrite (proj2 (String.eqb_neq k k')) by congruence. reflexivity.
      * reflexivity.
Qed.

Lemma map_get_None_iff {V : Type} (m : list (string * V)) (k : string) :
  map_get m k = None <-> ~ In k (map fst m).
Proof.
  induction m as [|(k0, v0) rest IH]; cbn [map_get map fst In].
  - tauto.
  - destruct (String.eqb_spec k0 k) as [->|Hne].
    + split; [discriminate|intros H; exfalso; apply H; left; reflexivity].
    + rewrite IH. split; [intros H [E|Hin]; [congruence|exact (H Hin)]|tauto].
Qed.

Lemma keys_put {V : Type} (m : list (string * V)) (k x : string) (v : V) :
  In x (map fst (map_put m k v)) -> x = k \/ In x (map fst m).
Proof.
  induction m as [|(k0, v0) rest IH]; cbn [map_put map fst In].
  - intros [<-|[]]. left. reflexivity.
  - destruct (String.eqb_spec k0 k) as [->|Hne]; cbn [map fst In].
    + intros [<-|H]; [left; reflexivity|right; right; exact H].
    + intros [<-|H]; [right; left; reflexivity|].
      destruct (IH H) as [E|E]; [left; exact E|right; right; exact E].
Qed.

Lemma NoDup_keys_put {V : Type} (m : list (string * V)) (k : string) (v : V) :
  NoDup (map fst m) -> NoDup (map fst (map_put m k v)).
Proof.
  induction m as [|(k0, v0) rest IH]; cbn [map_put map fst]; intros Hnd.
  - constructor; [intros []|constructor].
  - inversion Hnd as [|? ? Hnin Hnd']; subst.
    destruct (String.eqb_spec k0 k) as [->|Hne]; cbn [map fst].
    + constructor; assumption.
    + constructor; [|exact (IH Hnd')].
      intros Hin. destruct (keys_put rest k k0 v Hin) as [E|E]; [congruence|exact (Hnin E)].
Qed.

Lemma filter_none {A : Type} (f : A -> bool) (l : list A) :
  existsb f l = false -> filter f l = [].
Proof.
  induction l as [|x t IH]; cbn; [reflexivity|].
  intros H. apply orb_false_iff in H. destruct H as (H1 & H2). rewrite H1. exact (IH H2).
Qed.

Lemma group_loop {F : Type} (Location : LMPInterval F -> string) (data : list (LMPInterval F)) :
  forall pre out,
  NoDup (map fst out) ->
  (forall k, map_get out k =
     if existsb (fun it => String.eqb (Location it) k) pre
     then Some (filter (fun it => String.eqb (Location it) k) pre) else None) ->
  let out' := fold_left (fun out it =>
                 map_put out (Location it) (map_index out (Location it) ++ [it])) data out in
  NoDup (map fst out') /\
  (forall k, map_get out' k =
     if existsb (fun it => String.eqb (Location it) k) (pre ++ data)
     then Some (filter (fun it => String.eqb (Location it) k) (pre ++ data)) else None).
Proof.
  induction data as [|it rest IH]; intros pre out Hnd Hget; cbv zeta; cbn [fold_left].
  - rewrite app_nil_r. split; assumption.
  - replace (pre ++ it :: rest) with ((pre ++ [it]) ++ rest) by (rewrite <- app_assoc; reflexivity).
    apply IH; [apply NoDup_keys_put; exact Hnd|].
    intros k. rewrite map_get_put, existsb_app, filter_app. cbn [existsb filter].
    destruct (String.eqb_spec (Location it) k) as [<-|Hne].
    + rewrite orb_true_r. unfold map_index. rewrite Hget.
      destruct (existsb (fun it0 => String.eqb (Location it0) (Location it)) pre) eqn:E;
        [reflexivity|].
      rewrite (filter_none _ _ E). reflexivity.
    + rewrite Hget, orb_false_r, app_nil_r. reflexivity.
Qed.

(** [GroupByLocation] of a nil response is the empty map.  For a response
    with data, the map has no duplicate keys, its keys are exactly the
    locations of the data, and each location's slice holds exactly the
    intervals with that location, in input order; a location absent from the
    data is missing from the map. *)
Theorem GroupByLocation_spec {F : Type} (Location : LMPInterval F -> string)
    (data : list (LMPInterval F)) :
  GroupByLocation Location None = [] /\
  let g := GroupByLocation Location (Some data) in
  NoDup (map fst g) /\
  (forall k, In k (map fst g) <-> exists it, In it data /\ Location it = k) /\
  (forall k, map_get g k =
     if existsb (fun it => String.eqb (Location it) k) data
     then Some (filter (fun it => String.eqb (Location it) k) data) else None).
Proof.
  split; [reflexivity|]. cbv zeta. unfold GroupByLocation.
  destruct (group_loop Location data [] [] ltac:(constructor) ltac:(intros k; reflexivity))
    as (Hnd & Hget).
  cbn [app] in Hget.
  match type of Hnd with NoDup (map fst ?g0) => set (g := g0) in * end.
  split; [exact Hnd|]. split; [|exact Hget].
  intros k. split.
  - intros Hin. destruct (existsb (fun it => String.eqb (Location it) k) data) eqn:E.
    + apply existsb_exists in E. destruct E as (it & Hit & Heq).
      apply String.eqb_eq in Heq. exists it. split; assumption.
    + exfalso. apply (proj1 (map_get_None_iff g k)); [|exact Hin]. rewrite Hget, E. reflexivity.
  - intros (it & Hit & Heq). destruct (in_dec String.string_dec k (map fst g)) as [H|H];
      [exact H|exfalso].
    apply map_get_None_iff in H. rewrite Hget in H.
    assert (Hex : existsb (fun it => String.eqb (Location it) k) data = true)
      by (apply existsb_exists; exists it; split; [exact Hit|apply String.eqb_eq; exact Heq]).
    rewrite Hex in H. discriminate.
Qed.

(** ** Clock strings: [strings.Split], [parseHHMM] and the schedule setup *)

(** [strings.Split(s, ":")] followed by [strings.Join(parts, ":")] gives [s]
    back; no part contains [':'] and there is at least one part. *)
Theorem splitColon_join (s : string) :
  String.concat ":" (splitColon s) = s /\
  Forall (fun part => ~ In ":"%char (list_ascii_of_string part)) (splitColon s) /\
  splitColon s <> [].
Proof.
  induction s as [|c rest (IHj & IHf & IHne)]; cbn [splitColon].
  - split; [reflexivity|]. split; [repeat constructor; intros []|discriminate].
  - destruct (splitColon rest) as [|part others] eqn:Hs; [congruence|].
    destruct (Ascii.eqb_spec c ":"%char) as [->|Hc].
    + split; [|split; [constructor; [intros []|exact IHf]|discriminate]].
      change (String.concat ":" (EmptyString :: part :: others))
        with (EmptyString ++ ":" ++ String.concat ":" (part :: others))%string.
      rewrite IHj. reflexivity.
    + pose proof (Forall_inv IHf) as Hp. pose proof (Forall_inv_tail IHf) as Ho. cbv beta in Hp.
      split; [|split; [constructor; [|exact Ho]|discriminate]].
      * destruct others as [|o os]; cbn [String.concat] in IHj |- *; rewrite <- IHj; reflexivity.
      * cbn [list_ascii_of_string In]. intros [E|E]; [congruence|exact (Hp E)].
Qed.

Lemma parseHHMM_facts (TrimSpace : string -> string) (SscanfInt : string -> option Z)
    (s : string) :
  (forall v, parseHHMM TrimSpace SscanfInt s = inr v <->
   exists p0 p1 h m, splitColon (TrimSpace s) = [p0; p1] /\
     SscanfInt p0 = Some h /\ SscanfInt p1 = Some m /\
     (0 <= h <= 23)%Z /\ (0 <= m <= 59)%Z /\ v = (h * 60 + m)%Z) /\
  (forall v, parseHHMM TrimSpace SscanfInt s = inr v -> (0 <= v <= 1439)%Z).
Proof.
  unfold parseHHMM.
  assert (Hiff : forall v, (match splitColon (TrimSpace s) with
      | [part0; part1] =>
          match SscanfInt part0 with
          | None => inl "invalid hour"%string
          | Some h =>
              match SscanfInt part1 with
              | None => inl "invalid minute"%string
              | Some m =>
                  if (h <? 0)%Z || (23 <? h)%Z || (m <? 0)%Z || (59 <? m)%Z
                  then inl "invalid time"%string
                  else inr (h * 60 + m)%Z
              end
          end
      | _ => inl "invalid time, expected HH:MM"%string
      end = inr v <->
   exists p0 p1 h m, splitColon (TrimSpace s) = [p0; p1] /\
     SscanfInt p0 = Some h /\ SscanfInt p1 = Some m /\
     (0 <= h <= 23)%Z /\ (0 <= m <= 59)%Z /\ v = (h * 60 + m)%Z)).
  { intros v. destruct (splitColon (TrimSpace s)) as [|p0 [|p1 [|p2 ps]]].
    - split; [discriminate|intros (a & b & h & m & E & _); discriminate].
    - split; [discriminate|intros (a & b & h & m & E & _); discriminate].
    - split.
      + destruct (SscanfInt p0) as [h|] eqn:Eh; [|discriminate].
        destruct (SscanfInt p1) as [m|] eqn:Em; [|discriminate].
        destruct (h <? 0)%Z eqn:E1, (23 <? h)%Z eqn:E2, (m <? 0)%Z eqn:E3, (59 <? m)%Z eqn:E4;
          cbn [orb]; try discriminate.
        intros E. injection E as <-. exists p0, p1, h, m.
        apply Z.ltb_ge in E1, E2, E3, E4. repeat split; try reflexivity; try assumption; lia.
      + intros (a & b & h & m & E & Eh & Em & Hh & Hm & ->). injection E as <- <-.
        rewrite Eh, Em.
        rewrite (proj2 (Z.ltb_ge h 0)), (proj2 (Z.ltb_ge 23 h)), (proj2 (Z.ltb_ge m 0)),
          (proj2 (Z.ltb_ge 59 m)) by lia.
        reflexivity.
    - split; [discriminate|intros (a & b & h & m & E & _); discriminate]. }
  split; [exact Hiff|].
  intros v Hv. apply Hiff in Hv. destruct Hv as (a & b & h & m & _ & _ & _ & Hh & Hm & ->). lia.
Qed.

(** [parseHHMM] succeeds exactly when the trimmed input splits at [':'] into
    two parts that scan as an hour in [0, 23] and a minute in [0, 59]; the
    result is then [hour * 60 + minute], a minute of the day in
    [0, 1439]. *)
Theorem parseHHMM_spec (TrimSpace : string -> string) (SscanfInt : string -> option Z)
    (s : string) :
  (forall v, parseHHMM TrimSpace SscanfInt s = inr v <->
   exists p0 p1 h m, splitColon (TrimSpace s) = [p0; p1] /\
     SscanfInt p0 = Some h /\ SscanfInt p1 = Some m /\
     (0 <= h <= 23)%Z /\ (0 <= m <= 59)%Z /\ v = (h * 60 + m)%Z) /\
  (forall v, parseHHMM TrimSpace SscanfInt s = inr v -> (0 <= v <= 1439)%Z).
Proof. exact (parseHHMM_facts TrimSpace SscanfInt s). Qed.

Lemma count_range (a b : Z) (N : nat) : (0 <= a)%Z ->
  Z.of_nat (List.length (filter (fun t => (a <=? Z.of_nat t)%Z && (Z.of_nat t <? b)%Z) (seq 0 N)))
  = Z.max 0 (Z.min (Z.of_nat N) b - a).
Proof.
  intros Ha. induction N as [|N IH].
  - cbn. lia.
  - rewrite seq_S, filter_app, length_app. cbn [filter Nat.add].
    rewrite Nat2Z.inj_add, IH.
    destruct (Z.leb_spec a (Z.of_nat N)), (Z.ltb_spec (Z.of_nat N) b); cbn; lia.
Qed.

Lemma count_wrap (s e : Z) (N : nat) : (0 <= e < s)%Z ->
  Z.of_nat (List.length (filter (fun t => (s <=? Z.of_nat t)%Z || (Z.of_nat t <? e)%Z) (seq 0 N)))
  = (Z.max 0 (Z.of_nat N - s) + Z.min (Z.of_nat N) e)%Z.
Proof.
  intros Hse. induction N as [|N IH].
  - cbn. lia.
  - rewrite seq_S, filter_app, length_app. cbn [filter Nat.add].
    rewrite Nat2Z.inj_add, IH.
    rewrite Nat2Z.inj_succ.
    destruct (Z.leb_spec s (Z.of_nat N)), (Z.ltb_spec (Z.of_nat N) e);
      cbn [orb filter List.length Z.of_nat]; lia.
Qed.

Lemma window_minutes_mod (s e : Z) :
  (0 <= s <= 1439)%Z -> (0 <= e <= 1439)%Z ->
  Z.of_nat (window_minutes s e) = ((e - s) mod 1440)%Z.
Proof.
  intros Hs He. unfold window_minutes, inWindow.
  destruct (Z.eqb_spec s e) as [<-|Hne].
  - rewrite Z.sub_diag, Zmod_0_l.
    replace (filter (fun t => false) (seq 0 1440)) with (@nil nat)
      by (symmetry; apply filter_none; induction (seq 0 1440); [reflexivity|exact IHl]).
    reflexivity.
  - destruct (Z.ltb_spec s e) as [Hlt|Hge].
    + rewrite count_range by lia. rewrite Z.mod_small by lia. cbn. lia.
    + rewrite count_wrap by lia.
      replace ((e - s) mod 1440)%Z with (e - s + 1440)%Z.
      * change (Z.of_nat 1440) with 1440%Z. lia.
      * symmetry. rewrite <- (Z.mod_small (e - s + 1440) 1440) by lia.
        replace (e - s + 1440)%Z with ((e - s) + 1 * 1440)%Z by lia.
        symmetry. apply Z_mod_plus_full.
Qed.


Lemma ScheduleInit_ok_parts (TrimSpace : string -> string) (SscanfInt : string -> option Z)
    {F : Type} (cs ce ds de : string) (cp dp : F) (sp : ScheduleParams F) :
  ScheduleInit TrimSpace SscanfInt cs ce ds de cp dp = inr sp ->
  parseHHMM TrimSpace SscanfInt cs = inr (ChargeStart sp) /\
  parseHHMM TrimSpace SscanfInt ds = inr (DischargeStart sp) /\
  (ChargeEnd sp = None /\ String.eqb (TrimSpace ce) EmptyString = true \/
   exists e, ChargeEnd sp = Some e /\ String.eqb (TrimSpace ce) EmptyString = false /\
             parseHHMM TrimSpace SscanfInt ce = inr e) /\
  (DischargeEnd sp = None /\ String.eqb (TrimSpace de) EmptyString = true \/
   exists e, DischargeEnd sp = Some e /\ String.eqb (TrimSpace de) EmptyString = false /\
             parseHHMM TrimSpace SscanfInt de = inr e) /\
  ChargePowerMW sp = cp /\ DischargePowerMW sp = dp.
Proof.
  unfold ScheduleInit.
  destruct (parseHHMM TrimSpace SscanfInt cs) as [err|c] eqn:Ec; [discriminate|].
  destruct (parseHHMM TrimSpace SscanfInt ds) as [err|d] eqn:Ed; [discriminate|].
  destruct (String.eqb (TrimSpace ce) EmptyString) eqn:Ece;
    [|destruct (parseHHMM TrimSpace SscanfInt ce) as [err|e1] eqn:Ee1; [discriminate|]];
  (destruct (String.eqb (TrimSpace de) EmptyString) eqn:Ede;
    [|destruct (parseHHMM TrimSpace SscanfInt de) as [err|e2] eqn:Ee2; [discriminate|]]);
  intros E; injection E as <-; cbn [ChargeStart DischargeStart ChargeEnd DischargeEnd
                                     ChargePowerMW DischargePowerMW];
  (split; [reflexivity|]); (split; [reflexivity|]);
  repeat split;
  first [left; split; reflexivity | right; eexists; split; [reflexivity|split; reflexivity]].
Qed.

(** On success, the schedule setup of [ScheduleStrategy.Decide] has every
    clock time a minute of the day in [0, 1439], with a blank end replaced
    by the discharge start; the charge window then covers
    [(chargeEnd - chargeStart) mod 1440] minutes of the day and the
    discharge window [(dischargeEnd - dischargeStart) mod 1440], so a blank
    discharge end gives an empty discharge window. *)
Theorem ScheduleInit_windows (TrimSpace : string -> string) (SscanfInt : string -> option Z)
    {F : Type} (cs ce ds de : string) (cp dp : F) (sp : ScheduleParams F) :
  ScheduleInit TrimSpace SscanfInt cs ce ds de cp dp = inr sp ->
  let s1 := ChargeStart sp in
  let s2 := DischargeStart sp in
  let e1 := match ChargeEnd sp with Some e => e | None => s2 end in
  let e2 := match DischargeEnd sp with Some e => e | None => s2 end in
  (0 <= s1 <= 1439)%Z /\ (0 <= e1 <= 1439)%Z /\ (0 <= s2 <= 1439)%Z /\ (0 <= e2 <= 1439)%Z /\
  (String.eqb (TrimSpace ce) EmptyString = true -> e1 = s2) /\
  (String.eqb (TrimSpace de) EmptyString = true -> e2 = s2) /\
  Z.of_nat (window_minutes s1 e1) = ((e1 - s1) mod 1440)%Z /\
  Z.of_nat (window_minutes s2 e2) = ((e2 - s2) mod 1440)%Z.
Proof.
  intros Hok. destruct (ScheduleInit_ok_parts _ _ _ _ _ _ _ _ _ Hok)
    as (Hc & Hd & Hce & Hde & _ & _).
  cbv zeta.
  destruct (parseHHMM_facts TrimSpace SscanfInt cs) as (_ & Rc).
  destruct (parseHHMM_facts TrimSpace SscanfInt ds) as (_ & Rd).
  destruct (parseHHMM_facts TrimSpace SscanfInt ce) as (_ & Rce).
  destruct (parseHHMM_facts TrimSpace SscanfInt de) as (_ & Rde).
  pose proof (Rc _ Hc) as B1. pose proof (Rd _ Hd) as B2.
  assert (B3 : (0 <= match ChargeEnd sp with Some e => e | None => DischargeStart sp end <= 1439)%Z).
  { destruct Hce as [(-> & _)|(e & -> & _ & He)]; [exact B2|exact (Rce _ He)]. }
  assert (B4 : (0 <= match DischargeEnd sp with Some e => e | None => DischargeStart sp end <= 1439)%Z).
  { destruct Hde as [(-> & _)|(e & -> & _ & He)]; [exact B2|exact (Rde _ He)]. }
  split; [exact B1|]. split; [exact B3|]. split; [exact B2|]. split; [exact B4|].
  split.
  { intros Hb. destruct Hce as [(-> & _)|(e & _ & Hf & _)]; [reflexivity|congruence]. }
  split.
  { intros Hb. destruct Hde as [(-> & _)|(e & _ & Hf & _)]; [reflexivity|congruence]. }
  split; apply window_minutes_mod; assumption.
Qed.

Lemma ScheduleInit_windows_witness :
  let r := ScheduleInit (fun s => s) q_scan "01:00" "05:30" "17:00" EmptyString (2 : Q) 3 in
  let sp := match r with inr sp => sp | inl _ => mkSchedule 0 None 0 None 0 0 end in
  r = inr sp /\
  (let s1 := ChargeStart sp in
   let s2 := DischargeStart sp in
   let e1 := match ChargeEnd sp with Some e => e | None => s2 end in
   let e2 := match DischargeEnd sp with Some e => e | None => s2 end in
   (0 <= s1 <= 1439)%Z /\ (0 <= e1 <= 1439)%Z /\ (0 <= s2 <= 1439)%Z /\ (0 <= e2 <= 1439)%Z /\
   (String.eqb ((fun s => s) "05:30"%string) EmptyString = true -> e1 = s2) /\
   (String.eqb ((fun s => s) EmptyString) EmptyString = true -> e2 = s2) /\
   Z.of_nat (window_minutes s1 e1) = ((e1 - s1) mod 1440)%Z /\
   Z.of_nat (window_minutes s2 e2) = ((e2 - s2) mod 1440)%Z).
Proof.
  cbv zeta. split; [vm_compute; reflexivity|].
  apply (ScheduleInit_windows (fun s => s) q_scan "01:00" "05:30" "17:00" EmptyString (2 : Q) 3).
  vm_compute. reflexivity.
Defined.

(** ** The oracle planner: errors and the range of the plan *)

Section PlannerFacts.
Context {F : Type} `{GoFloat F} `{GoRound F}.

Lemma intervals_loop_error (p : BatteryParams F) (socSteps : Z) (acts : list F)
    (its : list (LMPInterval F)) :
  forall dp,
  ((exists err, intervals_loop p socSteps acts dp its = inl err) <->
   Exists (fun it => fle (DurationHours it) fzero = true) its) /\
  (forall dpf cts, intervals_loop p socSteps acts dp its = inr (dpf, cts) ->
   List.length cts = List.length its).
Proof.
  induction its as [|it rest IH]; intros dp; cbn [intervals_loop].
  - split; [split; [intros (e & E); discriminate|intros Hx; inversion Hx]|].
    intros dpf cts E. injection E as _ <-. reflexivity.
  - rewrite Exists_cons. destruct (fle (DurationHours it) fzero) eqn:Ed.
    + split; [split; [intros _; left; reflexivity|intros _; eexists; reflexivity]|].
      discriminate.
    + destruct (states_loop p socSteps dp acts (LMP it) (DurationHours it) 0
                  (S (Z.to_nat socSteps)) (repeat negInf (S (Z.to_nat socSteps))))
        as (next, ct).
      destruct (IH next) as (IHi & IHl).
      destruct (intervals_loop p socSteps acts next rest) as [e|(dpf, cts)] eqn:El.
      * split; [split; [intros _; right; apply IHi; eexists; reflexivity|
                        intros _; eexists; reflexivity]|].
        discriminate.
      * split; [split; [intros (e & E); discriminate|]|].
        { intros [Hx|Hx]; [discriminate|]. apply IHi in Hx. destruct Hx as (e & E).
          discriminate. }
        intros dpf' cts' E. injection E as _ <-.
        cbn [List.length]. rewrite (IHl dpf cts eq_refl). reflexivity.
Qed.

Lemma optimizeDP_error_facts (its : list (LMPInterval F)) (p : BatteryParams F)
    (initialSOC : F) (socSteps powerSteps : Z) :
  ((exists err, optimizeDP its p initialSOC socSteps powerSteps = inl err) <->
   Exists (fun it => fle (DurationHours it) fzero = true) its) /\
  (forall plan, optimizeDP its p initialSOC socSteps powerSteps = inr plan ->
   List.length plan = List.length its).
Proof.
  unfold optimizeDP.
  set (ss := if (socSteps <? 2)%Z then 2%Z else socSteps).
  set (dp0 := list_set (repeat negInf (S (Z.to_nat ss))) (socToIdx p ss initialSOC) fzero).
  destruct (intervals_loop_error p ss (actionsOf p powerSteps) its dp0) as (Hi & Hl).
  destruct (intervals_loop p ss (actionsOf p powerSteps) dp0 its) as [e|(dpf, cts)].
  - split; [rewrite <- Hi; split; intros _; eexists; reflexivity|discriminate].
  - split; [rewrite <- Hi; split; intros (x & E); discriminate|].
    intros plan E. injection E as <-.
    rewrite reconstruct_length. exact (Hl dpf cts eq_refl).
Qed.

(** [optimizeDP] fails exactly when some interval's duration compares
    [<= 0]; otherwise it returns a plan with one dispatch per interval. *)
Theorem optimizeDP_error_iff (its : list (LMPInterval F)) (p : BatteryParams F)
    (initialSOC : F) (socSteps powerSteps : Z) :
  ((exists err, optimizeDP its p initialSOC socSteps powerSteps = inl err) <->
   Exists (fun it => fle (DurationHours it) fzero = true) its) /\
  (forall plan, optimizeDP its p initialSOC socSteps powerSteps = inr plan ->
   List.length plan = List.length its).
Proof. exact (optimizeDP_error_facts its p initialSOC socSteps powerSteps). Qed.

Lemma byDay_loop_bad (p : BatteryParams F) (initialSOC : F) (socSteps powerSteps : Z)
    (its : list (LMPInterval F)) :
  forall i dI fP cd dI' fP' cd',
  byDay_loop p initialSOC socSteps powerSteps i its dI fP cd = inr (dI', fP', cd') ->
  forall it, In it (dI ++ its) -> fle (DurationHours it) fzero = true -> In it dI'.
Proof.
  induction its as [|x rest IH]; intros i dI fP cd dI' fP' cd' E it Hin Hbad;
    cbn [byDay_loop] in E.
  - injection E as <- _ _. rewrite app_nil_r in Hin. exact Hin.
  - destruct ((0 <? i)%nat && negb (intervalDay x =? cd)%Z).
    + destruct (optimizeDP dI p initialSOC socSteps powerSteps) as [e|pl] eqn:Eo;
        [discriminate|].
      apply (IH _ _ _ _ _ _ _ E).
      * apply in_app_or in Hin. destruct Hin as [Hin|Hin].
        -- exfalso.
           destruct (optimizeDP_error_facts dI p initialSOC socSteps powerSteps) as (Hi & _).
           assert (Hx : Exists (fun it => fle (DurationHours it) fzero = true) dI)
             by (apply Exists_exists; exists it; split; assumption).
           apply Hi in Hx. destruct Hx as (e & Hx). congruence.
        -- exact Hin.
      * exact Hbad.
    + apply (IH _ _ _ _ _ _ _ E); [|exact Hbad].
      rewrite <- app_assoc. exact Hin.
Qed.

(** [NewOracleStrategy] fails exactly when there are no intervals or some
    interval's duration compares [<= 0]: the day group holding such an
    interval fails in [optimizeDP], and otherwise the plan-length check of
    [optimizeDPByDay] passes. *)
Theorem NewOracleStrategy_error_iff (intervals : list (LMPInterval F))
    (params : BatteryParams F) (initialSOC : F) (cfg : OracleParams) :
  ((exists err, NewOracleStrategy intervals params initialSOC cfg = inl err) <->
   intervals = [] \/ Exists (fun it => fle (DurationHours it) fzero = true) intervals).
Proof.
  destruct intervals as [|it0 rest] eqn:Eits.
  { split; [intros _; left; reflexivity|intros _; eexists; reflexivity]. }
  rewrite <- Eits.
  assert (Hne : intervals <> []) by (rewrite Eits; discriminate).
  set (socSteps := if (SocSteps cfg <=? 0)%Z then 200%Z else SocSteps cfg).
  set (powerSteps := if (PowerSteps cfg <=? 0)%Z then 10%Z else PowerSteps cfg).
  assert (Hnos : NewOracleStrategy intervals params initialSOC cfg =
                 optimizeDPByDay params initialSOC socSteps powerSteps intervals)
    by (rewrite Eits; reflexivity).
  rewrite Hnos.
  destruct (existsb (fun it => fle (DurationHours it) fzero) intervals) eqn:Eb.
  - (* some non-positive duration: the day holding it fails *)
    apply existsb_exists in Eb. destruct Eb as (bad & Hbin & Hbad).
    assert (Hres : exists err,
               optimizeDPByDay params initialSOC socSteps powerSteps intervals = inl err).
    { unfold optimizeDPByDay. rewrite Eits. rewrite <- Eits.
      destruct (byDay_loop params initialSOC socSteps powerSteps 0 intervals [] [] 0%Z)
        as [e|((dI', fP'), cd')] eqn:El; [eexists; reflexivity|].
      pose proof (byDay_loop_bad _ _ _ _ _ _ _ _ _ _ _ _ El bad Hbin Hbad) as HdI.
      destruct (optimizeDP_error_facts dI' params initialSOC socSteps powerSteps) as (Hi & _).
      destruct (proj2 Hi (proj2 (Exists_exists _ _) (ex_intro _ bad (conj HdI Hbad))))
        as (e & Ee).
      destruct dI' as [|y t]; [contradiction|].
      rewrite Ee. eexists. reflexivity. }
    split; [intros _; right; apply Exists_exists; exists bad; split; assumption|
            intros _; exact Hres].
  - (* all durations positive: the grouping succeeds and the lengths agree *)
    assert (Hd : forall it, In it intervals -> fle (DurationHours it) fzero = false).
    { intros it Hin. destruct (fle (DurationHours it) fzero) eqn:E; [|reflexivity].
      assert (Hx : existsb (fun it => fle (DurationHours it) fzero) intervals = true)
        by (apply existsb_exists; exists it; split; assumption).
      congruence. }
    destruct (byDay_loop_inv params initialSOC socSteps powerSteps intervals [] [] [] 0%Z
                (or_introl (conj eq_refl (conj eq_refl eq_refl))) Hd)
      as (dI & fP & cd & Hloop & Hinv).
    cbn [app] in Hinv.
    destruct Hinv as [(Hnil & _)|(gs & pls & Hpre & HdIne & Hday & Hpl & HfP & Hgs & Hnad)];
      [congruence|].
    assert (HdI : forall it, In it dI -> fle (DurationHours it) fzero = false).
    { intros it Hin. apply Hd. rewrite Hpre. apply in_or_app. right. exact Hin. }
    destruct (optimizeDP_ok dI params initialSOC socSteps powerSteps HdI) as (pl & Hopt & Hpll).
    assert (Hall : Forall2 (day_plan_ok params initialSOC socSteps powerSteps)
                     (gs ++ [dI]) (pls ++ [pl])).
    { apply Forall2_app; [exact Hpl|constructor; [split; assumption|constructor]]. }
    assert (Hlen : List.length (concat (pls ++ [pl])) = List.length intervals).
    { rewrite (concat_length_Forall2 _ _ _ Hall), concat_app. cbn. rewrite app_nil_r, Hpre.
      reflexivity. }
    assert (Hres : optimizeDPByDay params initialSOC socSteps powerSteps intervals =
                   inr (concat (pls ++ [pl]))).
    { unfold optimizeDPByDay. rewrite Eits. rewrite <- Eits. cbn [List.length] in Hloop.
      rewrite Hloop. destruct dI as [|y t]; [congruence|]. rewrite Hopt, HfP.
      rewrite concat_app in Hlen |- *. cbn in Hlen |- *. rewrite app_nil_r in Hlen |- *.
      rewrite Hlen, Nat.eqb_refl. reflexivity. }
    rewrite Hres. split; [intros (e & E); discriminate|].
    intros [Hnil|Hx]; [contradiction|].
    apply Exists_exists in Hx. destruct Hx as (it & Hin & Hbad). rewrite (Hd it Hin) in Hbad.
    discriminate.
Qed.

End PlannerFacts.

Lemma nth_Forall {A : Type} (P : A -> Prop) (l : list A) (d : A) :
  Forall P l -> P d -> forall n, P (nth n l d).
Proof.
  intros Hl Hd n. revert n. induction Hl as [|x l Hx Hl IH]; intros [|n]; cbn; auto.
Qed.

Section PlanPower.
Variable p : BatteryParams Q.
Hypothesis Hp : valid_params p.

Lemma actions_loop_power (ss : Z) (dps soc lmp dtH : Q) (acts : list Q) :
  forall next best, Qabs (snd best) <= PowerCapacityMW p ->
  Qabs (snd (snd (actions_loop p ss dps soc lmp dtH acts next best))) <= PowerCapacityMW p.
Proof.
  induction acts as [|a rest IH]; intros next best Hb; cbn [actions_loop]; [exact Hb|].
  pose proof (simulateInterval_facts soc a lmp dtH p Hp) as Hs.
  destruct (simulateInterval soc a lmp dtH p) as ((nsoc, rp), pnl).
  destruct Hs as (_ & Hrp & _).
  destruct best as ((bn, bv), bp).
  apply IH. destruct (flt bv (fadd dps pnl)); assumption.
Qed.

Lemma states_loop_power (ss : Z) (dp acts : list Q) (lmp dtH : Q) (todo : nat) :
  forall sIdx next, Forall (choice_in_range p) (snd (states_loop p ss dp acts lmp dtH sIdx todo next)).
Proof.
  pose proof Hp as (_ & HP & _).
  assert (H0 : choice_in_range p ((-1)%Z, fzero)) by (unfold choice_in_range; cbn; lra).
  induction todo as [|todo IH]; intros sIdx next; cbn [states_loop]; [constructor|].
  destruct (fle (nth sIdx dp negInf) (fdiv negInf (fof_Z 2))).
  - pose proof (IH (S sIdx) next) as IHs.
    destruct (states_loop p ss dp acts lmp dtH (S sIdx) todo next) as (n2, cs).
    constructor; assumption.
  - pose proof (actions_loop_power ss (nth sIdx dp negInf) (idxToSoc p ss sIdx) lmp dtH acts
                  next (sIdx, nth sIdx dp negInf, fzero) H0) as Ha.
    destruct (actions_loop p ss (nth sIdx dp negInf) (idxToSoc p ss sIdx) lmp dtH acts next
                (sIdx, nth sIdx dp negInf, fzero)) as (n1, ((bn, bv), bp)).
    pose proof (IH (S sIdx) n1) as IHs.
    destruct (states_loop p ss dp acts lmp dtH (S sIdx) todo n1) as (n2, cs).
    constructor; [exact Ha|exact IHs].
Qed.

Lemma intervals_loop_power (ss : Z) (acts : list Q) (its : list (LMPInterval Q)) :
  forall dp dpf cts, intervals_loop p ss acts dp its = inr (dpf, cts) ->
  Forall (Forall (choice_in_range p)) cts.
Proof.
  induction its as [|it rest IH]; intros dp dpf cts E; cbn [intervals_loop] in E.
  - injection E as _ <-. constructor.
  - destruct (fle (DurationHours it) fzero); [discriminate|].
    pose proof (states_loop_power ss dp acts (LMP it) (DurationHours it)
                  (S (Z.to_nat ss)) 0 (repeat negInf (S (Z.to_nat ss)))) as Hs.
    destruct (states_loop p ss dp acts (LMP it) (DurationHours it) 0 (S (Z.to_nat ss))
                (repeat negInf (S (Z.to_nat ss)))) as (next, ct).
    destruct (intervals_loop p ss acts next rest) as [e|(dpf', cts')] eqn:El; [discriminate|].
    injection E as _ <-. constructor; [exact Hs|exact (IH _ _ _ El)].
Qed.

Lemma reconstruct_power (cts : list (list (Z * Q))) :
  Forall (Forall (choice_in_range p)) cts ->
  forall cur, Forall (fun d => Qabs (PowerMW d) <= PowerCapacityMW p) (reconstruct cts cur).
Proof.
  pose proof Hp as (_ & HP & _).
  assert (H0 : choice_in_range p ((-1)%Z, fzero)) by (unfold choice_in_range; cbn; lra).
  induction 1 as [|ct cts Hct _ IH]; intros cur; cbn [reconstruct]; [constructor|].
  pose proof (nth_Forall (choice_in_range p) ct ((-1)%Z, fzero) Hct H0 cur) as Hn.
  destruct (nth cur ct ((-1)%Z, fzero)) as (ns, pw). unfold choice_in_range in Hn. cbn [snd] in Hn.
  destruct (ns <? 0)%Z; constructor; cbn [PowerMW]; auto; cbn; lra.
Qed.

Lemma optimizeDP_power (its : list (LMPInterval Q)) (initialSOC : Q) (ss ps : Z)
    (plan : list (Dispatch Q)) :
  optimizeDP its p initialSOC ss ps = inr plan ->
  Forall (fun d => Qabs (PowerMW d) <= PowerCapacityMW p) plan.
Proof.
  unfold optimizeDP.
  set (ss' := if (ss <? 2)%Z then 2%Z else ss).
  set (dp0 := list_set (repeat negInf (S (Z.to_nat ss'))) (socToIdx p ss' initialSOC) fzero).
  destruct (intervals_loop p ss' (actionsOf p ps) dp0 its) as [e|(dpf, cts)] eqn:El;
    [discriminate|].
  intros E. injection E as <-.
  exact (reconstruct_power cts (intervals_loop_power _ _ _ _ _ _ El) _).
Qed.

Lemma byDay_loop_power (initialSOC : Q) (ss ps : Z) (its : list (LMPInterval Q)) :
  forall i dI fP cd dI' fP' cd',
  Forall (fun d => Qabs (PowerMW d) <= PowerCapacityMW p) fP ->
  byDay_loop p initialSOC ss ps i its dI fP cd = inr (dI', fP', cd') ->
  Forall (fun d => Qabs (PowerMW d) <= PowerCapacityMW p) fP'.
Proof.
  induction its as [|x rest IH]; intros i dI fP cd dI' fP' cd' HfP E; cbn [byDay_loop] in E.
  - injection E as _ <- _. exact HfP.
  - destruct ((0 <? i)%nat && negb (intervalDay x =? cd)%Z).
    + destruct (optimizeDP dI p initialSOC ss ps) as [e|pl] eqn:Eo; [discriminate|].
      apply (IH _ _ _ _ _ _ _ (proj2 (Forall_app _ _ _) (conj HfP (optimizeDP_power _ _ _ _ _ Eo))) E).
    + exact (IH _ _ _ _ _ _ _ HfP E).
Qed.

End PlanPower.

(** With valid battery parameters, every dispatch of a plan that
    [NewOracleStrategy] returns asks for a power no larger in magnitude than
    the battery's power capacity. *)
Theorem NewOracleStrategy_power_bound (intervals : list (LMPInterval Q))
    (params : BatteryParams Q) (initialSOC : Q) (cfg : OracleParams)
    (plan : list (Dispatch Q)) :
  valid_params params ->
  NewOracleStrategy intervals params initialSOC cfg = inr plan ->
  Forall (fun d => Qabs (PowerMW d) <= PowerCapacityMW params) plan.
Proof.
  intros Hp E. destruct intervals as [|it0 rest]; [discriminate|].
  unfold NewOracleStrategy, optimizeDPByDay in E.
  set (ss := if (SocSteps cfg <=? 0)%Z then 200%Z else SocSteps cfg) in E.
  set (ps := if (PowerSteps cfg <=? 0)%Z then 10%Z else PowerSteps cfg) in E.
  destruct (byDay_loop params initialSOC ss ps 0 (it0 :: rest) [] [] 0%Z)
    as [e|((dI', fP'), cd')] eqn:El; [discriminate|].
  pose proof (byDay_loop_power params Hp initialSOC ss ps _ _ _ _ _ _ _ _
                (Forall_nil _) El) as HfP.
  assert (Hlast : forall fp, (match dI' with
            | [] => inr fP'
            | _ => match optimizeDP dI' params initialSOC ss ps with
                   | inl err => inl ("error optimizing day: " ++ err)%string
                   | inr dayPlan => inr (fP' ++ dayPlan)
                   end
            end : string + list (Dispatch Q)) = inr fp ->
          Forall (fun d => Qabs (PowerMW d) <= PowerCapacityMW params) fp).
  { intros fp Ef. destruct dI' as [|y t].
    - injection Ef as <-. exact HfP.
    - destruct (optimizeDP (y :: t) params initialSOC ss ps) as [e|pl] eqn:Eo;
        [discriminate|].
      injection Ef as <-. exact (proj2 (Forall_app _ _ _) (conj HfP (optimizeDP_power _ Hp _ _ _ _ _ Eo))). }
  destruct (match dI' with
            | [] => inr fP'
            | _ => match optimizeDP dI' params initialSOC ss ps with
                   | inl err => inl ("error optimizing day: " ++ err)%string
                   | inr dayPlan => inr (fP' ++ dayPlan)
                   end
            end : string + list (Dispatch Q)) as [e|fp] eqn:Ef; [discriminate|].
  destruct (Nat.eqb (List.length fp) (List.length (it0 :: rest))); [|discriminate].
  injection E as <-. exact (Hlast fp eq_refl).
Qed.

Lemma NewOracleStrategy_power_bound_witness :
  valid_params q_params_1 /\
  NewOracleStrategy q_three_hours q_params_1 (1 # 2) (mkOracleParams 4 2) =
    inr [mkDispatch (1 # 2); mkDispatch (-2 # 2); mkDispatch (2 # 8)] /\
  Forall (fun d => Qabs (PowerMW d) <= PowerCapacityMW q_params_1)
    [mkDispatch (1 # 2); mkDispatch (-2 # 2); mkDispatch (2 # 8)].
Proof.
  assert (Hp : valid_params q_params_1) by (unfold valid_params; cbn; lra).
  assert (E : NewOracleStrategy q_three_hours q_params_1 (1 # 2) (mkOracleParams 4 2) =
              inr [mkDispatch (1 # 2); mkDispatch (-2 # 2); mkDispatch (2 # 8)]).
  { vm_compute. reflexivity. }
  split; [exact Hp|]. split; [exact E|].
  exact (NewOracleStrategy_power_bound _ _ _ _ _ Hp E).
Defined.
